(** * Scout core engine: minute normaliser, signal lifecycle, RL agent

    A shallow embedding of the stateful cores of the engine:

    - [Adapter]  : [server/services/providers/sportmonks-adapter.ts]
                   ([extractMinute], [applyLastMinuteCache], [normalizeSmMatch]);
    - [Client]   : the parallel cache of [server/services/sportmonks-client.ts]
                   ([SportMonksClient.applyLastMinuteCache]);
    - [RLAgent]  : [server/services/rl-agent.ts]
                   ([getQValues], [selectAction], [evaluateSignal],
                   [calculateAdvancedReward]);
    - [Signals]  : [server/services/active-signal-service.ts]
                   ([promoteSignal], [expireSignal], [update], [getSnapshot]);

    and of the code around them:

    - [Teams], [Polls] : [extractTeams] of the adapter, and polling
                   histories seen match by match;
    - [ClientMinute] : [extractMinuteStrong], [isStaleMinute] and the minute
                   logic of [processMatchData] of the SportMonks client;
    - [Learning] : the update rules of the RL agent
                   ([updateStandardQLearning], [updateDoubleQLearning],
                   [calculatePriority], [addExperience], [updateEpsilon]);
    - [Replay]   : [replayExperience] of the RL agent, which the main loop
                   calls on every tick;
    - [Engine]   : the force-broadcast loop of [CoreEngine.mainLoop];
    - [Odds]     : [server/services/odds-utils.ts]
                   ([selectBestOdds], [calculateValueBet], [meetsMinimumOdds]).

    Conventions.  JavaScript [Map]s whose iteration order is never observed
    are [gmap]s; the live signal [Map], whose insertion order is observed by
    [Array.from(this.signals.values())], is an association list.  Epoch
    milliseconds and match minutes are [Z].  Confidences, rewards and
    Q-values are JavaScript doubles in the source; they are rationals [Q]
    here, so every statement about them is about the exact arithmetic the
    doubles approximate.  [Date.now()] is read once per modelled call and
    passed in as [now]; [Math.random()] draws are passed in as arguments. *)

From Stdlib Require Import ZArith QArith Qminmax Qround Qabs Lia Lqa Bool.
From Stdlib Require Import Ascii String Sorting.Sorted.
From stdpp Require Import gmap strings list fin_maps sorting.

Local Open Scope Z_scope.

(** ** Shared JavaScript helpers *)

(** [String.prototype.toUpperCase] on the ASCII range. *)
Definition upper_ascii (c : ascii) : ascii :=
  let n := nat_of_ascii c in
  if (Nat.leb 97 n && Nat.leb n 122)%bool then ascii_of_nat (n - 32) else c.

Fixpoint toUpperCase (s : string) : string :=
  match s with
  | EmptyString => EmptyString
  | String c s' => String (upper_ascii c) (toUpperCase s')
  end.

(** [String.prototype.startsWith]. *)
Definition startsWith (s p : string) : bool := String.prefix p s.

(** [Array.prototype.includes] on strings. *)
Definition includes (l : list string) (s : string) : bool :=
  existsb (String.eqb s) l.

(** [a || b] on strings: the empty string is the only falsy one. *)
Definition orElse (a b : string) : string := if String.eqb a "" then b else a.

(** [String.prototype.toLowerCase] on the ASCII range. *)
Definition lower_ascii (c : ascii) : ascii :=
  let n := nat_of_ascii c in
  if (Nat.leb 65 n && Nat.leb n 90)%bool then ascii_of_nat (n + 32) else c.

Fixpoint toLowerCase (s : string) : string :=
  match s with
  | EmptyString => EmptyString
  | String c s' => String (lower_ascii c) (toLowerCase s')
  end.

(** [String.prototype.includes]. *)
Fixpoint strIncludes (s sub : string) : bool :=
  String.prefix sub s ||
  match s with
  | EmptyString => false
  | String _ s' => strIncludes s' sub
  end.

(** * The minute normaliser of the provider adapter *)

Module Adapter.

(** The part of a raw provider payload that [extractMinute] and
    [normalizeSmMatch] read.  A field is [Some v] exactly when the
    JavaScript test [typeof ... === 'number'] succeeds on it. *)
Record RawMatch := {
  raw_id : string;                    (* String(raw?.id ?? raw?.fixture_id ?? raw?.uuid ?? 'unknown') *)
  time_minute : option Z;             (* m.time.minute *)
  time_minutes : option Z;            (* m.time.minutes *)
  time_current_minute : option Z;     (* m.time.current.minute *)
  live_minute : option Z;             (* m.live.minute *)
  periods_data0_minute : option Z;    (* m.periods.data[0].minute *)
  periods_first_minute : option Z;    (* m.periods.first.minute *)
  events : list (option Z);           (* minute of each entry of m.events.data || m.events *)
  status : string;                    (* m.status.name || m.time.status || '' *)
  starting_at : option Z              (* startTs, epoch seconds *)
}.

(** Environment switches read at module load. *)
Record Config := {
  USE_STARTING_AT_FALLBACK : bool;
  LAST_MINUTE_CACHE_SEC : Z
}.

Definition defaultConfig : Config :=
  {| USE_STARTING_AT_FALLBACK := true; LAST_MINUTE_CACHE_SEC := 90 |}.

Definition STALE_MINUTE_THRESHOLD_MS : Z := 30000.

Definition liveStatuses : list string :=
  ["LIVE"; "INPLAY"; "1ST_HALF"; "2ND_HALF"; "ET"; "AET"; "PEN"]%string.

(** Step 3 of [extractMinute]: [x && typeof x === 'number']. *)
Definition truthyNumber (o : option Z) : option Z :=
  match o with
  | Some v => if v =? 0 then None else Some v
  | None => None
  end.

(** Step 4: the first of [events.slice(0, 5)] with a positive minute. *)
Fixpoint firstPositive (l : list (option Z)) : option Z :=
  match l with
  | [] => None
  | Some v :: l' => if v >? 0 then Some v else firstPositive l'
  | None :: l' => firstPositive l'
  end.

(** Step 5: the kick-off estimate; [None] when the branch returns nothing. *)
Definition startingAtMinute (cfg : Config) (now : Z) (m : RawMatch) : option Z :=
  if USE_STARTING_AT_FALLBACK cfg then
    let st := toUpperCase (status m) in
    let shouldCalculate :=
      match starting_at m with
      | Some startTs =>
          negb (startTs =? 0) &&
          (includes liveStatuses st || String.eqb st "" || String.eqb st "UNDEFINED")
      | None => false
      end in
    match starting_at m with
    | Some startTs =>
        if shouldCalculate then
          let nowSec := now / 1000 in
          let elapsed := Z.max 0 ((nowSec - startTs) / 60) in
          let calculatedMinute := Z.min 130 elapsed in
          if calculatedMinute >? 0 then Some calculatedMinute else None
        else None
    | None => None
    end
  else None.

Definition extractMinute (cfg : Config) (now : Z) (m : RawMatch) : Z :=
  match time_minute m with
  | Some v => v
  | None =>
  match time_minutes m with
  | Some v => v
  | None =>
  match time_current_minute m with
  | Some v => v
  | None =>
  match live_minute m with
  | Some v => v
  | None =>
  match truthyNumber (periods_data0_minute m) with
  | Some v => v
  | None =>
  match truthyNumber (periods_first_minute m) with
  | Some v => v
  | None =>
  match firstPositive (take 5 (events m)) with
  | Some v => v
  | None =>
  match startingAtMinute cfg now m with
  | Some v => v
  | None => 0
  end end end end end end end end.

(** The three module-level caches. *)
Record Entry := { minute : Z; timestamp : Z }.
Record RawChange := { rawMinute : Z; changedAt : Z }.

Record State := {
  lastMinuteCache : gmap string Entry;
  lastNormalizedMinute : gmap string Entry;
  lastRawMinuteChange : gmap string RawChange
}.

Definition initial : State :=
  {| lastMinuteCache := ∅; lastNormalizedMinute := ∅; lastRawMinuteChange := ∅ |}.

(** [applyLastMinuteCache(matchId, minute)].  [ageSeconds] is
    [(now - cached.timestamp) / 1000] as a double; on integer milliseconds
    [Math.floor(ageSeconds / 60)] is [(now - ts) / 1000 / 60] and
    [ageSeconds < LAST_MINUTE_CACHE_SEC] is [now - ts < 1000 * SEC]. *)
Definition applyLastMinuteCache (cfg : Config) (now : Z) (matchId : string)
    (mn : Z) (cache : gmap string Entry) : Z * gmap string Entry :=
  let cached := cache !! matchId in
  if mn >? 0 then
    let cache' :=
      match cached with
      | None => <[matchId := {| minute := mn; timestamp := now |}]> cache
      | Some c =>
          if mn >? minute c
          then <[matchId := {| minute := mn; timestamp := now |}]> cache
          else cache
      end in
    (mn, cache')
  else
    match cached with
    | None => (0, cache)
    | Some c =>
        let ageMs := now - timestamp c in
        let elapsedMinutes := ageMs / 1000 / 60 in
        let inflatedMinute := Z.min 130 (minute c + Z.max 0 elapsedMinutes) in
        if ageMs <? 1000 * LAST_MINUTE_CACHE_SEC cfg
        then (inflatedMinute, cache)
        else (0, cache)
    end.

(** The stale-detection block of [normalizeSmMatch]: returns [isStale] and
    the updated change tracker. *)
Definition trackRawChange (now : Z) (matchId : string) (rawMin : Z)
    (chg : gmap string RawChange) : bool * gmap string RawChange :=
  match chg !! matchId with
  | None => (false, <[matchId := {| rawMinute := rawMin; changedAt := now |}]> chg)
  | Some lastRawChange =>
      if negb (rawMinute lastRawChange =? rawMin)
      then (false, <[matchId := {| rawMinute := rawMin; changedAt := now |}]> chg)
      else if (rawMin >? 0) && (now - changedAt lastRawChange >? STALE_MINUTE_THRESHOLD_MS)
      then (true, chg)
      else (false, chg)
  end.

(** The override guard: the value of [normalizedMinute] after the
    three-way [if]. *)
Definition guardMinute (now rawMin cachedMinute : Z) (isStale : bool)
    (prevNormalized : option Entry) : Z :=
  let guardActive :=
    match prevNormalized with
    | Some p => ((rawMin =? 0) || isStale) && (minute p >? 0)
    | None => false
    end in
  match prevNormalized with
  | Some p =>
      if guardActive then
        let elapsedMinutes := (now - timestamp p) / 60000 in
        let inflatedFromPrev := Z.min 130 (minute p + elapsedMinutes) in
        Z.max cachedMinute inflatedFromPrev
      else if cachedMinute >? 0 then cachedMinute else rawMin
  | None => if cachedMinute >? 0 then cachedMinute else rawMin
  end.

(** The tracking block: the anchor moves only when the minute increases. *)
Definition trackNormalized (now : Z) (matchId : string) (normalizedMinute : Z)
    (norm : gmap string Entry) : gmap string Entry :=
  if normalizedMinute >? 0 then
    match norm !! matchId with
    | None => <[matchId := {| minute := normalizedMinute; timestamp := now |}]> norm
    | Some prev =>
        if normalizedMinute >? minute prev
        then <[matchId := {| minute := normalizedMinute; timestamp := now |}]> norm
        else norm
    end
  else norm.

(** The fields of the normalised match that depend on the minute logic. *)
Record Normalized := { match_id : string; minute_out : Z; raw_minute : Z }.

Definition normalizeSmMatch (cfg : Config) (now : Z) (raw : RawMatch) (σ : State)
  : Normalized * State :=
  let rawMin := extractMinute cfg now raw in
  let matchId := raw_id raw in
  let '(isStale, chg') := trackRawChange now matchId rawMin (lastRawMinuteChange σ) in
  let '(cachedMinute, cache') :=
    applyLastMinuteCache cfg now matchId rawMin (lastMinuteCache σ) in
  let prevNormalized := lastNormalizedMinute σ !! matchId in
  let normalizedMinute := guardMinute now rawMin cachedMinute isStale prevNormalized in
  let norm' := trackNormalized now matchId normalizedMinute (lastNormalizedMinute σ) in
  ({| match_id := matchId; minute_out := normalizedMinute; raw_minute := rawMin |},
   {| lastMinuteCache := cache'; lastNormalizedMinute := norm';
      lastRawMinuteChange := chg' |}).

(** A polling history: each poll is a clock reading and a payload. *)
Fixpoint run (cfg : Config) (σ : State) (polls : list (Z * RawMatch))
  : list Normalized * State :=
  match polls with
  | [] => ([], σ)
  | (now, raw) :: rest =>
      let '(o, σ1) := normalizeSmMatch cfg now raw σ in
      let '(os, σ2) := run cfg σ1 rest in
      (o :: os, σ2)
  end.

(** The minute most recently returned for match [m]. *)
Fixpoint lastReturned (m : string) (outs : list Normalized) : option Z :=
  match outs with
  | [] => None
  | o :: rest =>
      match lastReturned m rest with
      | Some x => Some x
      | None => if String.eqb (match_id o) m then Some (minute_out o) else None
      end
  end.

(** Age of the cache entry seen by each poll of a history (for the TTL). *)
Fixpoint cacheAges (cfg : Config) (σ : State) (polls : list (Z * RawMatch))
  : list (option Z) :=
  match polls with
  | [] => []
  | (now, raw) :: rest =>
      ((λ c, now - timestamp c) <$> lastMinuteCache σ !! raw_id raw)
        :: cacheAges cfg (normalizeSmMatch cfg now raw σ).2 rest
  end.

(** A payload that carries only [time.minute]. *)
Definition feed (id : string) (mn : Z) : RawMatch :=
  {| raw_id := id; time_minute := Some mn; time_minutes := None;
     time_current_minute := None; live_minute := None;
     periods_data0_minute := None; periods_first_minute := None;
     events := []; status := ""; starting_at := None |}.

(** [isStale] as computed by a call on state [σ]. *)
Definition staleAt (cfg : Config) (now : Z) (raw : RawMatch) (σ : State) : bool :=
  (trackRawChange now (raw_id raw) (extractMinute cfg now raw)
     (lastRawMinuteChange σ)).1.

(** No explicit minute anywhere in the payload (steps 1 to 4 all fail). *)
Definition noExplicitMinute (m : RawMatch) : bool :=
  match time_minute m, time_minutes m, time_current_minute m, live_minute m,
        truthyNumber (periods_data0_minute m),
        truthyNumber (periods_first_minute m),
        firstPositive (take 5 (events m)) with
  | None, None, None, None, None, None, None => true
  | _, _, _, _, _, _, _ => false
  end.

(** What the guard's anchor records about match [m] after a history whose
    clock readings are at most [T] and whose last returned minute for [m]
    is [last]: the anchor is the positive high-water mark. *)
Definition anchorInv (m : string) (T : Z) (last : option Z) (σ : State) : Prop :=
  match lastNormalizedMinute σ !! m with
  | Some p =>
      0 < minute p ≤ 130 ∧ timestamp p ≤ T ∧ ∀ l, last = Some l → l ≤ minute p
  | None => ∀ l, last = Some l → l ≤ 0
  end.

End Adapter.

(** * The parallel minute cache of the SportMonks client *)

Module Client.

Record Entry := { minute : Z; timestamp : Z }.

(** [lastMinuteCache] and [lastChangeCache] of [SportMonksClient]. *)
Record State := {
  lastMinuteCache : gmap string Entry;
  lastChangeCache : gmap string Entry
}.

Definition initial : State := {| lastMinuteCache := ∅; lastChangeCache := ∅ |}.

Record CacheResult := { cr_minute : Z; usedCache : bool }.

(** [SportMonksClient.applyLastMinuteCache(matchId, minute)]. *)
Definition applyLastMinuteCache (LAST_MINUTE_CACHE_SEC : Z) (now : Z)
    (matchId : string) (mn : Z) (σ : State) : CacheResult * State :=
  if mn >? 0 then
    let prevChange := lastChangeCache σ !! matchId in
    let chg' :=
      match prevChange with
      | None => <[matchId := {| minute := mn; timestamp := now |}]> (lastChangeCache σ)
      | Some pc =>
          if negb (mn =? minute pc)
          then <[matchId := {| minute := mn; timestamp := now |}]> (lastChangeCache σ)
          else lastChangeCache σ
      end in
    ({| cr_minute := mn; usedCache := false |},
     {| lastMinuteCache :=
          <[matchId := {| minute := mn; timestamp := now |}]> (lastMinuteCache σ);
        lastChangeCache := chg' |})
  else
    match lastMinuteCache σ !! matchId with
    | None => ({| cr_minute := 0; usedCache := false |}, σ)
    | Some c =>
        let ageMs := now - timestamp c in
        let elapsedMinutes := ageMs / 1000 / 60 in
        let inflatedMinute := Z.min 130 (minute c + Z.max 0 elapsedMinutes) in
        if ageMs <? 1000 * LAST_MINUTE_CACHE_SEC
        then ({| cr_minute := inflatedMinute; usedCache := true |}, σ)
        else ({| cr_minute := 0; usedCache := false |}, σ)
    end.

End Client.

(** * The reinforcement-learning agent *)

Module RLAgent.

Local Open Scope Q_scope.

Definition Qltb (x y : Q) : bool := negb (Qle_bool y x).

(** [actionCount]: 0 reject, 1 very low, 2 low, 3 medium, 4 high. *)
Definition actionCount : nat := 5.

(** [Math.max(...row)]: [None] stands for the [-Infinity] of an empty row. *)
Fixpoint mathMax (row : list Q) : option Q :=
  match row with
  | [] => None
  | x :: rest =>
      match mathMax rest with
      | None => Some x
      | Some m => Some (if Qltb x m then m else x)
      end
  end.

(** [row.indexOf(v)], [-1] when absent. *)
Fixpoint indexOfFrom (i : Z) (v : Q) (row : list Q) : Z :=
  match row with
  | [] => (-1)%Z
  | x :: rest => if Qeq_bool x v then i else indexOfFrom (i + 1)%Z v rest
  end.

Definition indexOf (v : Q) (row : list Q) : Z := indexOfFrom 0%Z v row.

(** [qValues.indexOf(Math.max(...qValues))]. *)
Definition argmax (row : list Q) : Z :=
  match mathMax row with
  | None => (-1)%Z
  | Some m => indexOf m row
  end.

Inductive SignalResult := won | lost | expired.

Record Analysis := {
  confidence : Q;
  reasoning : string;
  market : option string
}.

Section Agent.

(** Feature extraction and key formation are pure floating-point code that
    never touches the tables; they are parameters.  [extractFeatures]
    returns [None] when the source throws (for instance on a missing
    [matchInfo]); it reads [performanceHistory]. *)
Context {Features MatchInfo FootyStats : Type}.
Variable stateToKey : Features → string.
Variable extractFeatures :
  Analysis → MatchInfo → option FootyStats → list Q → option Features.
Variable matchInfoId : MatchInfo → option string.

Record Pending := {
  p_state : Features;
  p_action : Z;
  p_timestamp : Z;
  p_matchId : option string;
  originalConfidence : option Q;
  p_market : option string
}.

Record Agent := {
  qTable : gmap string (list Q);
  targetQTable : gmap string (list Q);
  pendingStateActions : gmap string Pending;
  convergenceHistory : list Q;
  performanceHistory : list Q;
  epsilon : Q
}.

(** The three [Math.random()] results a call may consume and the id that
    [storeStateAction] generates from the clock and a random suffix. *)
Record Draws := { exploreDraw : Q; actionDraw : Q; signalId : string }.

(** [getQValues]: a missing row is created as [actionCount] zeros. *)
Definition getQValues (state : Features) (tbl : gmap string (list Q))
  : list Q * gmap string (list Q) :=
  let key := stateToKey state in
  match tbl !! key with
  | Some row => (row, tbl)
  | None => (replicate actionCount 0, <[key := replicate actionCount 0]> tbl)
  end.

(** [selectAction]: epsilon-greedy. *)
Definition selectAction (eps : Q) (d : Draws) (state : Features)
    (tbl : gmap string (list Q)) : Z * gmap string (list Q) :=
  if Qltb (exploreDraw d) eps
  then (Qfloor (actionDraw d * inject_Z (Z.of_nat actionCount)), tbl)
  else
    let '(qValues, tbl') := getQValues state tbl in
    (argmax qValues, tbl').

(** [storeStateAction]: record the pending evaluation, sweep those older
    than 24 hours. *)
Definition storeStateAction (now : Z) (d : Draws) (state : Features)
    (action : Z) (analysis : Analysis) (matchInfo : MatchInfo)
    (pend : gmap string Pending) : string * gmap string Pending :=
  let pend1 :=
    <[signalId d := {| p_state := state; p_action := action; p_timestamp := now;
                       p_matchId := matchInfoId matchInfo;
                       originalConfidence := Some (confidence analysis);
                       p_market := market analysis |}]> pend in
  let cutoff := (now - 24 * 60 * 60 * 1000)%Z in
  (signalId d, filter (λ kv, ¬ (p_timestamp kv.2 < cutoff)%Z) pend1).

(** [trackDecisionQuality]; [qValues[action]] of an index outside the row
    is read as 0. *)
Definition trackDecisionQuality (state : Features) (action : Z)
    (tbl : gmap string (list Q)) (hist : list Q)
  : gmap string (list Q) * list Q :=
  let '(qValues, tbl') := getQValues state tbl in
  let actionValue := nth (Z.to_nat action) qValues 0 in
  let conf :=
    match mathMax qValues with
    | Some maxValue => if Qltb 0 maxValue then actionValue / maxValue else 1 # 2
    | None => 1 # 2
    end in
  let hist1 := hist ++ [conf] in
  (tbl', if (1000 <? length hist1)%nat then drop 1 hist1 else hist1).

Record Evaluation := {
  shouldGenerate : bool;
  adjustedConfidence : Q;
  ev_reasoning : string;
  ev_signalId : option string
}.

(** The [switch (action)] of [evaluateSignal]. *)
Definition applyAction (action : Z) (analysis : Analysis) : bool * Q * string :=
  let c := confidence analysis in
  let r := reasoning analysis in
  if (action =? 0)%Z then
    (false, c, r +:+ " (RL Agent: Signal rejected - high risk pattern detected)")
  else if (action =? 1)%Z then
    (true, Qmin (c * (6 # 10)) 50,
     r +:+ " (RL Agent: Very low confidence - experimental signal)")
  else if (action =? 2)%Z then
    (true, Qmin (c * (8 # 10)) 65,
     r +:+ " (RL Agent: Low confidence - conservative approach)")
  else if (action =? 3)%Z then
    (true, Qmin (c * (95 # 100)) 80,
     r +:+ " (RL Agent: Medium confidence - standard signal)")
  else if (action =? 4)%Z then
    (true, Qmin (c * (115 # 100)) 95,
     r +:+ " (RL Agent: High confidence - strong pattern identified)")
  else (false, c, r).

Definition evaluateSignal (now : Z) (d : Draws) (analysis : Analysis)
    (matchInfo : MatchInfo) (footyStatsData : option FootyStats) (ag : Agent)
  : Evaluation * Agent :=
  match extractFeatures analysis matchInfo footyStatsData (performanceHistory ag) with
  | None =>
      (* the [catch] branch *)
      ({| shouldGenerate := true; adjustedConfidence := confidence analysis;
          ev_reasoning := reasoning analysis; ev_signalId := None |}, ag)
  | Some state =>
      let '(action, tbl1) := selectAction (epsilon ag) d state (qTable ag) in
      let '(gen, adj, rsn) := applyAction action analysis in
      let '(sid, pend') :=
        storeStateAction now d state action analysis matchInfo
          (pendingStateActions ag) in
      let '(tbl2, hist') :=
        trackDecisionQuality state action tbl1 (convergenceHistory ag) in
      ({| shouldGenerate := gen; adjustedConfidence := adj;
          ev_reasoning := rsn; ev_signalId := Some sid |},
       {| qTable := tbl2; targetQTable := targetQTable ag;
          pendingStateActions := pend'; convergenceHistory := hist';
          performanceHistory := performanceHistory ag; epsilon := epsilon ag |})
  end.

(** [calculateAdvancedReward].  [if (profit && ...)] and
    [if (stateAction?.originalConfidence)] are truthiness tests: an absent
    value and the number 0 both fail them. *)
Definition calculateAdvancedReward (signalResult : SignalResult)
    (profit : option Q) (stateAction : option Pending) : Q :=
  let baseReward :=
    match signalResult with
    | won =>
        match profit with
        | Some p => if Qltb 0 p then 1 + Qmin (p / 100) (1 # 2) else 1
        | None => 1
        end
    | lost =>
        match profit with
        | Some p => if Qltb p 0 then -1 + Qmax (p / 100) (- (1 # 2)) else -1
        | None => -1
        end
    | expired => - (2 # 10)
    end in
  match stateAction with
  | Some sa =>
      match originalConfidence sa with
      | Some oc =>
          if Qeq_bool oc 0 then baseReward
          else
            let conf := oc / 100 in
            match signalResult with
            | lost => if Qltb (8 # 10) conf then baseReward - (3 # 10) else baseReward
            | won => if Qltb conf (6 # 10) then baseReward + (2 # 10) else baseReward
            | expired => baseReward
            end
      | None => baseReward
      end
  | None => baseReward
  end.


(** A row that no update has moved away from zero. *)
Definition zeroRow (row : list Q) : Prop := row ≠ [] ∧ Forall (λ x, x == 0) row.

Definition untrained (tbl : gmap string (list Q)) (key : string) : Prop :=
  match tbl !! key with
  | None => True
  | Some row => zeroRow row
  end.

(** A table read with missing rows as zeros. *)
Definition readRow (tbl : gmap string (list Q)) (key : string) : list Q :=
  default (replicate actionCount 0) (tbl !! key).

End Agent.

End RLAgent.

(** * The signal lifecycle manager *)

Module Signals.

Inductive SignalState := PRE | CANDIDATE | ACTIVE | EXPIRED.

Definition stateEqb (a b : SignalState) : bool :=
  match a, b with
  | PRE, PRE | CANDIDATE, CANDIDATE | ACTIVE, ACTIVE | EXPIRED, EXPIRED => true
  | _, _ => false
  end.

(** Position in the lifecycle PRE, CANDIDATE, ACTIVE, EXPIRED. *)
Definition rank (s : SignalState) : nat :=
  match s with PRE => 0 | CANDIDATE => 1 | ACTIVE => 2 | EXPIRED => 3 end.

(** [SignalCandidate]; the optional odds fields are passed through
    untouched by the service and are left out. *)
Record SignalCandidate := {
  id : string;
  matchId : string;
  market : string;
  selection : string;
  homeTeam : string;
  awayTeam : string;
  league : string;
  confidence : Q;
  minute : Z;
  liquidityOk : bool;
  ttlSeconds : Z;
  state : SignalState;
  reasoning : string;
  createdTs : Z;
  lastUpdateTs : Z;
  meta : list (string * string)
}.

Definition set_state (st : SignalState) (s : SignalCandidate) : SignalCandidate :=
  {| id := id s; matchId := matchId s; market := market s;
     selection := selection s; homeTeam := homeTeam s; awayTeam := awayTeam s;
     league := league s; confidence := confidence s; minute := minute s;
     liquidityOk := liquidityOk s; ttlSeconds := ttlSeconds s; state := st;
     reasoning := reasoning s; createdTs := createdTs s;
     lastUpdateTs := lastUpdateTs s; meta := meta s |}.

Definition set_createdTs (t : Z) (s : SignalCandidate) : SignalCandidate :=
  {| id := id s; matchId := matchId s; market := market s;
     selection := selection s; homeTeam := homeTeam s; awayTeam := awayTeam s;
     league := league s; confidence := confidence s; minute := minute s;
     liquidityOk := liquidityOk s; ttlSeconds := ttlSeconds s; state := state s;
     reasoning := reasoning s; createdTs := t;
     lastUpdateTs := lastUpdateTs s; meta := meta s |}.

Definition set_lastUpdateTs (t : Z) (s : SignalCandidate) : SignalCandidate :=
  {| id := id s; matchId := matchId s; market := market s;
     selection := selection s; homeTeam := homeTeam s; awayTeam := awayTeam s;
     league := league s; confidence := confidence s; minute := minute s;
     liquidityOk := liquidityOk s; ttlSeconds := ttlSeconds s; state := state s;
     reasoning := reasoning s; createdTs := createdTs s;
     lastUpdateTs := t; meta := meta s |}.

Record MarketConfig := {
  enabled : bool;
  minConfidence : Q;
  maxSignalsPerMatch : nat
}.

Record Markets := {
  over_under : MarketConfig;
  btts : MarketConfig;
  next_goal : MarketConfig
}.

(** [ActiveSignalConfig]; the two limits are counts. *)
Record Config := {
  confidenceActive : Q;
  maxActive : nat;
  cooldownSeconds : Z;
  maturationWindow : Z;
  signalTTL : Z;
  markets : Markets
}.

(** The constructor's defaults. *)
Definition defaultConfig : Config :=
  {| confidenceActive := 65; maxActive := 10; cooldownSeconds := 300;
     maturationWindow := 60; signalTTL := 15;
     markets :=
       {| over_under := {| enabled := true; minConfidence := 65;
                           maxSignalsPerMatch := 2 |};
          btts := {| enabled := true; minConfidence := 60;
                     maxSignalsPerMatch := 2 |};
          next_goal := {| enabled := true; minConfidence := 70;
                          maxSignalsPerMatch := 1 |} |} |}.

Definition getMarketThreshold (cfg : Config) (mk : string) : Q :=
  if startsWith mk "over_" || startsWith mk "under_"
  then minConfidence (over_under (markets cfg))
  else if startsWith mk "btts" then minConfidence (btts (markets cfg))
  else if startsWith mk "next_goal" then minConfidence (next_goal (markets cfg))
  else confidenceActive cfg.

Definition getPerMatchLimit (cfg : Config) (mk : string) : nat :=
  if startsWith mk "over_" || startsWith mk "under_"
  then maxSignalsPerMatch (over_under (markets cfg))
  else if startsWith mk "btts" then maxSignalsPerMatch (btts (markets cfg))
  else if startsWith mk "next_goal" then maxSignalsPerMatch (next_goal (markets cfg))
  else 2%nat.

Definition getMarketType (mk : string) : string :=
  if startsWith mk "over_" || startsWith mk "under_" then "ou"
  else if startsWith mk "btts" then "btts"
  else if startsWith mk "next_goal" then "next_goal"
  else "other".

(** [getAge] and [getTimeLeft], in seconds. *)
Definition getAge (now : Z) (s : SignalCandidate) : Q :=
  (inject_Z (now - createdTs s) / 1000)%Q.

Definition getTimeLeft (now : Z) (s : SignalCandidate) : Q :=
  Qmax 0 (inject_Z (ttlSeconds s) - getAge now s)%Q.

Definition calculatePriority (now : Z) (s : SignalCandidate) : Q * Q :=
  ((- confidence s)%Q, getTimeLeft now s).

(** The comparator handed to [Array.prototype.sort]. *)
Definition comparePriority (now : Z) (a b : SignalCandidate) : Q :=
  let '(priorityA1, priorityA2) := calculatePriority now a in
  let '(priorityB1, priorityB2) := calculatePriority now b in
  if negb (Qeq_bool priorityA1 priorityB1)
  then (priorityA1 - priorityB1)%Q
  else (priorityA2 - priorityB2)%Q.

(** [a] may stand before [b]: the comparator is not positive. *)
Definition before (now : Z) (a b : SignalCandidate) : bool :=
  Qle_bool (comparePriority now a b) 0.

(** [Array.prototype.sort] is a stable sort; with a consistent comparator
    its result is that of stable insertion. *)
Fixpoint insertSorted {A} (le : A → A → bool) (x : A) (l : list A) : list A :=
  match l with
  | [] => [x]
  | y :: l' => if le x y then x :: y :: l' else y :: insertSorted le x l'
  end.

Definition jsSort {A} (le : A → A → bool) (l : list A) : list A :=
  foldr (insertSorted le) [] l.

(** The idiom [if (!g.has(k)) g.set(k, []); g.get(k).push(x)] on an
    insertion-ordered [Map]. *)
Fixpoint pushGroup {A} (k : string) (x : A) (groups : list (string * list A))
  : list (string * list A) :=
  match groups with
  | [] => [(k, [x])]
  | (k', g) :: rest =>
      if String.eqb k' k then (k', g ++ [x]) :: rest
      else (k', g) :: pushGroup k x rest
  end.

Definition groupBy {A} (key : A → string) (l : list A) : list (string * list A) :=
  foldl (λ groups x, pushGroup (key x) x groups) [] l.

(** The live set as an insertion-ordered [Map<string, SignalCandidate>]. *)
Fixpoint mapGet {V} (k : string) (m : list (string * V)) : option V :=
  match m with
  | [] => None
  | (k', v) :: rest => if String.eqb k' k then Some v else mapGet k rest
  end.

Fixpoint mapSet {V} (k : string) (v : V) (m : list (string * V))
  : list (string * V) :=
  match m with
  | [] => [(k, v)]
  | (k', v') :: rest =>
      if String.eqb k' k then (k', v) :: rest else (k', v') :: mapSet k v rest
  end.

Definition mapDelete {V} (k : string) (m : list (string * V)) : list (string * V) :=
  List.filter (λ kv, negb (String.eqb kv.1 k)) m.

Record Service := {
  signals : list (string * SignalCandidate);
  cooldown : gmap string Z
}.

Definition emptyService : Service := {| signals := []; cooldown := ∅ |}.

(** [isDeduplicated]: [!lastActiveTs] holds for a missing entry and for 0. *)
Definition isDeduplicated (cfg : Config) (now : Z) (cd : gmap string Z)
    (s : SignalCandidate) : bool :=
  match cd !! id s with
  | None => true
  | Some lastActiveTs =>
      if lastActiveTs =? 0 then true
      else cooldownSeconds cfg * 1000 <=? now - lastActiveTs
  end.

(** The condition of the PRE->CANDIDATE branch of [promoteSignal]. *)
Definition meetsCandidate (cfg : Config) (s : SignalCandidate) : bool :=
  stateEqb (state s) PRE
  && Qle_bool (getMarketThreshold cfg (market s) - 15) (confidence s)
  && liquidityOk s.

(** The condition of the CANDIDATE->ACTIVE branch. *)
Definition meetsActive (cfg : Config) (now : Z) (cd : gmap string Z)
    (s : SignalCandidate) : bool :=
  stateEqb (state s) CANDIDATE
  && Qle_bool (getMarketThreshold cfg (market s)) (confidence s)
  && Qle_bool (inject_Z (maturationWindow cfg)) (getAge now s)
  && liquidityOk s
  && isDeduplicated cfg now cd s.

(** [promoteSignal]: the signal after the call, the cooldown map after the
    call, and whether the CANDIDATE->ACTIVE branch was taken. *)
Definition promoteSignal (cfg : Config) (now : Z) (cd : gmap string Z)
    (s : SignalCandidate) : SignalCandidate * gmap string Z * bool :=
  let originalState := state s in
  let s1 := if meetsCandidate cfg s then set_state CANDIDATE s else s in
  let toActive := meetsActive cfg now cd s1 in
  let s2 := if toActive then set_state ACTIVE s1 else s1 in
  let cd' := if toActive then <[id s1 := now]> cd else cd in
  let s3 :=
    if negb (stateEqb originalState (state s2))
    then set_lastUpdateTs now s2 else s2 in
  (s3, cd', toActive).

(** [expireSignal]. *)
Definition expireSignal (now : Z) (s : SignalCandidate) : bool * SignalCandidate :=
  if Qle_bool (getTimeLeft now s) 0 then (true, set_state EXPIRED s) else (false, s).

(** The first half of an iteration of the candidate loop of [update]: the
    incoming object is stamped and, when its key is in the live set, takes
    over [createdTs] and [state] of the object found there.  That object is
    itself overwritten field by field, but the map entry is then replaced
    by the incoming object, so only the incoming object stays reachable. *)
Definition carryForward (now : Z) (m : list (string * SignalCandidate))
    (candidate : SignalCandidate) : SignalCandidate :=
  let c1 := set_lastUpdateTs now candidate in
  match mapGet (id c1) m with
  | Some existing => set_state (state existing) (set_createdTs (createdTs existing) c1)
  | None => c1
  end.

(** One iteration of the loop.  The second component is the id activated
    by this iteration, if any. *)
Definition processCandidate (cfg : Config) (now : Z) (σ : Service)
    (candidate : SignalCandidate) : Service * option string :=
  let c2 := carryForward now (signals σ) candidate in
  let signals1 := mapSet (id c2) c2 (signals σ) in
  if stateEqb (state c2) PRE || stateEqb (state c2) CANDIDATE then
    let '(c3, cd', act) := promoteSignal cfg now (cooldown σ) c2 in
    ({| signals := mapSet (id c2) c3 signals1; cooldown := cd' |},
     if act then Some (id c2) else None)
  else ({| signals := signals1; cooldown := cooldown σ |}, None).

(** The object stored under the candidate's key after its iteration. *)
Definition storedAs (cfg : Config) (now : Z) (σ : Service)
    (candidate : SignalCandidate) : SignalCandidate :=
  let c2 := carryForward now (signals σ) candidate in
  if stateEqb (state c2) PRE || stateEqb (state c2) CANDIDATE
  then (promoteSignal cfg now (cooldown σ) c2).1.1 else c2.

Fixpoint processCandidates (cfg : Config) (now : Z) (σ : Service)
    (candidates : list SignalCandidate) : Service * list string :=
  match candidates with
  | [] => (σ, [])
  | c :: rest =>
      let '(σ1, ev) := processCandidate cfg now σ c in
      let '(σ2, evs) := processCandidates cfg now σ1 rest in
      (σ2, match ev with Some i => i :: evs | None => evs end)
  end.

(** The expiry sweep: collect the ids, then delete them. *)
Definition expiredIds (now : Z) (m : list (string * SignalCandidate)) : list string :=
  map fst (List.filter (λ kv, (expireSignal now kv.2).1) m).

Definition sweep (now : Z) (m : list (string * SignalCandidate))
  : list (string * SignalCandidate) :=
  foldl (λ acc k, mapDelete k acc) m (expiredIds now m).

(** The market whose limit caps a per-market group:
    [marketSignals[0]?.market || 'other']. *)
Definition groupMarket (marketSignals : list SignalCandidate) : string :=
  match marketSignals with
  | s :: _ => if String.eqb (market s) "" then "other" else market s
  | [] => "other"
  end.

(** The body of the loop over [groupedByMatch]. *)
Definition limitMatch (cfg : Config) (now : Z) (sigs : list SignalCandidate)
  : list SignalCandidate :=
  let sorted := jsSort (before now) sigs in
  let perMarketGroup := groupBy (λ s, getMarketType (market s)) sorted in
  flat_map (λ g, take (getPerMatchLimit cfg (groupMarket g.2)) g.2) perMarketGroup.

Record ActiveSignalSummary := {
  sum_id : string;
  sum_matchId : string;
  sum_market : string;
  sum_selection : string;
  sum_confidence : Q;
  sum_minute : Z;
  ttlLeft : Z;
  sum_state : SignalState;
  sum_reasoning : string
}.

(** [Math.round]. *)
Definition mathRound (x : Q) : Z := Qfloor (x + (1 # 2))%Q.

Definition toSummary (now : Z) (s : SignalCandidate) : ActiveSignalSummary :=
  {| sum_id := id s; sum_matchId := matchId s; sum_market := market s;
     sum_selection := selection s; sum_confidence := confidence s;
     sum_minute := minute s; ttlLeft := mathRound (getTimeLeft now s);
     sum_state := state s; sum_reasoning := reasoning s |}.

(** The selection that [update] computes after the sweep. *)
Definition updateSelection (cfg : Config) (now : Z)
    (m : list (string * SignalCandidate)) : list SignalCandidate :=
  let activeSignals := List.filter (λ s, stateEqb (state s) ACTIVE) (map snd m) in
  let groupedByMatch := groupBy matchId activeSignals in
  let limitedSignals := flat_map (λ g, limitMatch cfg now g.2) groupedByMatch in
  take (maxActive cfg) (jsSort (before now) limitedSignals).

(** [update(candidates)]: the summaries returned and the service afterwards. *)
Definition update (cfg : Config) (now : Z) (candidates : list SignalCandidate)
    (σ : Service) : list ActiveSignalSummary * Service :=
  let σ1 := (processCandidates cfg now σ candidates).1 in
  let live := sweep now (signals σ1) in
  (map (toSummary now) (updateSelection cfg now live),
   {| signals := live; cooldown := cooldown σ1 |}).

(** The ids that [update] promotes to ACTIVE. *)
Definition activations (cfg : Config) (now : Z) (candidates : list SignalCandidate)
    (σ : Service) : list string :=
  (processCandidates cfg now σ candidates).2.

Record UISignal := {
  ui_id : string;
  ui_match_id : string;
  ui_market : string;
  ui_confidence : Q;
  ui_minute : Z;
  ttl_left : Z;
  ui_state : SignalState
}.

Definition toUISignal (now : Z) (s : SignalCandidate) : UISignal :=
  {| ui_id := id s; ui_match_id := matchId s;
     ui_market := if String.eqb (market s) "" then "unknown" else market s;
     ui_confidence := confidence s; ui_minute := minute s;
     ttl_left := Z.max 0 (mathRound (getTimeLeft now s));
     ui_state := state s |}.






(** A run of the service: successive [update] calls, each with its clock
    reading; the result lists every promotion to ACTIVE with its time. *)
Fixpoint runUpdates (cfg : Config) (σ : Service)
    (calls : list (Z * list SignalCandidate)) : list (string * Z) * Service :=
  match calls with
  | [] => ([], σ)
  | (now, cs) :: rest =>
      let evs := map (λ i, (i, now)) (activations cfg now cs σ) in
      let '(evs', σ') := runUpdates cfg (update cfg now cs σ).2 rest in
      (evs ++ evs', σ')
  end.

(** The state of identity [i] observed after each call of a run. *)
Fixpoint observed (cfg : Config) (i : string) (σ : Service)
    (calls : list (Z * list SignalCandidate)) : list (option SignalState) :=
  match calls with
  | [] => []
  | (now, cs) :: rest =>
      let σ' := (update cfg now cs σ).2 in
      (state <$> mapGet i (signals σ')) :: observed cfg i σ' rest
  end.

(** Between two successive observations of an identity that is live at
    both, the lifecycle position does not go back. *)
Fixpoint forwardOnly (prev : option SignalState) (obs : list (option SignalState))
  : Prop :=
  match obs with
  | [] => True
  | o :: rest =>
      match prev, o with
      | Some a, Some b => (rank a ≤ rank b)%nat
      | _, _ => True
      end ∧ forwardOnly o rest
  end.








(** Two promotions of one identity are at least [gap] milliseconds apart. *)
Definition spacedBy (gap : Z) (e1 e2 : string * Z) : Prop :=
  e1.1 = e2.1 → gap ≤ e2.2 - e1.2.

(** Every past promotion is covered by a cooldown entry that is not older. *)
Definition covered (past : list (string * Z)) (cd : gmap string Z) : Prop :=
  ∀ i t, (i, t) ∈ past → ∃ ts, cd !! i = Some ts ∧ t ≤ ts.

(** The states observed for one identity over a run, the calls at which it
    is not live left out, and the lifecycle order on such a sequence. *)
Definition statesSeen (obs : list (option SignalState)) : list SignalState :=
  omap (λ o, o) obs.

Definition inLifecycleOrder (l : list SignalState) : Prop :=
  StronglySorted (λ a b, (rank a ≤ rank b)%nat) l.




(** The time to live of [s] has not run out at the clock reading [now]. *)
Definition unexpiredAt (now : Z) (s : SignalCandidate) : Prop :=
  now - createdTs s < ttlSeconds s * 1000.

End Signals.

(** * Concrete inputs used in the examples *)

Module Scenarios.

(** ** RL agent *)

Import RLAgent.
Local Open Scope Q_scope.

(** A toy instance: the state is its own key and feature extraction always
    succeeds with the state ["s"]. *)
Definition toyFeatures : Analysis → unit → option unit → list Q → option string :=
  λ _ _ _ _, Some "s"%string.

Definition toyAgent : @Agent string :=
  {| qTable := ∅; targetQTable := ∅; pendingStateActions := ∅;
     convergenceHistory := []; performanceHistory := []; epsilon := 3 # 10 |}.

Definition toyAnalysis : Analysis :=
  {| confidence := 90; reasoning := "r"; market := Some "btts"%string |}.

Definition toyDraws (explore : Q) : Draws :=
  {| exploreDraw := explore; actionDraw := 1 # 2; signalId := "signal_1" |}.


(** An agent whose row for the state ["s"] has been trained. *)
Definition trainedAgent : @Agent string :=
  {| qTable := {[ "s"%string := [0; 1 # 2; 0; 0; 0] ]}; targetQTable := ∅;
     pendingStateActions := ∅; convergenceHistory := [];
     performanceHistory := []; epsilon := 3 # 10 |}.


(** ** Signal lifecycle *)

Import Signals.
Local Open Scope Z_scope.

Definition signalOf (i m mk : string) (conf : Q) (created ttl : Z)
    (st : SignalState) : SignalCandidate :=
  {| id := i; matchId := m; market := mk; selection := "over";
     homeTeam := "A"; awayTeam := "B"; league := "L";
     confidence := conf; minute := 10; liquidityOk := true; ttlSeconds := ttl;
     state := st; reasoning := "r"; createdTs := created;
     lastUpdateTs := created; meta := [] |}.

(** The candidate the engine builds for M1 / over_2.5 at time [t], with a
    TTL of 100 s. *)
Definition ou (t : Z) : SignalCandidate :=
  signalOf "M1:over_2.5" "M1" "over_2.5" 80 t 100 PRE.

(** Ticks of one identity: promoted at 1060 s, expired and re-submitted,
    held back by the 300 s cooldown, promoted again at 1400 s. *)
Definition ouTicks : list (Z * list SignalCandidate) :=
  [(1000000, [ou 1000000]); (1060000, [ou 1060000]); (1100000, []);
   (1120000, [ou 1120000]); (1180000, [ou 1180000]); (1230000, [ou 1230000]);
   (1290000, [ou 1290000]); (1340000, [ou 1340000]); (1400000, [ou 1400000])].

(** The service after the first tick, and the signal it then holds. *)
Definition afterFirstTick : Service :=
  (update defaultConfig 1000000 [ou 1000000] emptyService).2.

Definition heldAfterFirstTick : SignalCandidate :=
  default (ou 0) (mapGet "M1:over_2.5" (signals afterFirstTick)).

(** The service after the second tick, one minute later, and what it holds. *)
Definition afterSecondTick : Service :=
  (update defaultConfig 1060000 [ou 1060000] afterFirstTick).2.


(** Five ACTIVE over/under signals of one match, one BTTS signal of the
    same match and one signal of another match. *)
Definition sevenActive : list SignalCandidate :=
  [signalOf "a" "M1" "over_2.5" 80 1000 900 ACTIVE;
   signalOf "b" "M1" "over_1.5" 90 1000 900 ACTIVE;
   signalOf "c" "M1" "under_3.5" 85 1000 900 ACTIVE;
   signalOf "d" "M1" "over_0.5" 90 2000 900 ACTIVE;
   signalOf "e" "M1" "under_4.5" 70 1000 900 ACTIVE;
   signalOf "f" "M1" "btts_yes" 60 1000 900 ACTIVE;
     signalOf "g" "M2" "over_2.5" 99 1000 900 ACTIVE].




End Scenarios.

(** * Team names of the provider adapter *)

Module Teams.

(** A participant entry.  A string field that is absent, [null] or empty is
    the empty string: the source only tests such a field for truthiness or
    compares it with a non-empty literal. *)
Record Participant := {
  p_name : string;
  p_short_code : string;
  p_meta_location : string;
  p_location : string;
  p_side : string
}.

(** What [extractTeams] reads: [parts] is
    [participants.data ?? participants ?? teams.data ?? teams] when that
    value is an array, the two names are [localteam.data.name] and
    [visitorteam.data.name]. *)
Record TeamsPayload := {
  parts : option (list Participant);
  localteam_name : string;
  visitorteam_name : string
}.

Definition locationOf (p : Participant) : string :=
  orElse (p_meta_location p) (orElse (p_location p) (p_side p)).

Definition marked (loc : string) (p : Participant) : bool :=
  String.eqb (locationOf p) loc.

Definition nameOf (p : Participant) (legacy : string) : string :=
  orElse (p_name p) (orElse (p_short_code p) legacy).

Definition extractTeams (m : TeamsPayload) : string * string :=
  match parts m with
  | Some ((p0 :: p1 :: _) as ps) =>
      let homeP := default p0 (List.find (marked "home") ps) in
      let awayP := default p1 (List.find (marked "away") ps) in
      let home := nameOf homeP (localteam_name m) in
      let away := nameOf awayP (visitorteam_name m) in
      (orElse home "Unknown", orElse away "Unknown")
  | _ =>
      (orElse (localteam_name m) "Unknown", orElse (visitorteam_name m) "Unknown")
  end.

(** A payload whose participants come away side first. *)
Definition homeSide : Participant :=
  {| p_name := "Home FC"; p_short_code := "HFC"; p_meta_location := "home";
     p_location := ""; p_side := "" |}.

Definition awaySide : Participant :=
  {| p_name := ""; p_short_code := "AFC"; p_meta_location := "";
     p_location := "away"; p_side := "" |}.

Definition awayFirst : TeamsPayload :=
  {| parts := Some [awaySide; homeSide]; localteam_name := "";
     visitorteam_name := "" |}.

End Teams.

(** * Polling histories of the adapter, match by match *)

Module Polls.
Import Adapter.

(** What the three caches hold about one match. *)
Definition viewOf (m : string) (σ : State)
  : option Entry * option Entry * option RawChange :=
  (lastMinuteCache σ !! m, lastNormalizedMinute σ !! m, lastRawMinuteChange σ !! m).

(** The polls of one match, and the minutes returned for it. *)
Definition pollsOf (m : string) (polls : list (Z * RawMatch)) : list (Z * RawMatch) :=
  filter (λ p, raw_id p.2 = m) polls.

Definition minutesOf (m : string) (outs : list Normalized) : list Z :=
  minute_out <$> filter (λ o, match_id o = m) outs.

(** The entry [o'] of a match continues its earlier entry [o]: an entry
    that was there is still there, its minute has not gone down, and its
    time stamp has moved only if the minute went up. *)
Definition continues (o o' : option Entry) : Prop :=
  match o, o' with
  | None, _ => True
  | Some _, None => False
  | Some e, Some e' => minute e ≤ minute e' ∧ (minute e' = minute e → e' = e)
  end.

End Polls.

(** * Minute extraction and match processing of the SportMonks client *)

Module ClientMinute.
Import Client.

(** The value of [rawData.starting_at || rawData.time.starting_at.timestamp]:
    a number (epoch seconds), a string (with the epoch milliseconds that
    [new Date(base).getTime()] yields, [None] for [NaN]), or neither. *)
Inductive StartingAt :=
  | startNumber (ts : Z)
  | startString (ms : option Z)
  | startOther.

(** A value that the source compares with [> 0] without testing its type
    first: a number, or a value of another type together with the outcome
    of JavaScript's comparison [value > 0] on it ([true] for the string
    ["45"], [false] for [null], for ["abc"] and for [""]). *)
Inductive Loose :=
  | looseNumber (v : Z)
  | looseOther (greaterThanZero : bool).

Definition looseGt0 (x : Loose) : bool :=
  match x with
  | looseNumber v => v >? 0
  | looseOther greaterThanZero => greaterThanZero
  end.

(** [typeof x === 'number'] on such a value, and on [null]. *)
Definition numberOf (o : option Loose) : option Z :=
  match o with
  | Some (looseNumber v) => Some v
  | Some (looseOther _) => None
  | None => None
  end.

(** The part of a payload that [extractMinuteStrong] reads.  A minute field
    of type [option Z] is [Some v] exactly when it holds a number (the
    source tests [typeof] on it); [periods0_minute] is read without such a
    test and is [None] when [periods] is no array or the field is
    [undefined]. *)
Record RawData := {
  time_minute : option Z;             (* rawData.time.minute *)
  time_minutes : option Z;            (* rawData.time.minutes *)
  time_current_minute : option Z;     (* rawData.time.current.minute *)
  live_minute : option Z;             (* rawData.live.minute *)
  periods0_minute : option Loose;     (* (periods.data || periods)[0]?.minute *)
  events : list (option Z);           (* minute of each entry of events.data || events *)
  startingAt : StartingAt
}.

Record Config := {
  USE_STARTING_AT_FALLBACK : bool;
  USE_PERIODS_EVENTS_FALLBACK : bool;
  USE_FIXTURE_FALLBACK : bool;
  LAST_MINUTE_CACHE_SEC : Z;
  STALE_MINUTE_THRESHOLD_SEC : Z
}.

Definition defaultConfig : Config :=
  {| USE_STARTING_AT_FALLBACK := true; USE_PERIODS_EVENTS_FALLBACK := true;
     USE_FIXTURE_FALLBACK := true; LAST_MINUTE_CACHE_SEC := 90;
     STALE_MINUTE_THRESHOLD_SEC := 120 |}.

(** [fallbackMinuteFromStart]. *)
Definition fallbackMinuteFromStart (now : Z) (rawData : RawData) : Z :=
  match startingAt rawData with
  | startNumber ts =>
      if ts >? 0 then
        let nowSec := now / 1000 in
        let elapsed := Z.max 0 ((nowSec - ts) / 60) in
        Z.min elapsed 130
      else 0
  | startString (Some ms) =>
      let elapsed := Z.max 0 ((now - ms) / 60000) in
      Z.min elapsed 130
  | startString None => 0
  | startOther => 0
  end.

(** The [reduce] over [events.slice(0, 10)]. *)
Definition maxEventMinute (evs : list (option Z)) : Z :=
  foldl (λ mx ev, match ev with
                  | Some mn => if mn >? mx then mn else mx
                  | None => mx
                  end) 0 (take 10 evs).

(** [minuteFromPeriodsOrEvents]; [None] is the [null] result.  The test
    [periods[0]?.minute > 0] has no [typeof] guard, so a period minute of
    another type that compares above 0 is returned as it is and the events
    are not read. *)
Definition minuteFromPeriodsOrEvents (rawData : RawData) : option Loose :=
  let fromEvents :=
    let maxMinute := maxEventMinute (events rawData) in
    if maxMinute >? 0 then Some (looseNumber maxMinute) else None in
  match periods0_minute rawData with
  | Some x => if looseGt0 x then Some x else fromEvents
  | None => fromEvents
  end.

(** One [typeof x === 'number' && x > 0] test of layer 1. *)
Definition positiveNumber (o : option Z) : option Z :=
  match o with
  | Some v => if v >? 0 then Some v else None
  | None => None
  end.

(** [extractMinuteStrong]. *)
Definition extractMinuteStrong (cfg : Config) (now : Z) (rawData : RawData) : Z :=
  match positiveNumber (time_minute rawData) with
  | Some v => v
  | None =>
  match positiveNumber (time_minutes rawData) with
  | Some v => v
  | None =>
  match positiveNumber (time_current_minute rawData) with
  | Some v => v
  | None =>
  match positiveNumber (live_minute rawData) with
  | Some v => v
  | None =>
  match (if USE_PERIODS_EVENTS_FALLBACK cfg
         then positiveNumber (numberOf (minuteFromPeriodsOrEvents rawData))
         else None) with
  | Some v => v
  | None =>
      if USE_STARTING_AT_FALLBACK cfg then
        let startMinute := fallbackMinuteFromStart now rawData in
        if startMinute >? 0 then startMinute else 0
      else 0
  end end end end end.

(** [isStaleMinute]: [ageSeconds > STALE_MINUTE_THRESHOLD_SEC] on integer
    milliseconds. *)
Definition isStaleMinute (cfg : Config) (now : Z) (matchId : string) (σ : State)
  : bool :=
  match lastChangeCache σ !! matchId with
  | None => false
  | Some lastChange => now - timestamp lastChange >? 1000 * STALE_MINUTE_THRESHOLD_SEC cfg
  end.

(** [fetchFixtureFallback]: [fixture] is what the request returns ([None]
    when it fails or carries no data), read at the later clock [now2]. *)
Definition fetchFixtureFallback (cfg : Config) (now2 : Z) (fixture : option RawData)
  : Z :=
  if USE_FIXTURE_FALLBACK cfg then
    match fixture with
    | Some f =>
        let extractedMinute := extractMinuteStrong cfg now2 f in
        if extractedMinute >? 0 then extractedMinute else 0
    | None => 0
    end
  else 0.

(** The minute logic of [processMatchData]: the final minute and the caches
    after the call. *)
Definition processMatchData (cfg : Config) (now now2 : Z) (matchId : string)
    (rawData : RawData) (fixture : option RawData) (σ : State) : Z * State :=
  let rawMinute := extractMinuteStrong cfg now rawData in
  let '(cacheResult, σ1) :=
    applyLastMinuteCache (LAST_MINUTE_CACHE_SEC cfg) now matchId rawMinute σ in
  let finalMinute := cr_minute cacheResult in
  let isStale := isStaleMinute cfg now matchId σ1 in
  if ((finalMinute =? 0) || isStale) && USE_FIXTURE_FALLBACK cfg then
    let fallbackMinute := fetchFixtureFallback cfg now2 fixture in
    if fallbackMinute >? 0
    then (fallbackMinute,
          (applyLastMinuteCache (LAST_MINUTE_CACHE_SEC cfg) now2 matchId
             fallbackMinute σ1).2)
    else (finalMinute, σ1)
  else (finalMinute, σ1).

(** Every cached minute is positive. *)
Definition positiveCache (σ : State) : Prop :=
  ∀ m e, lastMinuteCache σ !! m = Some e → 0 < minute e.

(** A payload that carries only [time.minute]. *)
Definition feed (mn : Z) : RawData :=
  {| time_minute := Some mn; time_minutes := None; time_current_minute := None;
     live_minute := None; periods0_minute := None; events := [];
     startingAt := startOther |}.

(** A payload whose [time.minute] is 0 and that carries events. *)
Definition eventsOnly (evs : list (option Z)) : RawData :=
  {| time_minute := Some 0; time_minutes := None; time_current_minute := None;
     live_minute := None; periods0_minute := None; events := evs;
     startingAt := startOther |}.

(** The same payload with the period minute given as the string ["45"]. *)
Definition stringPeriod (evs : list (option Z)) : RawData :=
  {| time_minute := Some 0; time_minutes := None; time_current_minute := None;
     live_minute := None; periods0_minute := Some (looseOther true);
     events := evs; startingAt := startOther |}.

End ClientMinute.

(** * The learning rules of the RL agent *)

Module Learning.
Import RLAgent.
Local Open Scope Q_scope.

(** The part of [RLAgentConfig] that the update rules read ([epsilon]
    itself lives in the agent). *)
Record Config := {
  learningRate : Q;
  epsilonDecay : Q;
  minEpsilon : Q;
  discountFactor : Q;
  bufferSize : Z;
  targetUpdateFrequency : Z;
  doubleQLearning : bool
}.

Definition defaultConfig : Config :=
  {| learningRate := 1 # 1000; epsilonDecay := 9995 # 10000;
     minEpsilon := 5 # 100; discountFactor := 95 # 100; bufferSize := 50000;
     targetUpdateFrequency := 1000; doubleQLearning := true |}.

(** [qValues[action] = currentQ + learningRate * (targetQ - currentQ)] on
    the row.  When [action] is not an index of the row the source reads
    [undefined] and stores [NaN], which is no rational: [None]. *)
Definition writeQ (lr targetQ : Q) (action : Z) (qValues : list Q)
  : option (list Q) :=
  if (action <? 0)%Z then None
  else
    match qValues !! Z.to_nat action with
    | Some currentQ =>
        Some (<[Z.to_nat action := currentQ + lr * (targetQ - currentQ)]> qValues)
    | None => None
    end.

(** [a % b === 0] on integers ([a % 0] is [NaN]). *)
Definition divides (b a : Z) : bool := negb (b =? 0)%Z && (Z.rem a b =? 0)%Z.

(** [array.push(x); if (array.length > cap) array.shift()]. *)
Definition pushCapped {A} (cap : Z) (x : A) (l : list A) : list A :=
  let l1 := l ++ [x] in
  if (cap <? Z.of_nat (length l1))%Z then drop 1 l1 else l1.

(** [array.slice(-n)]. *)
Definition sliceLast {A} (n : nat) (l : list A) : list A :=
  drop (length l - n) l.

(** [calculatePriority]; [if (originalConfidence)] fails on an absent value
    and on 0. *)
Definition calculatePriority (reward : Q) (originalConfidence : option Q) : Q :=
  match originalConfidence with
  | Some oc =>
      if Qeq_bool oc 0 then Qabs reward
      else
        let expectedReward := (oc / 100) * 2 - 1 in
        let tdError := Qabs (reward - expectedReward) in
        tdError + (1 # 10)
  | None => Qabs reward
  end.

(** [updatePerformanceMetrics]: the history keeps the last 1000 rewards. *)
Definition updatePerformanceMetrics (reward : Q) (hist : list Q) : list Q :=
  pushCapped 1000 reward hist.

(** [getRecentPerformance]. *)
Definition getRecentPerformance (hist : list Q) : Q :=
  if (length hist <? 10)%nat then 1 # 2
  else
    let recent := sliceLast 20 hist in
    let positiveRewards := length (List.filter (Qltb 0) recent) in
    inject_Z (Z.of_nat positiveRewards) / inject_Z (Z.of_nat (length recent)).

(** [updateEpsilon]: the new value of [config.epsilon]. *)
Definition updateEpsilon (cfg : Config) (eps : Q) (hist : list Q) : Q :=
  let recentPerformance := getRecentPerformance hist in
  if Qltb (6 # 10) recentPerformance then
    Qmax (minEpsilon cfg) (eps * (999 # 1000))
  else if Qltb recentPerformance (4 # 10) then
    Qmin (3 # 10) (eps * (101 # 100))
  else
    Qmax (minEpsilon cfg) (eps * epsilonDecay cfg).

Section Agent.

Context {Features : Type}.
Variable stateToKey : Features → string.

(** [updateStandardQLearning]: the row returned by [getQValues] is the one
    stored in the table, so the write lands in the table. *)
Definition updateStandardQLearning (cfg : Config) (state : Features)
    (action : Z) (reward : Q) (tbl : gmap string (list Q))
  : option (gmap string (list Q)) :=
  let '(qValues, tbl1) := getQValues stateToKey state tbl in
  let targetQ := reward in
  match writeQ (learningRate cfg) targetQ action qValues with
  | Some row => Some (<[stateToKey state := row]> tbl1)
  | None => None
  end.

(** [getTargetQValues]: the same lazy read on [targetQTable]. *)
Definition getTargetQValues (state : Features) (tgt : gmap string (list Q))
  : list Q * gmap string (list Q) :=
  let key := stateToKey state in
  match tgt !! key with
  | Some row => (row, tgt)
  | None => (replicate actionCount 0, <[key := replicate actionCount 0]> tgt)
  end.

(** [updateTargetNetwork]: [JSON.parse(JSON.stringify(qTable))], a copy. *)
Definition updateTargetNetwork (tbl : gmap string (list Q)) : gmap string (list Q) :=
  tbl.

(** [updateDoubleQLearning]: the main and the target table after the call. *)
Definition updateDoubleQLearning (cfg : Config) (updateCounter : Z)
    (state : Features) (action : Z) (reward : Q)
    (tbl tgt : gmap string (list Q))
  : option (gmap string (list Q) * gmap string (list Q)) :=
  let '(qValues, tbl1) := getQValues stateToKey state tbl in
  let '(targetQValues, tgt1) := getTargetQValues state tgt in
  let nextQValue := 0 in
  let targetQ := reward + discountFactor cfg * nextQValue in
  match writeQ (learningRate cfg) targetQ action qValues with
  | Some row =>
      let tbl2 := <[stateToKey state := row]> tbl1 in
      Some (tbl2,
            if divides (targetUpdateFrequency cfg) updateCounter
            then updateTargetNetwork tbl2 else tgt1)
  | None => None
  end.

(** An [Experience] as [updateFromResult] builds it ([nextState] is empty
    and [done] is true there). *)
Record Experience := {
  e_state : Features;
  e_action : Z;
  e_reward : Q;
  e_priority : Q;
  e_matchId : option string;
  e_profit : Q
}.

(** [addExperience]. *)
Definition addExperience (cfg : Config) (experience : Experience)
    (buf : list Experience) : list Experience :=
  pushCapped (bufferSize cfg) experience buf.

End Agent.

(** A terminal experience of the toy agent, told apart by its reward. *)
Definition sample (reward : Q) : @Experience string :=
  {| e_state := "s"%string; e_action := 4%Z; e_reward := reward;
     e_priority := 1 # 10; e_matchId := None; e_profit := 0 |}.

End Learning.

(** * Experience replay of the RL agent *)

Module Replay.
Import RLAgent Learning.
Local Open Scope Q_scope.

Section Agent.

Context {Features : Type}.
Variable stateToKey : Features → string.

(** An [Experience] of the buffer in full.  [nextState] is an array in the
    source and only its being empty is tested before it is used as a
    state: [None] is the empty array.  [r_priority] is optional. *)
Record Experience := {
  r_state : Features;
  r_action : Z;
  r_reward : Q;
  r_nextState : option Features;
  r_done : bool;
  r_priority : option Q
}.

Definition set_priority (p : option Q) (e : Experience) : Experience :=
  {| r_state := r_state e; r_action := r_action e; r_reward := r_reward e;
     r_nextState := r_nextState e; r_done := r_done e; r_priority := p |}.

(** The body of the loop over the batch, for one experience: the table and
    the experience afterwards.  [None] when a value that is no rational is
    stored ([NaN] for an [action] that is no index of the row, [-Infinity]
    for the maximum of an empty row). *)
Definition replayOne (cfg : Config) (prioritizedReplay : bool)
    (tbl : gmap string (list Q)) (experience : Experience)
  : option (gmap string (list Q) * Experience) :=
  let '(qValues, tbl1) := getQValues stateToKey (r_state experience) tbl in
  let bootstrapped :=
    match r_nextState experience with
    | Some nextState =>
        if negb (r_done experience) then
          let '(nextQValues, tbl2) := getQValues stateToKey nextState tbl1 in
          match mathMax nextQValues with
          | Some m => Some (r_reward experience + discountFactor cfg * m, tbl2)
          | None => None
          end
        else Some (r_reward experience, tbl1)
    | None => Some (r_reward experience, tbl1)
    end in
  match bootstrapped with
  | Some (targetQ, tbl2) =>
      if (r_action experience <? 0)%Z then None
      else
        match qValues !! Z.to_nat (r_action experience) with
        | Some currentQ =>
            let tdError := Qabs (targetQ - currentQ) in
            match writeQ (learningRate cfg) targetQ (r_action experience) qValues with
            | Some row =>
                Some (<[stateToKey (r_state experience) := row]> tbl2,
                      if prioritizedReplay then
                        match r_priority experience with
                        | Some _ => set_priority (Some (tdError + (1 # 100))) experience
                        | None => experience
                        end
                      else experience)
            | None => None
            end
        | None => None
        end
  | None => None
  end.

(** One turn of the loop: the experience at position [i] of the buffer is
    replayed and, being the buffer's own object, is updated in place.  The
    samplers return experiences of the buffer only; a position outside the
    buffer stands for no experience. *)
Definition replayStep (cfg : Config) (prioritizedReplay : bool)
    (acc : option (gmap string (list Q) * list Experience)) (i : nat)
  : option (gmap string (list Q) * list Experience) :=
  match acc with
  | Some (tbl, buf) =>
      match buf !! i with
      | Some experience =>
          match replayOne cfg prioritizedReplay tbl experience with
          | Some (tbl', experience') => Some (tbl', <[i := experience']> buf)
          | None => None
          end
      | None => Some (tbl, buf)
      end
  | None => None
  end.

(** [replayExperience(batchSize = 64)].  The batch is what
    [samplePrioritizedBatch] or [sampleRandomBatch] returned, from
    [Math.random] draws, given as the buffer positions of its experiences
    in order. *)
Definition replayExperience (cfg : Config) (prioritizedReplay : bool)
    (batchSize : Z) (batch : list nat)
    (tbl : gmap string (list Q)) (buf : list Experience)
  : option (gmap string (list Q) * list Experience) :=
  if (Z.of_nat (length buf) <? batchSize)%Z then Some (tbl, buf)
  else foldl (replayStep cfg prioritizedReplay) (Some (tbl, buf)) batch.

End Agent.

(** The experience that [updateFromResult] stores for an evaluation of the
    toy state at action 1 that was won: terminal, with its reward. *)
Definition wonOnce : @Experience string :=
  {| r_state := "s"%string; r_action := 1%Z; r_reward := 1;
     r_nextState := None; r_done := true; r_priority := Some (1 # 10) |}.

(** A buffer of 64 such experiences, as after 64 calls of
    [updateFromResult]. *)
Definition fullBuffer : list (@Experience string) := replicate 64 wonOnce.

(** An experience that differs from [wonOnce] in its priority at most. *)
Definition wonLike (e : @Experience string) : Prop :=
  r_state e = "s"%string ∧ r_action e = 1%Z ∧
  r_reward e = 1 ∧ r_nextState e = None.

End Replay.

(** * The broadcast guard of the core engine *)

Module Engine.
Import Signals.

(** The force-broadcast loop of [CoreEngine.mainLoop]: for every candidate,
    [prevMinute = lastBroadcastMinute.get(matchId) || 0], and a larger
    candidate minute is recorded and forces a broadcast. *)
Definition broadcastStep (acc : gmap string Z * bool) (candidate : SignalCandidate)
  : gmap string Z * bool :=
  let '(lastBroadcastMinute, shouldForceBroadcast) := acc in
  let prevMinute := default 0 (lastBroadcastMinute !! matchId candidate) in
  if minute candidate >? prevMinute
  then (<[matchId candidate := minute candidate]> lastBroadcastMinute, true)
  else (lastBroadcastMinute, shouldForceBroadcast).

Definition broadcastCheck (lastBroadcastMinute : gmap string Z)
    (signalCandidates : list SignalCandidate) : gmap string Z * bool :=
  foldl broadcastStep (lastBroadcastMinute, false) signalCandidates.

(** The minute last broadcast for a match, 0 when none is recorded. *)
Definition broadcastMinute (m : string) (lastBroadcastMinute : gmap string Z) : Z :=
  default 0 (lastBroadcastMinute !! m).

End Engine.

(** * Odds selection and value bets *)

Module Odds.
Import RLAgent.
Local Open Scope Q_scope.

(** One entry of the odds array.  A string field that is absent is the
    empty string; [parsed] is [parseFloat(item.value || item.price ||
    item.odd)], [None] for [NaN]. *)
Record OddsItem := {
  item_market : string;
  item_label : string;
  item_bookmaker_name : string;       (* item.bookmaker?.name *)
  item_bookmaker_name_flat : string;  (* item.bookmaker_name *)
  parsed : option Q
}.

Record BestOdds := { bookmaker : string; odds : Q }.

(** The guards of one loop iteration: the bookmaker and the odds of an
    item that reaches the comparison with [bestOdds], [None] for an item
    that is skipped by a [continue]. *)
Definition considered (marketKey : string) (bookmakerWhitelist : list string)
    (item : OddsItem) : option (string * Q) :=
  let market := toLowerCase (orElse (item_market item) (orElse (item_label item) "")) in
  if negb (strIncludes market (toLowerCase marketKey)) then None
  else
    let bookmaker :=
      orElse (item_bookmaker_name item)
             (orElse (item_bookmaker_name_flat item) "Unknown") in
    if negb (Nat.eqb (length bookmakerWhitelist) 0)
       && negb (includes bookmakerWhitelist bookmaker)
    then None
    else
      match parsed item with
      | None => None
      | Some odds => if Qle_bool odds 0 then None else Some (bookmaker, odds)
      end.

(** The loop body: the pair [(bestBookmaker, bestOdds)]. *)
Definition bestStep (marketKey : string) (bookmakerWhitelist : list string)
    (acc : option string * Q) (item : OddsItem) : option string * Q :=
  match considered marketKey bookmakerWhitelist item with
  | Some (bookmaker, odds) => if Qltb acc.2 odds then (Some bookmaker, odds) else acc
  | None => acc
  end.

(** [selectBestOdds]: [oddsData] is [oddsPayload.data || oddsPayload] when
    the payload is an object and that value is an array, [None] otherwise. *)
Definition selectBestOdds (oddsData : option (list OddsItem)) (marketKey : string)
    (bookmakerWhitelist : list string) : option BestOdds :=
  match oddsData with
  | None => None
  | Some items =>
      let '(bestBookmaker, bestOdds) :=
        foldl (bestStep marketKey bookmakerWhitelist) (None, 0) items in
      match bestBookmaker with
      | Some b =>
          if negb (String.eqb b "") && Qltb 0 bestOdds
          then Some {| bookmaker := b; odds := bestOdds |}
          else None
      | None => None
      end
  end.

(** [impliedProbabilityFromOdds]. *)
Definition impliedProbabilityFromOdds (odds : Q) : Q :=
  if Qle_bool odds 0 then 0 else 1 / odds.

Record ValueBet := { isValueBet : bool; valueScore : Q; impliedProbability : Q }.

(** [calculateValueBet]. *)
Definition calculateValueBet (modelProbability odds valueMargin : Q) : ValueBet :=
  let impliedProb := impliedProbabilityFromOdds odds in
  {| isValueBet := Qltb (impliedProb * (1 + valueMargin)) modelProbability;
     valueScore := modelProbability - impliedProb;
     impliedProbability := impliedProb |}.

(** The part of [OddsConfig] read by the minimum-odds filter. *)
Record OddsConfig := {
  minOddsDefault : Q;
  minOddsPerMarket : gmap string Q
}.

(** [getMinOddsForMarket]: a missing and a zero entry fall back to the
    default. *)
Definition getMinOddsForMarket (config : OddsConfig) (marketKey : string) : Q :=
  match minOddsPerMarket config !! marketKey with
  | Some v => if Qeq_bool v 0 then minOddsDefault config else v
  | None => minOddsDefault config
  end.

(** [meetsMinimumOdds]. *)
Definition meetsMinimumOdds (odds : option Q) (config : OddsConfig)
    (marketKey : string) : bool :=
  match odds with
  | None => false
  | Some o =>
      if Qle_bool o 0 then false
      else Qle_bool (getMinOddsForMarket config marketKey) o
  end.

(** One odds entry of a named bookmaker. *)
Definition quote (mk bk : string) (o : Q) : OddsItem :=
  {| item_market := mk; item_label := ""; item_bookmaker_name := bk;
     item_bookmaker_name_flat := ""; parsed := Some o |}.

End Odds.

(** * Properties of the adapter's minute normaliser *)

Module AdapterProps.
Import Adapter.

Ltac zbool :=
  repeat match goal with
  | H : (_ >? _) = true |- _ => apply Z.gtb_lt in H
  | H : (_ >? _) = false |- _ => rewrite Z.gtb_ltb in H; apply Z.ltb_ge in H
  | H : (_ <? _) = true |- _ => apply Z.ltb_lt in H
  | H : (_ <? _) = false |- _ => apply Z.ltb_ge in H
  | H : (_ =? _) = true |- _ => apply Z.eqb_eq in H
  | H : (_ =? _) = false |- _ => apply Z.eqb_neq in H
  end.

(** ** The cache function alone *)

Lemma applyLastMinuteCache_positive cfg now m mn cache :
  0 < mn → (applyLastMinuteCache cfg now m mn cache).1 = mn.
Proof.
  intros H. unfold applyLastMinuteCache.
  destruct (mn >? 0) eqn:E; [done | zbool; lia].
Qed.

Lemma applyLastMinuteCache_bound cfg now m mn cache :
  (applyLastMinuteCache cfg now m mn cache).1 ≤ Z.max 130 mn.
Proof.
  unfold applyLastMinuteCache.
  destruct (mn >? 0) eqn:E; simpl; [lia |].
  destruct (cache !! m) as [c|]; simpl; [| lia].
  destruct (_ <? _); simpl; lia.
Qed.

Lemma applyLastMinuteCache_other cfg now m m' mn cache :
  m ≠ m' → (applyLastMinuteCache cfg now m mn cache).2 !! m' = cache !! m'.
Proof.
  intros Hne. unfold applyLastMinuteCache.
  destruct (mn >? 0); simpl.
  - destruct (cache !! m) as [c|]; [destruct (mn >? minute c) |];
      by rewrite ?lookup_insert_ne.
  - destruct (cache !! m) as [c|]; [destruct (_ <? _) |]; done.
Qed.

(** The cache entry is written exactly on a first positive sighting or a
    strict increase, and then holds the new minute stamped with [now]. *)
Lemma applyLastMinuteCache_written cfg now m mn cache :
  (applyLastMinuteCache cfg now m mn cache).2 =
    if (mn >? 0) && match cache !! m with
                    | None => true
                    | Some c => mn >? minute c
                    end
    then <[m := {| minute := mn; timestamp := now |}]> cache
    else cache.
Proof.
  unfold applyLastMinuteCache.
  destruct (mn >? 0); simpl.
  - destruct (cache !! m) as [c|]; [destruct (mn >? minute c) |]; done.
  - destruct (cache !! m) as [c|]; [destruct (_ <? _) |]; done.
Qed.

(** ** The guard *)

Lemma guardMinute_bound now rawMin cached isStale prev :
  cached ≤ Z.max 130 rawMin →
  guardMinute now rawMin cached isStale prev ≤ Z.max 130 rawMin.
Proof.
  intros Hc. unfold guardMinute.
  destruct prev as [p|].
  - destruct (((rawMin =? 0) || isStale) && (minute p >? 0)).
    + lia.
    + destruct (cached >? 0); lia.
  - destruct (cached >? 0); lia.
Qed.

Lemma normalizeSmMatch_minute cfg now raw σ :
  minute_out (normalizeSmMatch cfg now raw σ).1 =
    let rawMin := extractMinute cfg now raw in
    guardMinute now rawMin
      (applyLastMinuteCache cfg now (raw_id raw) rawMin (lastMinuteCache σ)).1
      (trackRawChange now (raw_id raw) rawMin (lastRawMinuteChange σ)).1
      (lastNormalizedMinute σ !! raw_id raw).
Proof.
  unfold normalizeSmMatch.
  destruct (trackRawChange _ _ _ _) as [st chg].
  destruct (applyLastMinuteCache _ _ _ _ _) as [cm cache]. done.
Qed.

Lemma normalizeSmMatch_id cfg now raw σ :
  match_id (normalizeSmMatch cfg now raw σ).1 = raw_id raw.
Proof.
  unfold normalizeSmMatch.
  destruct (trackRawChange _ _ _ _) as [st chg].
  destruct (applyLastMinuteCache _ _ _ _ _) as [cm cache]. done.
Qed.

Lemma normalizeSmMatch_norm cfg now raw σ :
  lastNormalizedMinute (normalizeSmMatch cfg now raw σ).2 =
    trackNormalized now (raw_id raw)
      (minute_out (normalizeSmMatch cfg now raw σ).1) (lastNormalizedMinute σ).
Proof.
  unfold normalizeSmMatch.
  destruct (trackRawChange _ _ _ _) as [st chg].
  destruct (applyLastMinuteCache _ _ _ _ _) as [cm cache]. done.
Qed.

Lemma normalizeSmMatch_cache cfg now raw σ :
  lastMinuteCache (normalizeSmMatch cfg now raw σ).2 =
    (applyLastMinuteCache cfg now (raw_id raw) (extractMinute cfg now raw)
       (lastMinuteCache σ)).2.
Proof.
  unfold normalizeSmMatch.
  destruct (trackRawChange _ _ _ _) as [st chg].
  destruct (applyLastMinuteCache _ _ _ _ _) as [cm cache]. done.
Qed.

Lemma startingAtMinute_bound cfg now raw v :
  startingAtMinute cfg now raw = Some v → 0 < v ≤ 130.
Proof.
  unfold startingAtMinute.
  destruct (USE_STARTING_AT_FALLBACK cfg); [| done].
  destruct (starting_at raw) as [s|]; [| done].
  destruct (_ && _); [| done].
  destruct (_ >? 0) eqn:E; [| done].
  intros [= <-]. zbool. lia.
Qed.

Lemma extractMinute_noExplicit cfg now raw :
  noExplicitMinute raw = true → 0 ≤ extractMinute cfg now raw ≤ 130.
Proof.
  unfold noExplicitMinute, extractMinute. intros H.
  destruct (time_minute raw); [done |].
  destruct (time_minutes raw); [done |].
  destruct (time_current_minute raw); [done |].
  destruct (live_minute raw); [done |].
  destruct (truthyNumber (periods_data0_minute raw)); [done |].
  destruct (truthyNumber (periods_first_minute raw)); [done |].
  destruct (firstPositive _); [done |].
  destruct (startingAtMinute cfg now raw) as [v|] eqn:E; [| lia].
  apply startingAtMinute_bound in E. lia.
Qed.

Lemma normalized_le_max cfg now raw σ :
  minute_out (normalizeSmMatch cfg now raw σ).1
    ≤ Z.max 130 (extractMinute cfg now raw).
Proof.
  rewrite normalizeSmMatch_minute. cbv zeta.
  apply guardMinute_bound, applyLastMinuteCache_bound.
Qed.

(** C8, as amended.  The cap of 130 is applied to every extrapolated value
    (cache inflation, guard projection, kick-off estimate) but not to a
    minute the feed states explicitly: the normalised minute is at most
    [max 130 raw], hence at most 130 whenever the raw extracted minute is
    at most 130, which is always so when the payload has no explicit minute
    and the raw value is the kick-off estimate or 0. *)
Theorem normalized_minute_cap cfg now raw σ :
  (extractMinute cfg now raw ≤ 130 →
     minute_out (normalizeSmMatch cfg now raw σ).1 ≤ 130) ∧
  (noExplicitMinute raw = true →
     minute_out (normalizeSmMatch cfg now raw σ).1 ≤ 130) ∧
  minute_out (normalizeSmMatch cfg now raw σ).1
    ≤ Z.max 130 (extractMinute cfg now raw).
Proof.
  pose proof (normalized_le_max cfg now raw σ) as Hmax.
  split; [| split]; [ | | exact Hmax].
  - intros H. lia.
  - intros H. apply (extractMinute_noExplicit cfg now) in H. lia.
Qed.

(** A feed minute of 90 on an empty cache; and a kick-off three hours in
    the past, status LIVE, nothing else in the payload: the estimate is
    clamped to 130. *)
Lemma normalized_minute_cap_witness :
  minute_out (normalizeSmMatch defaultConfig 1000 (feed "m1" 90) initial).1 ≤ 130 ∧
  minute_out
    (normalizeSmMatch defaultConfig 10800000
       {| raw_id := "m1"; time_minute := None; time_minutes := None;
          time_current_minute := None; live_minute := None;
          periods_data0_minute := None; periods_first_minute := None;
          events := []; status := "live"; starting_at := Some 1 |}
       initial).1 ≤ 130.
Proof.
  split.
  - apply (proj1 (normalized_minute_cap defaultConfig 1000 (feed "m1" 90) initial)).
    apply Z.leb_le. reflexivity.
  - apply (proj1 (proj2 (normalized_minute_cap defaultConfig 10800000 _ initial))).
    reflexivity.
Defined.

(** C8 as stated fails: a feed minute of 200 is returned as it is. *)
Lemma cap_exceeded_by_explicit_minute :
  ¬ (minute_out (normalizeSmMatch defaultConfig 1000 (feed "m1" 200) initial).1
       ≤ 130).
Proof. vm_compute. intros H. apply H. reflexivity. Qed.

(** ** Monotonicity under the guard *)

Lemma trackNormalized_other now m m' n norm :
  m ≠ m' → trackNormalized now m n norm !! m' = norm !! m'.
Proof.
  intros Hne. unfold trackNormalized.
  destruct (n >? 0); [| done].
  destruct (norm !! m) as [p|]; [destruct (n >? minute p) |];
    by rewrite ?lookup_insert_ne.
Qed.

Lemma anchorInv_initial m T : anchorInv m T None initial.
Proof. unfold anchorInv, initial; simpl. rewrite lookup_empty. by intros l. Qed.

(** One call preserves the anchor invariant of every match. *)
Lemma anchorInv_step cfg m T last now raw σ :
  anchorInv m T last σ →
  now ≤ T →
  (raw_id raw = m → extractMinute cfg now raw ≤ 130) →
  anchorInv m T
    (if String.eqb (raw_id raw) m
     then Some (minute_out (normalizeSmMatch cfg now raw σ).1) else last)
    (normalizeSmMatch cfg now raw σ).2.
Proof.
  intros Hinv Hnow Hraw. unfold anchorInv in *.
  rewrite normalizeSmMatch_norm.
  destruct (String.eqb (raw_id raw) m) eqn:Heq.
  - apply String.eqb_eq in Heq. subst m.
    pose proof (normalized_le_max cfg now raw σ) as Hcap.
    specialize (Hraw eq_refl).
    set (n := minute_out (normalizeSmMatch cfg now raw σ).1) in *.
    unfold trackNormalized.
    destruct (n >? 0) eqn:Hpos.
    + destruct (lastNormalizedMinute σ !! raw_id raw) as [p|] eqn:Hp.
      * destruct (n >? minute p) eqn:Hgt.
        -- rewrite lookup_insert_eq. simpl. zbool.
           repeat split; try lia. intros l [= <-]. lia.
        -- rewrite Hp. destruct Hinv as (Hr & Ht & _). zbool.
           repeat split; try lia. intros l [= <-]. lia.
      * rewrite lookup_insert_eq. simpl. zbool.
        repeat split; try lia. intros l [= <-]. lia.
    + zbool. destruct (lastNormalizedMinute σ !! raw_id raw) as [p|].
      * destruct Hinv as (Hr & Ht & _).
        repeat split; try lia. intros l [= <-]. lia.
      * intros l [= <-]. lia.
  - apply String.eqb_neq in Heq.
    by rewrite trackNormalized_other.
Qed.

Lemma lastReturned_cons m o os last :
  match lastReturned m (o :: os) with Some x => Some x | None => last end =
  match lastReturned m os with
  | Some x => Some x
  | None => if String.eqb (match_id o) m then Some (minute_out o) else last
  end.
Proof.
  simpl. destruct (lastReturned m os); [done |].
  by destruct (String.eqb (match_id o) m).
Qed.

(** Any history preserves it. *)
Lemma anchorInv_run cfg m T polls : ∀ σ last,
  anchorInv m T last σ →
  Forall (λ p, p.1 ≤ T ∧ (raw_id p.2 = m → extractMinute cfg p.1 p.2 ≤ 130)) polls →
  anchorInv m T
    (match lastReturned m (run cfg σ polls).1 with
     | Some x => Some x | None => last end)
    (run cfg σ polls).2.
Proof.
  induction polls as [| [now raw] rest IH]; intros σ last Hinv Hall; [done |].
  apply Forall_cons in Hall as [[Hnow Hraw] Hrest]. simpl in Hnow, Hraw.
  pose proof (anchorInv_step cfg m T last now raw σ Hinv Hnow Hraw) as Hstep.
  specialize (IH _ _ Hstep Hrest).
  simpl. pose proof (normalizeSmMatch_id cfg now raw σ) as Hid.
  destruct (normalizeSmMatch cfg now raw σ) as [o σ1]. simpl in *.
  destruct (run cfg σ1 rest) as [os σ2] eqn:Hrun. simpl in *.
  destruct (lastReturned m os); [done |].
  rewrite Hid. by destruct (String.eqb (raw_id raw) m).
Qed.

(** The guard never reports less than its anchor. *)
Lemma guardMinute_ge_anchor now rawMin cached stale p :
  0 < minute p ≤ 130 → timestamp p ≤ now →
  (rawMin =? 0) || stale = true →
  minute p ≤ guardMinute now rawMin cached stale (Some p).
Proof.
  intros Hp Ht Hg. unfold guardMinute. rewrite Hg.
  destruct (minute p >? 0) eqn:E; [| zbool; lia]. simpl.
  assert (0 ≤ (now - timestamp p) / 60000) by (apply Z.div_pos; lia).
  lia.
Qed.

(** C1, as amended.  After any polling history (any matches, clock readings
    not later than the current one, raw minutes of this match at most 130),
    the minute returned for a match is not below the minute returned by the
    previous call for that match whenever the guard is active on this call
    (raw minute 0, or raw minute flagged stale), or the fresh raw minute is
    itself not below the previous return.  No cache-TTL condition is
    needed. *)
Theorem minute_non_decreasing_under_guard cfg history now raw prev :
  Forall (λ p, p.1 ≤ now ∧
               (raw_id p.2 = raw_id raw → extractMinute cfg p.1 p.2 ≤ 130))
         history →
  lastReturned (raw_id raw) (run cfg initial history).1 = Some prev →
  extractMinute cfg now raw = 0
    ∨ staleAt cfg now raw (run cfg initial history).2 = true
    ∨ prev ≤ extractMinute cfg now raw →
  prev ≤ minute_out (normalizeSmMatch cfg now raw (run cfg initial history).2).1.
Proof.
  intros Hall Hlast Hcase.
  pose proof (anchorInv_run cfg (raw_id raw) now history initial None
                (anchorInv_initial _ _) Hall) as Hinv.
  rewrite Hlast in Hinv.
  set (σ := (run cfg initial history).2) in *.
  rewrite normalizeSmMatch_minute. cbv zeta.
  unfold staleAt in Hcase.
  set (r := extractMinute cfg now raw) in *.
  set (st := (trackRawChange now (raw_id raw) r (lastRawMinuteChange σ)).1) in *.
  set (cm := (applyLastMinuteCache cfg now (raw_id raw) r (lastMinuteCache σ)).1).
  unfold anchorInv in Hinv.
  assert (Hfresh : prev ≤ r → prev ≤ (if cm >? 0 then cm else r)).
  { intros Hle. destruct (cm >? 0) eqn:E; [| done].
    destruct (Z_lt_le_dec 0 r) as [Hr | Hr].
    - unfold cm. rewrite applyLastMinuteCache_positive; done.
    - zbool. lia. }
  destruct (lastNormalizedMinute σ !! raw_id raw) as [p|] eqn:Hp.
  - destruct Hinv as (Hr & Ht & Hl). specialize (Hl prev eq_refl).
    destruct ((r =? 0) || st) eqn:Hg.
    + pose proof (guardMinute_ge_anchor now r cm st p Hr Ht Hg). lia.
    + apply orb_false_elim in Hg as [Hr0 Hst].
      destruct Hcase as [H0 | [Hs | Hle]].
      * zbool. done.
      * congruence.
      * unfold guardMinute. rewrite Hr0, Hst. simpl. by apply Hfresh.
  - specialize (Hinv prev eq_refl). unfold guardMinute.
    destruct (cm >? 0) eqn:E; [zbool; lia |].
    destruct Hcase as [H0 | [Hs | Hle]]; [lia | | lia].
    (* a stale raw minute is positive *)
    unfold st, trackRawChange in Hs.
    destruct (lastRawMinuteChange σ !! raw_id raw) as [c|]; [| done].
    destruct (negb _); [done |].
    destruct (r >? 0) eqn:Hr; [zbool; lia | done].
Qed.

(** The feed shows 27, drops to 0 after 61 s (the guard extrapolates to 28),
    then shows 27 again 62 s after the first poll: the guard is active. *)
Lemma minute_non_decreasing_under_guard_witness :
  28 ≤ minute_out
         (normalizeSmMatch defaultConfig 1121000 (feed "m1" 0)
            (run defaultConfig initial
               [(1000000, feed "m1" 27); (1061000, feed "m1" 0)]).2).1.
Proof.
  apply (minute_non_decreasing_under_guard defaultConfig
           [(1000000, feed "m1" 27); (1061000, feed "m1" 0)]
           1121000 (feed "m1" 0) 28).
  - repeat (constructor;
            [split; [simpl; lia | intros _; apply Z.leb_le; reflexivity] |]).
    constructor.
  - reflexivity.
  - left. reflexivity.
Defined.

(** C1 as stated fails, in two ways, both at strictly increasing times and
    within 90 s of the last increase of the cached minute.  A feed minute
    of 200 followed by 0 returns 200, then the capped extrapolation 130.
    Raw minutes 27, 0, 27 return 27, 28, 27: the guard extrapolates while
    the feed shows 0 and the fresh 27 is then returned as it is. *)
Lemma minute_regresses :
  let capped := [(1000000, feed "m1" 200); (1001000, feed "m1" 0)] in
  let fresh := [(1000000, feed "m1" 27); (1061000, feed "m1" 0);
                (1062000, feed "m1" 27)] in
  (StronglySorted Z.lt (map fst capped) ∧
   Forall (λ a, match a with Some age => age < 1000 * 90 | None => True end)
          (cacheAges defaultConfig initial capped) ∧
   map minute_out (run defaultConfig initial capped).1 = [200; 130]) ∧
  (StronglySorted Z.lt (map fst fresh) ∧
   Forall (λ a, match a with Some age => age < 1000 * 90 | None => True end)
          (cacheAges defaultConfig initial fresh) ∧
   map minute_out (run defaultConfig initial fresh).1 = [27; 28; 27]) ∧
  ¬ (∀ polls,
       StronglySorted Z.lt (map fst polls) →
       Forall (λ p, raw_id p.2 = "m1"%string) polls →
       Forall (λ a, match a with Some age => age < 1000 * 90 | None => True end)
              (cacheAges defaultConfig initial polls) →
       StronglySorted Z.le (map minute_out (run defaultConfig initial polls).1)).
Proof.
  cbv zeta.
  assert (Hfresh :
    StronglySorted Z.lt
      (map fst [(1000000, feed "m1" 27); (1061000, feed "m1" 0);
                (1062000, feed "m1" 27)]) ∧
    Forall (λ a, match a with Some age => age < 1000 * 90 | None => True end)
      (cacheAges defaultConfig initial
         [(1000000, feed "m1" 27); (1061000, feed "m1" 0);
          (1062000, feed "m1" 27)])).
  { split; [repeat constructor | vm_compute; repeat constructor]. }
  split; [| split].
  - split; [repeat constructor |].
    split; [vm_compute; repeat constructor | reflexivity].
  - destruct Hfresh as [H1 H2]. split; [exact H1 |]. split; [exact H2 | reflexivity].
  - intros H. destruct Hfresh as [H1 H2].
    specialize (H _ H1). 
    assert (Hid : Forall (λ p : Z * RawMatch, raw_id p.2 = "m1"%string)
                    [(1000000, feed "m1" 27); (1061000, feed "m1" 0);
                     (1062000, feed "m1" 27)]) by (repeat constructor).
    specialize (H Hid H2). vm_compute in H.
    apply StronglySorted_inv in H as [H _].
    apply StronglySorted_inv in H as [_ H].
    apply Forall_inv in H. vm_compute in H. by apply H.
Qed.

(** The spec's stale-minute example: the raw minute stays at 27; polls 33 s,
    63 s and 93 s after the first return 27, 28, 28. *)
Example stuck_minute_inflates :
  map minute_out
    (run defaultConfig initial
       [(1000000, feed "m1" 27); (1033000, feed "m1" 27);
        (1063000, feed "m1" 27); (1093000, feed "m1" 27)]).1
    = [27; 27; 28; 28].
Proof. reflexivity. Qed.

(** ** C9 on the adapter: when the cache entry is rewritten *)

(** In [normalizeSmMatch] the cache entry of a match is rewritten only on a
    first positive sighting or a strict increase of the raw minute; the
    same or a lower positive minute leaves value and time stamp as they
    were, and no call touches the entry of another match. *)
Lemma adapter_cache_rewritten_only_on_increase cfg now raw σ :
  let cache' := lastMinuteCache (normalizeSmMatch cfg now raw σ).2 in
  let r := extractMinute cfg now raw in
  (∀ c, lastMinuteCache σ !! raw_id raw = Some c → r ≤ minute c →
        cache' = lastMinuteCache σ) ∧
  (cache' !! raw_id raw ≠ lastMinuteCache σ !! raw_id raw →
     0 < r ∧ cache' !! raw_id raw = Some {| minute := r; timestamp := now |} ∧
     ∀ c, lastMinuteCache σ !! raw_id raw = Some c → minute c < r) ∧
  (∀ m', raw_id raw ≠ m' → cache' !! m' = lastMinuteCache σ !! m').
Proof.
  cbv zeta. rewrite normalizeSmMatch_cache.
  split; [| split].
  - intros c Hc Hle. rewrite applyLastMinuteCache_written, Hc.
    destruct (_ >? 0); simpl; [| done].
    destruct (_ >? minute c) eqn:E; [zbool; lia | done].
  - rewrite applyLastMinuteCache_written.
    destruct (extractMinute cfg now raw >? 0) eqn:Hpos; simpl; [| done].
    destruct (lastMinuteCache σ !! raw_id raw) as [c|] eqn:Hc.
    + destruct (_ >? minute c) eqn:E; [| by rewrite Hc].
      intros _. rewrite lookup_insert_eq. zbool.
      repeat split; [done |]. by intros c' [= <-].
    + intros _. rewrite lookup_insert_eq. zbool. done.
  - intros m' Hne. by apply applyLastMinuteCache_other.
Qed.

End AdapterProps.

(** * Properties of the client's cache *)

Module ClientProps.
Import Client.

(** C9 on the client.  The raw minute stays at 27: the poll 33 s after the
    first rewrites the entry of [lastMinuteCache] with a new time stamp
    (only [lastChangeCache] keeps the time of the first sighting), where the
    adapter's cache would have been left as it was. *)
Lemma client_cache_rewritten_on_repeat :
  let σ1 := (applyLastMinuteCache 90 1000000 "m1" 27 initial).2 in
  let σ2 := (applyLastMinuteCache 90 1033000 "m1" 27 σ1).2 in
  lastMinuteCache σ1 !! "m1" = Some {| minute := 27; timestamp := 1000000 |} ∧
  lastMinuteCache σ2 !! "m1" = Some {| minute := 27; timestamp := 1033000 |} ∧
  lastChangeCache σ2 !! "m1" = Some {| minute := 27; timestamp := 1000000 |}.
Proof. vm_compute. done. Qed.

(** The same two polls through the adapter leave the entry untouched. *)
Lemma adapter_cache_kept_on_repeat :
  let σ1 := (Adapter.normalizeSmMatch Adapter.defaultConfig 1000000
               (Adapter.feed "m1" 27) Adapter.initial).2 in
  let σ2 := (Adapter.normalizeSmMatch Adapter.defaultConfig 1033000
               (Adapter.feed "m1" 27) σ1).2 in
  Adapter.lastMinuteCache σ2 !! "m1"
    = Some {| Adapter.minute := 27; Adapter.timestamp := 1000000 |}.
Proof. vm_compute. done. Qed.

(** In the client every positive minute rewrites the entry. *)
Lemma client_cache_always_rewritten sec now m mn σ :
  0 < mn →
  lastMinuteCache (applyLastMinuteCache sec now m mn σ).2 !! m
    = Some {| minute := mn; timestamp := now |}.
Proof.
  intros H. unfold applyLastMinuteCache.
  destruct (mn >? 0) eqn:E; [| rewrite Z.gtb_ltb in E; apply Z.ltb_ge in E; lia].
  simpl. by rewrite lookup_insert_eq.
Qed.

End ClientProps.

(** * Properties of the RL agent *)

Module RLAgentProps.
Import RLAgent.

Local Open Scope Q_scope.

Lemma Qltb_true x y : Qltb x y = true ↔ x < y.
Proof.
  unfold Qltb. rewrite negb_true_iff.
  destruct (Qle_bool y x) eqn:E.
  - apply Qle_bool_iff in E. split; [done | intros H; exfalso; lra].
  - split; [intros _ | done].
    apply Qnot_le_lt. intros H. apply Qle_bool_iff in H. congruence.
Qed.

Lemma Qltb_false x y : Qltb x y = false ↔ y <= x.
Proof.
  unfold Qltb. rewrite negb_false_iff. apply Qle_bool_iff.
Qed.

Section Agent.

Context {Features MatchInfo FootyStats : Type}.
Variable stateToKey : Features → string.
Variable extractFeatures :
  Analysis → MatchInfo → option FootyStats → list Q → option Features.
Variable matchInfoId : MatchInfo → option string.

Abbreviation getQValues := (getQValues stateToKey).
Abbreviation selectAction := (selectAction stateToKey).
Abbreviation trackDecisionQuality := (trackDecisionQuality stateToKey).
Abbreviation evaluateSignal := (evaluateSignal stateToKey extractFeatures matchInfoId).

(** ** Lazy row creation *)

Lemma getQValues_idem state tbl :
  (getQValues state (getQValues state tbl).2).2 = (getQValues state tbl).2.
Proof.
  unfold RLAgent.getQValues.
  destruct (tbl !! stateToKey state) as [row|] eqn:E; simpl.
  - by rewrite E.
  - by rewrite lookup_insert_eq.
Qed.

Lemma getQValues_row state tbl :
  (getQValues state tbl).1 = readRow tbl (stateToKey state).
Proof.
  unfold RLAgent.getQValues, readRow.
  by destruct (tbl !! stateToKey state).
Qed.

Lemma selectAction_table eps d state tbl :
  (selectAction eps d state tbl).2 = tbl ∨
  (selectAction eps d state tbl).2 = (getQValues state tbl).2.
Proof.
  unfold RLAgent.selectAction.
  destruct (Qltb _ _); [by left |].
  destruct (getQValues state tbl) as [row tbl']. by right.
Qed.

Lemma trackDecisionQuality_table state action tbl hist :
  (trackDecisionQuality state action tbl hist).1 = (getQValues state tbl).2.
Proof.
  unfold RLAgent.trackDecisionQuality.
  by destruct (getQValues state tbl) as [row tbl'].
Qed.

(** The main table after [evaluateSignal]: unchanged on the [catch] path,
    otherwise the table with the row of the evaluated state created. *)
Lemma evaluateSignal_qTable now d analysis mi fs ag :
  qTable (evaluateSignal now d analysis mi fs ag).2 =
    match extractFeatures analysis mi fs (performanceHistory ag) with
    | None => qTable ag
    | Some state => (getQValues state (qTable ag)).2
    end.
Proof.
  unfold RLAgent.evaluateSignal.
  destruct (extractFeatures _ _ _ _) as [state|]; [| done].
  pose proof (selectAction_table (epsilon ag) d state (qTable ag)) as Hsel.
  destruct (selectAction _ _ _ _) as [action tbl1]. simpl in Hsel.
  destruct (applyAction action analysis) as [[gen adj] rsn].
  destruct (storeStateAction _ _ _ _ _ _ _ _) as [sid pend'].
  pose proof (trackDecisionQuality_table state action tbl1 (convergenceHistory ag))
    as Htr.
  destruct (trackDecisionQuality _ _ _ _) as [tbl2 hist']. simpl in *.
  rewrite Htr. destruct Hsel as [-> | ->]; [done | apply getQValues_idem].
Qed.

Lemma evaluateSignal_targetQTable now d analysis mi fs ag :
  targetQTable (evaluateSignal now d analysis mi fs ag).2 = targetQTable ag.
Proof.
  unfold RLAgent.evaluateSignal.
  destruct (extractFeatures _ _ _ _) as [state|]; [| done].
  destruct (selectAction _ _ _ _) as [action tbl1].
  destruct (applyAction action analysis) as [[gen adj] rsn].
  destruct (storeStateAction _ _ _ _ _ _ _ _) as [sid pend'].
  by destruct (trackDecisionQuality _ _ _ _) as [tbl2 hist'].
Qed.

(** ** Experience replay *)

Lemma replayExperience_short (cfg : Learning.Config) prioritized batchSize batch tbl
    (buf : list (@Replay.Experience Features)) :
  (Z.of_nat (length buf) < batchSize)%Z →
  Replay.replayExperience stateToKey cfg prioritized batchSize batch tbl buf
    = Some (tbl, buf).
Proof.
  intros H. unfold Replay.replayExperience.
  by rewrite (proj2 (Z.ltb_lt _ _) H).
Qed.

Lemma replayOne_terminal (cfg : Learning.Config) prioritized tbl (e : @Replay.Experience Features) row q :
  Replay.r_nextState e = None ∨ Replay.r_done e = true →
  tbl !! stateToKey (Replay.r_state e) = Some row →
  (0 ≤ Replay.r_action e)%Z →
  row !! Z.to_nat (Replay.r_action e) = Some q →
  ∃ e',
    Replay.replayOne stateToKey cfg prioritized tbl e
      = Some (<[stateToKey (Replay.r_state e) :=
                 <[Z.to_nat (Replay.r_action e) :=
                     q + Learning.learningRate cfg * (Replay.r_reward e - q)]> row]> tbl, e').
Proof.
  intros Hterm Hrow Hact Hq. unfold Replay.replayOne, getQValues, Learning.writeQ.
  rewrite Hrow, (proj2 (Z.ltb_ge _ _) Hact), Hq.
  destruct Hterm as [-> | Hd].
  - eexists. reflexivity.
  - rewrite Hd. cbn [negb].
    destruct (Replay.r_nextState e); eexists; reflexivity.
Qed.

(** C6, as amended.  [evaluateSignal] leaves the target table as it is and
    changes no existing row of the main table; its only effect on the main
    table is to create the all-zero row of the evaluated state when that
    row is missing, so every Q-value read with missing rows as zeros is the
    same after the call as before.  Q-values are not rewritten by
    [updateFromResult] alone: [replayExperience], which the main loop calls
    on every tick, leaves table and buffer as they are while the buffer
    holds fewer than [batchSize] experiences, and otherwise rewrites the
    entry of every experience of its batch; for a terminal experience the
    entry [q] of its state and action becomes
    [q + learningRate * (reward - q)]. *)
Theorem evaluateSignal_preserves_q_values now d analysis mi fs ag :
  let ag' := (evaluateSignal now d analysis mi fs ag).2 in
  targetQTable ag' = targetQTable ag ∧
  (∀ key row, qTable ag !! key = Some row → qTable ag' !! key = Some row) ∧
  (∀ key, readRow (qTable ag') key = readRow (qTable ag) key) ∧
  (qTable ag' = qTable ag ∨
   ∃ state,
     extractFeatures analysis mi fs (performanceHistory ag) = Some state ∧
     qTable ag !! stateToKey state = None ∧
     qTable ag' = <[stateToKey state := replicate actionCount 0]> (qTable ag)) ∧
  (∀ (cfg : Learning.Config) prioritizedReplay batchSize batch tbl
     (buf : list (@Replay.Experience Features)),
     ((Z.of_nat (length buf) < batchSize)%Z →
      Replay.replayExperience stateToKey cfg prioritizedReplay batchSize batch
        tbl buf = Some (tbl, buf)) ∧
     ∀ i rest e row q,
       (batchSize ≤ Z.of_nat (length buf))%Z →
       batch = i :: rest →
       buf !! i = Some e →
       Replay.r_nextState e = None ∨ Replay.r_done e = true →
       tbl !! stateToKey (Replay.r_state e) = Some row →
       (0 ≤ Replay.r_action e)%Z →
       row !! Z.to_nat (Replay.r_action e) = Some q →
       ∃ e',
         Replay.replayExperience stateToKey cfg prioritizedReplay batchSize
           batch tbl buf
         = foldl (Replay.replayStep stateToKey cfg prioritizedReplay)
             (Some (<[stateToKey (Replay.r_state e) :=
                       <[Z.to_nat (Replay.r_action e) :=
                           q + Learning.learningRate cfg * (Replay.r_reward e - q)]>
                         row]> tbl,
                    <[i := e']> buf))
             rest).
Proof.
  cbv zeta. rewrite evaluateSignal_qTable, evaluateSignal_targetQTable.
  split; [done |].
  assert (Hreplay : ∀ (cfg : Learning.Config) prioritizedReplay batchSize batch tbl
     (buf : list (@Replay.Experience Features)),
     ((Z.of_nat (length buf) < batchSize)%Z →
      Replay.replayExperience stateToKey cfg prioritizedReplay batchSize batch
        tbl buf = Some (tbl, buf)) ∧
     ∀ i rest e row q,
       (batchSize ≤ Z.of_nat (length buf))%Z →
       batch = i :: rest →
       buf !! i = Some e →
       Replay.r_nextState e = None ∨ Replay.r_done e = true →
       tbl !! stateToKey (Replay.r_state e) = Some row →
       (0 ≤ Replay.r_action e)%Z →
       row !! Z.to_nat (Replay.r_action e) = Some q →
       ∃ e',
         Replay.replayExperience stateToKey cfg prioritizedReplay batchSize
           batch tbl buf
         = foldl (Replay.replayStep stateToKey cfg prioritizedReplay)
             (Some (<[stateToKey (Replay.r_state e) :=
                       <[Z.to_nat (Replay.r_action e) :=
                           q + Learning.learningRate cfg * (Replay.r_reward e - q)]>
                         row]> tbl,
                    <[i := e']> buf))
             rest).
  { intros cfg prioritizedReplay batchSize batch tbl buf.
    split; [apply replayExperience_short |].
    intros i rest e row q Hlen -> Hi Hterm Hrow Hact Hq.
    destruct (replayOne_terminal cfg prioritizedReplay tbl e row q
                Hterm Hrow Hact Hq) as [e' He'].
    exists e'. unfold Replay.replayExperience.
    rewrite (proj2 (Z.ltb_ge _ _) Hlen). cbn [foldl].
    unfold Replay.replayStep at 2. by rewrite Hi, He'. }
  destruct (extractFeatures _ _ _ _) as [state|]; [| by eauto 10].
  unfold RLAgent.getQValues.
  destruct (qTable ag !! stateToKey state) as [r|] eqn:E; simpl; [by eauto 10 |].
  split; [| split; [| split]].
  - intros key row Hk. rewrite lookup_insert_ne; [done | congruence].
  - intros key. unfold readRow.
    destruct (decide (stateToKey state = key)) as [<- | Hne].
    + by rewrite lookup_insert_eq, E.
    + by rewrite lookup_insert_ne.
  - right. by exists state.
  - exact Hreplay.
Qed.

(** ** The greedy branch on an untrained state *)

Lemma mathMax_zero row m :
  Forall (λ x, x == 0) row → mathMax row = Some m → m == 0.
Proof.
  revert m. induction row as [| x rest IH]; intros m Hall Hm; [done |].
  apply Forall_cons in Hall as [Hx Hrest]. simpl in Hm.
  destruct (mathMax rest) as [m'|].
  - injection Hm as <-. destruct (Qltb x m'); [by apply IH | done].
  - by injection Hm as <-.
Qed.

Lemma argmax_zeroRow row : zeroRow row → argmax row = 0%Z.
Proof.
  intros [Hne Hall]. unfold argmax.
  destruct row as [| x rest]; [done |].
  destruct (mathMax (x :: rest)) as [m|] eqn:Hm.
  - pose proof (mathMax_zero _ _ Hall Hm) as Hm0.
    apply Forall_cons in Hall as [Hx _].
    unfold indexOf. simpl.
    assert (Qeq_bool x m = true) as ->; [| done].
    apply Qeq_bool_iff. by rewrite Hx, Hm0.
  - simpl in Hm. by destruct (mathMax rest).
Qed.

Lemma zeroRow_replicate : zeroRow (replicate actionCount 0).
Proof. split; [done |]. simpl. by repeat constructor. Qed.

Lemma greedy_on_untrained eps d state tbl :
  untrained tbl (stateToKey state) →
  Qltb (exploreDraw d) eps = false →
  (selectAction eps d state tbl).1 = 0%Z.
Proof.
  intros Hun Hdraw. unfold RLAgent.selectAction. rewrite Hdraw.
  pose proof (getQValues_row state tbl) as Hrow.
  destruct (getQValues state tbl) as [row tbl']. simpl in *. subst row.
  apply argmax_zeroRow. unfold untrained, readRow in *.
  destruct (tbl !! stateToKey state); [done | apply zeroRow_replicate].
Qed.

(** C10.  On a state whose row is absent or all zeros, the exploitation
    branch of [selectAction] returns action 0, and [evaluateSignal] then
    answers [shouldGenerate = false]. *)
Theorem greedy_rejects_untrained now d analysis mi fs ag state :
  extractFeatures analysis mi fs (performanceHistory ag) = Some state →
  untrained (qTable ag) (stateToKey state) →
  Qltb (exploreDraw d) (epsilon ag) = false →
  (selectAction (epsilon ag) d state (qTable ag)).1 = 0%Z ∧
  shouldGenerate (evaluateSignal now d analysis mi fs ag).1 = false.
Proof.
  intros Hf Hun Hdraw.
  pose proof (greedy_on_untrained _ d state _ Hun Hdraw) as Hact.
  split; [done |].
  unfold RLAgent.evaluateSignal. rewrite Hf.
  destruct (selectAction _ _ _ _) as [action tbl1]. simpl in Hact. subst action.
  destruct (applyAction 0 analysis) as [[gen adj] rsn] eqn:Ha.
  unfold applyAction in Ha. simpl in Ha. injection Ha as <- _ _.
  destruct (storeStateAction _ _ _ _ _ _ _ _) as [sid pend'].
  by destruct (trackDecisionQuality _ _ _ _) as [tbl2 hist'].
Qed.

(** ** Reward shaping *)


Lemma conf_below_60 oc : Qltb (oc / 100) (6 # 10) = Qltb oc 60.
Proof.
  destruct (Qltb oc 60) eqn:E.
  - apply Qltb_true in E. apply Qltb_true.
    apply Qlt_shift_div_r; [reflexivity | lra].
  - apply Qltb_false in E. apply Qltb_false.
    apply Qle_shift_div_l; [reflexivity | lra].
Qed.


End Agent.

(** ** Concrete instances *)

Import Scenarios.

(** Replaying the buffer of wins of the toy state: whatever the batch, the
    trained entry stays between its value and 1, and moves up with the
    first experience replayed. *)
Lemma replayStep_wonLike prioritized tbl buf q i :
  tbl !! "s"%string = Some [0; q; 0; 0; 0] →
  Forall Replay.wonLike buf →
  (i < length buf)%nat →
  q < 1 →
  ∃ tbl' buf' q',
    Replay.replayStep id Learning.defaultConfig prioritized (Some (tbl, buf)) i
      = Some (tbl', buf') ∧
    tbl' !! "s"%string = Some [0; q'; 0; 0; 0] ∧
    Forall Replay.wonLike buf' ∧ length buf' = length buf ∧ q < q' ∧ q' < 1.
Proof.
  intros Htbl Hbuf Hi Hq.
  destruct (lookup_lt_is_Some_2 buf i Hi) as [e He].
  pose proof (proj1 (Forall_forall _ _) Hbuf e (list_elem_of_lookup_2 _ _ _ He))
    as (Hs & Ha & Hr & Hn).
  unfold Replay.replayStep. rewrite He.
  unfold Replay.replayOne, getQValues, Learning.writeQ.
  rewrite Hs. unfold id at 1 2. rewrite Htbl, Hn, Ha, Hr. cbn -[Qabs Qplus Qmult Qminus].
  set (q' := q + (1 # 1000) * (1 - q)).
  assert (Hset : ∀ p, Replay.wonLike (Replay.set_priority p e)) by (intros p; by repeat split).
  assert (He' : Replay.wonLike e) by by repeat split.
  destruct prioritized; [destruct (Replay.r_priority e) |];
    (eexists _, _, q'; split; [reflexivity |];
     split; [by rewrite lookup_insert_eq |];
     split; [by apply Forall_insert |];
     split; [by rewrite length_insert | unfold q'; split; lra]).
Qed.

Lemma replay_wonLike prioritized batch : ∀ tbl buf q,
  tbl !! "s"%string = Some [0; q; 0; 0; 0] →
  Forall Replay.wonLike buf →
  Forall (λ i, (i < length buf)%nat) batch →
  q < 1 →
  ∃ tbl' buf' q',
    foldl (Replay.replayStep id Learning.defaultConfig prioritized)
      (Some (tbl, buf)) batch = Some (tbl', buf') ∧
    tbl' !! "s"%string = Some [0; q'; 0; 0; 0] ∧
    q <= q' ∧ q' < 1 ∧ (batch ≠ [] → q < q').
Proof.
  induction batch as [| i rest IH]; intros tbl buf q Htbl Hbuf Hb Hq.
  - exists tbl, buf, q. repeat split; [done | lra | done | done].
  - apply Forall_cons in Hb as [Hi Hrest].
    destruct (replayStep_wonLike prioritized tbl buf q i Htbl Hbuf Hi Hq)
      as (tbl1 & buf1 & q1 & Hstep & Htbl1 & Hbuf1 & Hlen & Hlt & Hq1).
    rewrite <- Hlen in Hrest.
    destruct (IH tbl1 buf1 q1 Htbl1 Hbuf1 Hrest Hq1)
      as (tbl' & buf' & q' & Hfold & Htbl' & Hle & Hq' & _).
    exists tbl', buf', q'. cbn [foldl]. rewrite Hstep.
    repeat split; [done | done | lra | done | intros _; lra].
Qed.

(** C6 as stated fails twice.  On an empty table one call of
    [evaluateSignal] adds a row, so the mapping from state keys to rows is
    not the same afterwards.  And Q-values change without any call of
    [updateFromResult]: with 64 experiences in the buffer, one call of
    [replayExperience], as the main loop makes on every tick, moves the
    trained entry 0.5 of the state ["s"]: to 0.5005 when the batch holds
    one experience, further up when it holds all 64. *)
Lemma q_values_change_without_feedback :
  (qTable (evaluateSignal id toyFeatures (λ _, None) 1000 (toyDraws (1 # 2))
             toyAnalysis () None toyAgent).2
     = {[ "s"%string := [0; 0; 0; 0; 0] ]} ∧
   qTable (evaluateSignal id toyFeatures (λ _, None) 1000 (toyDraws (1 # 2))
             toyAnalysis () None toyAgent).2
     ≠ qTable toyAgent) ∧
  qTable trainedAgent !! "s"%string = Some [0; 1 # 2; 0; 0; 0] ∧
  (∃ tbl' buf' q,
     Replay.replayExperience id Learning.defaultConfig true 64 [0%nat]
         (qTable trainedAgent) Replay.fullBuffer = Some (tbl', buf') ∧
     tbl' !! "s"%string = Some [0; q; 0; 0; 0] ∧
     q == 1001 # 2000 ∧ ¬ q == 1 # 2) ∧
  (∃ tbl' buf' q,
     Replay.replayExperience id Learning.defaultConfig true 64 (seq 0 64)
         (qTable trainedAgent) Replay.fullBuffer = Some (tbl', buf') ∧
     tbl' !! "s"%string = Some [0; q; 0; 0; 0] ∧
     1 # 2 < q ∧ q < 1).
Proof.
  split.
  { assert (H : qTable (evaluateSignal id toyFeatures (λ _, None) 1000
                          (toyDraws (1 # 2)) toyAnalysis () None toyAgent).2
                = {[ "s"%string := [0; 0; 0; 0; 0] ]}) by reflexivity.
    split; [exact H |].
    rewrite H. simpl. intros Heq.
    apply (f_equal (λ m : gmap string (list Q), m !! "s"%string)) in Heq.
    rewrite lookup_singleton_eq, lookup_empty in Heq. discriminate. }
  split; [reflexivity |]. split.
  - eexists _, _, _. split; [reflexivity |].
    split; [vm_compute; reflexivity |].
    split; [reflexivity |]. intros H. vm_compute in H. discriminate H.
  - destruct (replay_wonLike true (seq 0 64) (qTable trainedAgent)
                Replay.fullBuffer (1 # 2))
      as (tbl' & buf' & q' & Hfold & Htbl' & _ & Hq' & Hlt).
    + reflexivity.
    + unfold Replay.fullBuffer. apply Forall_replicate. by repeat split.
    + apply Forall_forall. intros i Hi. apply elem_of_seq in Hi.
      unfold Replay.fullBuffer. rewrite length_replicate. lia.
    + reflexivity.
    + exists tbl', buf', q'. split; [exact Hfold |].
      split; [exact Htbl' |]. split; [by apply Hlt | exact Hq'].
Qed.

(** The draw 0.5 is not below epsilon 0.3: exploitation on a fresh state. *)
Lemma greedy_rejects_untrained_witness :
  (selectAction id (epsilon toyAgent) (toyDraws (1 # 2)) "s"%string
     (qTable toyAgent)).1 = 0%Z ∧
  shouldGenerate
    (evaluateSignal id toyFeatures (λ _, None) 1000 (toyDraws (1 # 2))
       toyAnalysis () None toyAgent).1 = false.
Proof.
  apply (greedy_rejects_untrained id toyFeatures (λ _, None) 1000
           (toyDraws (1 # 2)) toyAnalysis () None toyAgent "s"%string).
  - reflexivity.
  - unfold untrained. simpl. by rewrite lookup_empty.
  - reflexivity.
Defined.


(** An existing row survives an evaluation of its state. *)
Lemma evaluateSignal_preserves_q_values_witness :
  qTable (evaluateSignal id toyFeatures (λ _, None) 1000 (toyDraws (1 # 2))
            toyAnalysis () None trainedAgent).2 !! "s"%string
    = Some [0; 1 # 2; 0; 0; 0].
Proof.
  apply (proj1 (proj2 (evaluateSignal_preserves_q_values id toyFeatures
                         (λ _, None) 1000 (toyDraws (1 # 2)) toyAnalysis ()
                         None trainedAgent))).
  vm_compute. reflexivity.
Defined.


End RLAgentProps.

(** * Properties of the signal lifecycle manager *)

Module SignalsProps.
Import Signals.

(** ** The insertion-ordered map *)

Section MapOps.
Context {V : Type}.
Implicit Types m : list (string * V).

Lemma mapGet_mapSet_eq k v m : mapGet k (mapSet k v m) = Some v.
Proof.
  induction m as [| [k' v'] rest IH]; simpl.
  - by rewrite String.eqb_refl.
  - destruct (String.eqb k' k) eqn:E; simpl; by rewrite E.
Qed.

Lemma mapGet_mapSet_ne k k' v m :
  k ≠ k' → mapGet k' (mapSet k v m) = mapGet k' m.
Proof.
  intros Hne. induction m as [| [k0 v0] rest IH]; simpl.
  - destruct (String.eqb k k') eqn:E; [| done].
    apply String.eqb_eq in E. done.
  - destruct (String.eqb k0 k) eqn:E; simpl.
    + apply String.eqb_eq in E. subst k0.
      destruct (String.eqb k k') eqn:E'; [| done].
      apply String.eqb_eq in E'. done.
    + by rewrite IH.
Qed.

Lemma mapGet_mapDelete k k' m :
  mapGet k (mapDelete k' m) = if String.eqb k' k then None else mapGet k m.
Proof.
  unfold mapDelete. induction m as [| [k0 v0] rest IH]; simpl.
  - by destruct (String.eqb k' k).
  - destruct (String.eqb k0 k') eqn:E0; simpl.
    + apply String.eqb_eq in E0. subst k0. rewrite IH.
      by destruct (String.eqb k' k).
    + destruct (String.eqb k0 k) eqn:E1; [| done].
      apply String.eqb_eq in E1. subst k0.
      rewrite String.eqb_sym in E0. by rewrite E0.
Qed.

Lemma mapGet_deletes k ks : ∀ m,
  mapGet k (foldl (λ acc k', mapDelete k' acc) m ks) =
    if bool_decide (k ∈ ks) then None else mapGet k m.
Proof.
  induction ks as [| k0 ks IH]; intros m; cbn [foldl].
  - rewrite bool_decide_eq_false_2; [done | by apply not_elem_of_nil].
  - rewrite IH, mapGet_mapDelete.
    destruct (String.eqb k0 k) eqn:E.
    + apply String.eqb_eq in E. subst k0.
      rewrite (bool_decide_eq_true_2 (k ∈ k :: ks)); [| by left].
      by destruct (bool_decide _).
    + apply String.eqb_neq in E.
      destruct (bool_decide (k ∈ ks)) eqn:Hin.
      * apply bool_decide_eq_true in Hin.
        rewrite bool_decide_eq_true_2; [done | by right].
      * apply bool_decide_eq_false in Hin.
        rewrite bool_decide_eq_false_2; [done |].
        intros Hc. apply elem_of_cons in Hc as [-> | Hc]; done.
Qed.

Lemma mapGet_elem k v m : mapGet k m = Some v → (k, v) ∈ m.
Proof.
  induction m as [| [k0 v0] rest IH]; simpl; [done |].
  destruct (String.eqb k0 k) eqn:E.
  - apply String.eqb_eq in E. intros [= ->]. subst. by left.
  - intros H. right. by apply IH.
Qed.

End MapOps.

(** ** Promotion *)

Lemma stateEqb_eq a b : stateEqb a b = true ↔ a = b.
Proof. destruct a, b; simpl; split; congruence. Qed.

(** What [promoteSignal] leaves alone. *)
Lemma promoteSignal_frame cfg now cd s :
  let s' := (promoteSignal cfg now cd s).1.1 in
  id s' = id s ∧ matchId s' = matchId s ∧ market s' = market s ∧
  confidence s' = confidence s ∧ minute s' = minute s ∧
  liquidityOk s' = liquidityOk s ∧ reasoning s' = reasoning s ∧
  meta s' = meta s ∧ createdTs s' = createdTs s ∧
  ttlSeconds s' = ttlSeconds s ∧ selection s' = selection s.
Proof.
  unfold promoteSignal. cbv zeta. simpl.
  repeat match goal with |- context [if ?b then _ else _] => destruct b end;
    simpl; done.
Qed.

Lemma meetsCandidate_inv cfg s : meetsCandidate cfg s = true → state s = PRE.
Proof.
  unfold meetsCandidate. intros H.
  do 2 apply andb_prop in H as [H _]. by apply stateEqb_eq in H.
Qed.

Lemma meetsActive_state cfg now cd s :
  meetsActive cfg now cd s = true → state s = CANDIDATE.
Proof.
  unfold meetsActive. intros H.
  do 4 apply andb_prop in H as [H _]. by apply stateEqb_eq in H.
Qed.

(** [promoteSignal] only moves forward along PRE, CANDIDATE, ACTIVE. *)
Lemma promoteSignal_forward cfg now cd s :
  let s' := (promoteSignal cfg now cd s).1.1 in
  (rank (state s) ≤ rank (state s'))%nat ∧
  (state s = ACTIVE → state s' = ACTIVE) ∧
  (state s = EXPIRED → state s' = EXPIRED) ∧
  (state s' = EXPIRED → state s = EXPIRED).
Proof.
  unfold promoteSignal. cbv zeta. simpl.
  destruct (meetsCandidate cfg s) eqn:E1.
  - apply meetsCandidate_inv in E1. rewrite E1.
    destruct (meetsActive cfg now cd _); simpl;
      repeat split; try lia; congruence.
  - destruct (meetsActive cfg now cd s) eqn:E2.
    + apply meetsActive_state in E2. rewrite E2. simpl.
      repeat split; try lia; congruence.
    + destruct (state s) eqn:Hs; simpl; rewrite ?Hs; simpl;
        repeat split; lia || congruence.
Qed.


(** The cooldown map after [promoteSignal]: written, with the promotion
    time, exactly when the CANDIDATE->ACTIVE branch is taken. *)
Lemma promoteSignal_cooldown cfg now cd s :
  (promoteSignal cfg now cd s).1.2 =
    if (promoteSignal cfg now cd s).2 then <[id s := now]> cd else cd.
Proof.
  unfold promoteSignal. cbv zeta. simpl.
  by destruct (meetsCandidate cfg s).
Qed.

Lemma meetsActive_inv cfg now cd s :
  meetsActive cfg now cd s = true →
  state s = CANDIDATE ∧ isDeduplicated cfg now cd s = true.
Proof.
  unfold meetsActive. intros H.
  pose proof (meetsActive_state _ _ _ _ H) as Hst. split; [done |].
  unfold meetsActive in H. by apply andb_prop in H as [_ H].
Qed.

(** The CANDIDATE->ACTIVE branch needs the identity out of cooldown. *)
Lemma promoteSignal_activation cfg now cd s :
  (promoteSignal cfg now cd s).2 = true →
  isDeduplicated cfg now cd s = true ∧
  state (promoteSignal cfg now cd s).1.1 = ACTIVE ∧
  state s ≠ ACTIVE.
Proof.
  unfold promoteSignal. cbv zeta. simpl. intros H. rewrite H.
  apply meetsActive_inv in H as [Hst Hd].
  destruct (meetsCandidate cfg s) eqn:E1.
  - unfold meetsCandidate in E1.
    do 2 apply andb_prop in E1 as [E1 _]. apply stateEqb_eq in E1.
    rewrite E1. simpl. done.
  - rewrite Hst. simpl. repeat split; [done | congruence].
Qed.

(** ** One iteration of the candidate loop *)

Lemma carryForward_id now m c : id (carryForward now m c) = id c.
Proof. unfold carryForward. simpl. by destruct (mapGet (id c) m). Qed.

Lemma carryForward_fields now m c :
  let c2 := carryForward now m c in
  confidence c2 = confidence c ∧ minute c2 = minute c ∧
  liquidityOk c2 = liquidityOk c ∧ reasoning c2 = reasoning c ∧
  meta c2 = meta c ∧ lastUpdateTs c2 = now ∧
  matchId c2 = matchId c ∧ market c2 = market c.
Proof. unfold carryForward. simpl. by destruct (mapGet (id c) m). Qed.

Lemma carryForward_existing now m c e :
  mapGet (id c) m = Some e →
  createdTs (carryForward now m c) = createdTs e ∧
  state (carryForward now m c) = state e.
Proof. intros H. unfold carryForward. simpl. by rewrite H. Qed.

Lemma processCandidate_get_eq cfg now σ c :
  mapGet (id c) (signals (processCandidate cfg now σ c).1)
    = Some (storedAs cfg now σ c).
Proof.
  unfold processCandidate, storedAs. cbv zeta.
  rewrite carryForward_id.
  destruct (stateEqb _ PRE || stateEqb _ CANDIDATE).
  - destruct (promoteSignal _ _ _ _) as [[c3 cd'] act]. simpl.
    apply mapGet_mapSet_eq.
  - simpl. apply mapGet_mapSet_eq.
Qed.

Lemma processCandidate_get_ne cfg now σ c i :
  i ≠ id c →
  mapGet i (signals (processCandidate cfg now σ c).1) = mapGet i (signals σ).
Proof.
  intros Hne. unfold processCandidate. cbv zeta.
  rewrite carryForward_id.
  destruct (stateEqb _ PRE || stateEqb _ CANDIDATE).
  - destruct (promoteSignal _ _ _ _) as [[c3 cd'] act]. simpl.
    rewrite !mapGet_mapSet_ne; done.
  - simpl. rewrite mapGet_mapSet_ne; done.
Qed.


Lemma storedAs_existing cfg now σ c e :
  mapGet (id c) (signals σ) = Some e →
  let s' := storedAs cfg now σ c in
  createdTs s' = createdTs e ∧
  (rank (state e) ≤ rank (state s'))%nat ∧
  (state e = ACTIVE → state s' = ACTIVE) ∧
  (state e = EXPIRED → state s' = EXPIRED).
Proof.
  intros He. cbv zeta. unfold storedAs.
  pose proof (carryForward_existing now (signals σ) c e He) as [Hts Hst].
  destruct (stateEqb _ PRE || stateEqb _ CANDIDATE).
  - pose proof (promoteSignal_frame cfg now (cooldown σ) (carryForward now (signals σ) c))
      as (_ & _ & _ & _ & _ & _ & _ & _ & F9 & _).
    pose proof (promoteSignal_forward cfg now (cooldown σ) (carryForward now (signals σ) c))
      as (R1 & R2 & R3 & _).
    cbv zeta in *. rewrite Hst in *. repeat split; [congruence | done | done | done].
  - rewrite Hst, Hts. done.
Qed.

Lemma processCandidate_cooldown cfg now σ c :
  match (processCandidate cfg now σ c).2 with
  | Some i =>
      i = id c ∧
      isDeduplicated cfg now (cooldown σ) (carryForward now (signals σ) c) = true ∧
      cooldown (processCandidate cfg now σ c).1 = <[i := now]> (cooldown σ)
  | None => cooldown (processCandidate cfg now σ c).1 = cooldown σ
  end.
Proof.
  unfold processCandidate. cbv zeta.
  destruct (stateEqb _ PRE || stateEqb _ CANDIDATE); [| done].
  pose proof (promoteSignal_cooldown cfg now (cooldown σ)
                (carryForward now (signals σ) c)) as Hcd.
  pose proof (promoteSignal_activation cfg now (cooldown σ)
                (carryForward now (signals σ) c)) as Hact.
  destruct (promoteSignal _ _ _ _) as [[c3 cd'] act]. simpl in *.
  destruct act; [| done].
  destruct (Hact eq_refl) as (Hd & _). rewrite carryForward_id in *. done.
Qed.

(** ** The candidate loop *)

Lemma processCandidates_forward cfg now cs : ∀ σ i s,
  mapGet i (signals σ) = Some s →
  ∃ s1, mapGet i (signals (processCandidates cfg now σ cs).1) = Some s1 ∧
        createdTs s1 = createdTs s ∧
        (rank (state s) ≤ rank (state s1))%nat ∧
        (state s = ACTIVE → state s1 = ACTIVE).
Proof.
  induction cs as [| c rest IH]; intros σ i s Hs; simpl.
  - exists s. done.
  - destruct (processCandidate cfg now σ c) as [σ1 ev] eqn:Hpc.
    assert (Hσ1 : σ1 = (processCandidate cfg now σ c).1) by by rewrite Hpc.
    assert (∃ s0, mapGet i (signals σ1) = Some s0 ∧ createdTs s0 = createdTs s ∧
                  (rank (state s) ≤ rank (state s0))%nat ∧
                  (state s = ACTIVE → state s0 = ACTIVE)) as (s0 & H0 & Hts & Hr & Ha).
    { destruct (decide (i = id c)) as [-> | Hne].
      - exists (storedAs cfg now σ c). rewrite Hσ1, processCandidate_get_eq.
        pose proof (storedAs_existing cfg now σ c s Hs) as (? & ? & ? & _). done.
      - exists s. rewrite Hσ1, processCandidate_get_ne; done. }
    destruct (IH σ1 i s0 H0) as (s1 & H1 & Hts1 & Hr1 & Ha1).
    destruct (processCandidates cfg now σ1 rest) as [σ2 evs]. simpl in *.
    exists s1. repeat split; [done | congruence | lia | auto].
Qed.

(** ** The sweep *)

Lemma sweep_get now m i :
  mapGet i (sweep now m) =
    if bool_decide (i ∈ expiredIds now m) then None else mapGet i m.
Proof. unfold sweep. apply mapGet_deletes. Qed.

Lemma expired_listed now m i s :
  mapGet i m = Some s → (expireSignal now s).1 = true → i ∈ expiredIds now m.
Proof.
  intros Hs He. unfold expiredIds.
  apply mapGet_elem in Hs.
  apply (list_elem_of_fmap_2 fst _ (i, s)).
  apply list_elem_of_In, filter_In. split; [by apply list_elem_of_In | done].
Qed.

Lemma update_signals cfg now cs σ :
  signals (update cfg now cs σ).2
    = sweep now (signals (processCandidates cfg now σ cs).1).
Proof. done. Qed.

(** [expireSignal] answers [true] exactly when the age has reached the
    time to live. *)
Lemma age_scaled now s :
  (inject_Z (ttlSeconds s) - getAge now s
     == inject_Z (ttlSeconds s * 1000 - (now - createdTs s)) / 1000)%Q.
Proof.
  unfold getAge. set (a := now - createdTs s).
  replace (ttlSeconds s * 1000 - a) with (ttlSeconds s * 1000 + - a) by lia.
  rewrite inject_Z_plus, inject_Z_opp, inject_Z_mult.
  change (inject_Z 1000) with 1000%Q. field.
Qed.

Lemma expireSignal_ttl now s :
  (expireSignal now s).1 = false ↔ unexpiredAt now s.
Proof.
  unfold expireSignal, unexpiredAt, getTimeLeft.
  pose proof (age_scaled now s) as Hd.
  set (d := (inject_Z (ttlSeconds s) - getAge now s)%Q) in *.
  set (z := ttlSeconds s * 1000 - (now - createdTs s)) in *.
  assert (Hz : (0 < d)%Q ↔ 0 < z).
  { rewrite Hd. split.
    - intros H. apply Z.lt_nge. intros Hle.
      assert (inject_Z z <= 0)%Q by (change 0%Q with (inject_Z 0); by rewrite <- Zle_Qle).
      assert (inject_Z z / 1000 <= 0)%Q by (apply Qle_shift_div_r; [reflexivity | lra]).
      lra.
    - intros H.
      assert (0 < inject_Z z)%Q by (change 0%Q with (inject_Z 0); by rewrite <- Zlt_Qlt).
      apply Qlt_shift_div_l; [reflexivity | lra]. }
  destruct (Qle_bool (Qmax 0 d) 0) eqn:E; cbn [fst].
  - apply Qle_bool_iff in E. split; [done |]. intros Hlt. exfalso.
    assert (0 < d)%Q by (apply Hz; lia).
    pose proof (Q.le_max_r 0 d). lra.
  - split; [intros _ | done].
    assert (¬ (Qmax 0 d <= 0)%Q) as Hn
      by (intros H; apply Qle_bool_iff in H; congruence).
    assert (0 < d)%Q.
    { destruct (Qlt_le_dec 0 d) as [H | H]; [done |].
      exfalso. apply Hn. rewrite Q.max_l; [lra | done]. }
    apply Hz in H. lia.
Qed.



Lemma update_step_forward cfg now cs σ i s :
  mapGet i (signals σ) = Some s →
  match mapGet i (signals (update cfg now cs σ).2) with
  | Some s' =>
      createdTs s' = createdTs s ∧ (rank (state s) ≤ rank (state s'))%nat
  | None => True
  end.
Proof.
  intros Hs. rewrite update_signals, sweep_get.
  destruct (bool_decide _); [done |].
  destruct (processCandidates_forward cfg now cs σ i s Hs) as (s1 & -> & ? & ? & _).
  done.
Qed.

Lemma observed_forward cfg i calls : ∀ σ,
  forwardOnly (state <$> mapGet i (signals σ)) (observed cfg i σ calls).
Proof.
  induction calls as [| [now cs] rest IH]; intros σ;
    cbn [observed forwardOnly]; [done |].
  split; [| apply IH].
  destruct (mapGet i (signals σ)) as [s|] eqn:Hs; [| done].
  pose proof (update_step_forward cfg now cs σ i s Hs) as H.
  destruct (mapGet i (signals (update cfg now cs σ).2)); [| done].
  cbn. by destruct H.
Qed.

(** Observations of an identity that is live at every call are in
    lifecycle order. *)
Lemma forwardOnly_sorted obs : ∀ prev,
  forwardOnly prev obs → Forall is_Some obs →
  inLifecycleOrder (statesSeen obs) ∧
  ∀ a, prev = Some a → Forall (λ b, (rank a ≤ rank b)%nat) (statesSeen obs).
Proof.
  unfold inLifecycleOrder, statesSeen.
  induction obs as [| o rest IH]; intros prev Hf Hall.
  - split; [constructor |]. intros a _. constructor.
  - apply Forall_cons in Hall as [[b ->] Hall].
    destruct Hf as [Hstep Hf]. cbn [omap list_omap].
    destruct (IH (Some b) Hf Hall) as [Hs Hb]. specialize (Hb b eq_refl).
    split.
    + by constructor.
    + intros a ->. constructor; [done |].
      eapply Forall_impl; [exact Hb |]. intros c Hc. simpl in Hc. lia.
Qed.

(** C2, as amended.  The lifecycle order holds for every signal entity,
    that is for an identity from the call that admits it to the live set
    until the call that deletes it: [promoteSignal] only advances a signal
    and never moves one out of ACTIVE; across one [update] call an identity
    that was live is either deleted or is at the same or a later lifecycle
    position; a signal whose TTL has run out at the sweep (the one
    [expireSignal] marks EXPIRED) is deleted in that same call and no
    signal left in the live set is one the sweep marked; hence over any run
    of [update] calls two successive observations of an identity that is
    live at both are in lifecycle order, and the states seen over a run
    whose calls all leave the identity live are in lifecycle order from
    first to last.  It does not hold for an identity
    across a deletion: an identity that was deleted and is submitted again
    starts over as a new entity. *)
Theorem lifecycle_forward_only cfg :
  (∀ now cd s,
     (rank (state s) ≤ rank (state (promoteSignal cfg now cd s).1.1))%nat ∧
     (state s = ACTIVE → state (promoteSignal cfg now cd s).1.1 = ACTIVE)) ∧
  (∀ now cs σ i s,
     mapGet i (signals σ) = Some s →
     match mapGet i (signals (update cfg now cs σ).2) with
     | Some s' => (rank (state s) ≤ rank (state s'))%nat
     | None => True
     end) ∧
  (∀ now cs σ i s,
     mapGet i (signals (processCandidates cfg now σ cs).1) = Some s →
     (expireSignal now s).1 = true →
     mapGet i (signals (update cfg now cs σ).2) = None) ∧
  (∀ now cs σ i s',
     mapGet i (signals (update cfg now cs σ).2) = Some s' →
     (expireSignal now s').1 = false) ∧
  (∀ σ calls i,
     forwardOnly (state <$> mapGet i (signals σ)) (observed cfg i σ calls)) ∧
  (∀ σ calls i,
     Forall is_Some (observed cfg i σ calls) →
     inLifecycleOrder (statesSeen (observed cfg i σ calls))).
Proof.
  split; [| split; [| split; [| split; [| split]]]].
  - intros now cd s.
    pose proof (promoteSignal_forward cfg now cd s) as (? & ? & _). done.
  - intros now cs σ i s Hs.
    pose proof (update_step_forward cfg now cs σ i s Hs) as H.
    destruct (mapGet i (signals (update cfg now cs σ).2)); [by destruct H | done].
  - intros now cs σ i s Hs He.
    rewrite update_signals, sweep_get.
    rewrite bool_decide_eq_true_2; [done |]. by eapply expired_listed.
  - intros now cs σ i s'. rewrite update_signals, sweep_get.
    destruct (bool_decide _) eqn:Hin; [done |].
    intros Hs. apply bool_decide_eq_false in Hin.
    destruct ((expireSignal now s').1) eqn:He; [| done].
    exfalso. apply Hin. by eapply expired_listed.
  - intros σ calls i. apply observed_forward.
  - intros σ calls i Hlive.
    by apply (forwardOnly_sorted _ (state <$> mapGet i (signals σ)));
      [apply observed_forward |].
Qed.

(** ** Cooldown *)

Lemma isDeduplicated_gap cfg now cd s ts :
  isDeduplicated cfg now cd s = true → cd !! id s = Some ts →
  ts = 0 ∨ cooldownSeconds cfg * 1000 ≤ now - ts.
Proof.
  unfold isDeduplicated. intros H Hts. rewrite Hts in H.
  destruct (ts =? 0) eqn:E.
  - left. by apply Z.eqb_eq.
  - right. by apply Z.leb_le.
Qed.

Lemma spaced_activation cfg now cd s past :
  (∀ i t, (i, t) ∈ past → 0 < t ≤ now) →
  covered past cd →
  StronglySorted (spacedBy (cooldownSeconds cfg * 1000)) past →
  isDeduplicated cfg now cd s = true →
  StronglySorted (spacedBy (cooldownSeconds cfg * 1000)) (past ++ [(id s, now)]) ∧
  covered (past ++ [(id s, now)]) (<[id s := now]> cd).
Proof.
  intros Hpos Hcov Hss Hd. split.
  - apply StronglySorted_app. split; [| split; [done | repeat constructor]].
    intros [j t] x2 Hj Hx2. apply list_elem_of_singleton in Hx2 as ->.
    unfold spacedBy. simpl. intros ->.
    destruct (Hcov _ _ Hj) as (ts & Hts & Hle).
    destruct (Hpos _ _ Hj) as [Ht _].
    destruct (isDeduplicated_gap cfg now cd s ts Hd Hts) as [-> | Hgap]; lia.
  - intros j t Hj. apply elem_of_app in Hj as [Hj | Hj].
    + destruct (decide (id s = j)) as [<- | Hne].
      * exists now. rewrite lookup_insert_eq. split; [done |].
        by destruct (Hpos _ _ Hj).
      * rewrite lookup_insert_ne; [| done]. by apply Hcov.
    + apply list_elem_of_singleton in Hj as [= -> ->].
      exists now. by rewrite lookup_insert_eq.
Qed.

Lemma spaced_candidates cfg now cs : ∀ σ past,
  0 < now →
  (∀ i t, (i, t) ∈ past → 0 < t ≤ now) →
  covered past (cooldown σ) →
  StronglySorted (spacedBy (cooldownSeconds cfg * 1000)) past →
  StronglySorted (spacedBy (cooldownSeconds cfg * 1000))
    (past ++ map (λ i, (i, now)) (processCandidates cfg now σ cs).2) ∧
  covered (past ++ map (λ i, (i, now)) (processCandidates cfg now σ cs).2)
          (cooldown (processCandidates cfg now σ cs).1).
Proof.
  induction cs as [| c rest IH]; intros σ past Hnow Hpos Hcov Hss; simpl.
  - by rewrite app_nil_r.
  - pose proof (processCandidate_cooldown cfg now σ c) as Hpc.
    destruct (processCandidate cfg now σ c) as [σ1 ev]. simpl in Hpc.
    destruct ev as [i|].
    + destruct Hpc as (-> & Hd & Hcd).
      rewrite <- (carryForward_id now (signals σ) c) in *.
      destruct (spaced_activation cfg now (cooldown σ) _ past Hpos Hcov Hss Hd)
        as [Hss' Hcov'].
      rewrite <- Hcd in Hcov'.
      assert (Hpos' : ∀ j t, (j, t) ∈ past ++ [(id (carryForward now (signals σ) c), now)]
                             → 0 < t ≤ now).
      { intros j t Hj. apply elem_of_app in Hj as [Hj | Hj]; [by eapply Hpos |].
        apply list_elem_of_singleton in Hj as [= -> ->]. lia. }
      specialize (IH σ1 _ Hnow Hpos' Hcov' Hss').
      destruct (processCandidates cfg now σ1 rest) as [σ2 evs]. simpl in *.
      by rewrite <- app_assoc in IH.
    + rewrite <- Hpc in Hcov.
      specialize (IH σ1 past Hnow Hpos Hcov Hss).
      by destruct (processCandidates cfg now σ1 rest) as [σ2 evs].
Qed.

Lemma spaced_run cfg calls : ∀ σ past,
  StronglySorted Z.le (map fst calls) →
  Forall (λ c, 0 < c.1) calls →
  (∀ i t, (i, t) ∈ past → 0 < t ∧ Forall (λ c, t ≤ c.1) calls) →
  covered past (cooldown σ) →
  StronglySorted (spacedBy (cooldownSeconds cfg * 1000)) past →
  StronglySorted (spacedBy (cooldownSeconds cfg * 1000))
    (past ++ (runUpdates cfg σ calls).1).
Proof.
  induction calls as [| [now cs] rest IH]; intros σ past Hsorted Hall Hpast Hcov Hss.
  - simpl. by rewrite app_nil_r.
  - cbn [runUpdates]. cbn [map fst] in Hsorted.
    apply StronglySorted_inv in Hsorted as [Hsorted Hle].
    apply Forall_cons in Hall as [Hnow Hall]. simpl in Hnow.
    assert (Hpos : ∀ i t, (i, t) ∈ past → 0 < t ≤ now).
    { intros i t Hi. destruct (Hpast _ _ Hi) as [Ht Hf].
      apply Forall_cons in Hf as [Hf _]. simpl in Hf. lia. }
    destruct (spaced_candidates cfg now cs σ past Hnow Hpos Hcov Hss) as [Hss' Hcov'].
    unfold activations.
    set (evs := map (λ i, (i, now)) (processCandidates cfg now σ cs).2) in *.
    assert (Hpast' : ∀ i t, (i, t) ∈ past ++ evs → 0 < t ∧ Forall (λ c, t ≤ c.1) rest).
    { intros i t Hi. apply elem_of_app in Hi as [Hi | Hi].
      - destruct (Hpast _ _ Hi) as [Ht Hf].
        apply Forall_cons in Hf as [_ Hf]. done.
      - unfold evs in Hi. apply list_elem_of_fmap in Hi as (j & [= -> ->] & _).
        split; [done |]. apply Forall_forall. intros c Hc.
        rewrite Forall_forall in Hle. apply Hle.
        apply list_elem_of_In, (in_map fst), list_elem_of_In, Hc. }
    specialize (IH (update cfg now cs σ).2 (past ++ evs) Hsorted Hall Hpast' Hcov' Hss').
    destruct (runUpdates cfg (update cfg now cs σ).2 rest) as [evs' σ'].
    simpl in *. by rewrite <- app_assoc in IH.
Qed.

Lemma processCandidates_stamp cfg now cs : ∀ σ,
  (∀ i, i ∈ (processCandidates cfg now σ cs).2 →
        cooldown (processCandidates cfg now σ cs).1 !! i = Some now) ∧
  (∀ i, cooldown σ !! i = Some now →
        cooldown (processCandidates cfg now σ cs).1 !! i = Some now).
Proof.
  induction cs as [| c rest IH]; intros σ; simpl.
  - split; [intros i Hi; by apply elem_of_nil in Hi | done].
  - pose proof (processCandidate_cooldown cfg now σ c) as Hpc.
    destruct (processCandidate cfg now σ c) as [σ1 ev]. simpl in Hpc.
    destruct (IH σ1) as [IH1 IH2].
    destruct (processCandidates cfg now σ1 rest) as [σ2 evs]. simpl in *.
    destruct ev as [j|].
    + destruct Hpc as (-> & _ & Hcd). split.
      * intros i Hi. apply elem_of_cons in Hi as [-> | Hi]; [| by apply IH1].
        apply IH2. rewrite Hcd. apply lookup_insert_eq.
      * intros i Hi. apply IH2. rewrite Hcd.
        destruct (decide (id c = i)) as [<- | Hne];
          [apply lookup_insert_eq | by rewrite lookup_insert_ne].
    + rewrite Hpc in *. split; [done | auto].
Qed.

(** C3.  Over any run of [update] calls at positive, non-decreasing clock
    readings, from any service state, two promotions to ACTIVE of one
    identity key are at least [cooldownSeconds] apart, whatever happened to
    the live set in between; and after an [update] call the cooldown entry
    of every identity it promoted holds the time of that call. *)
Theorem cooldown_suppresses_reactivation cfg :
  (∀ σ calls,
     StronglySorted Z.le (map fst calls) →
     Forall (λ c, 0 < c.1) calls →
     StronglySorted (spacedBy (cooldownSeconds cfg * 1000))
       (runUpdates cfg σ calls).1) ∧
  (∀ now cs σ i,
     i ∈ activations cfg now cs σ →
     cooldown (update cfg now cs σ).2 !! i = Some now).
Proof.
  split.
  - intros σ calls Hsorted Hpos.
    apply (spaced_run cfg calls σ [] Hsorted Hpos).
    + intros i t Hi. apply elem_of_nil in Hi. destruct Hi.
    + intros i t Hi. apply elem_of_nil in Hi. destruct Hi.
    + apply SSorted_nil.
  - intros now cs σ i Hi. unfold activations in Hi.
    change (cooldown (processCandidates cfg now σ cs).1 !! i = Some now).
    by apply (proj1 (processCandidates_stamp cfg now cs σ)).
Qed.

(** ** Merging a recurring identity *)


Lemma processCandidates_get_other cfg now cs i : ∀ σ,
  Forall (λ c, id c ≠ i) cs →
  mapGet i (signals (processCandidates cfg now σ cs).1) = mapGet i (signals σ).
Proof.
  induction cs as [| c rest IH]; intros σ Hall; simpl; [done |].
  apply Forall_cons in Hall as [Hc Hrest].
  pose proof (processCandidate_get_ne cfg now σ c i (not_eq_sym Hc)) as Hne.
  destruct (processCandidate cfg now σ c) as [σ1 ev]. simpl in Hne.
  specialize (IH σ1 Hrest).
  destruct (processCandidates cfg now σ1 rest) as [σ2 evs]. simpl in *.
  congruence.
Qed.





(** ** Stable sorting *)

Section StableSort.
Context {A : Type} (le : A → A → bool).
Hypothesis le_total : ∀ a b, le a b = true ∨ le b a = true.
Hypothesis le_trans : ∀ a b c, le a b = true → le b c = true → le a c = true.

Local Abbreviation R := (λ a b, le a b = true).










End StableSort.

(** The priority order is a total preorder. *)




(** ** Grouping *)




Section Grouping.
Context {A : Type} (key : A → string).









End Grouping.

(** ** The display selection *)










(** The stable sort rearranges, and depends on the order only among the
    elements sorted. *)
















(** ** Examples on concrete runs *)

Import Scenarios.

Ltac sorted_by_lia :=
  repeat first [ apply SSorted_nil | apply SSorted_cons | apply List.Forall_nil
               | apply List.Forall_cons | (simpl; lia) ].

(** The spec's cooldown example, with a TTL of 100 s so that the entity
    expires in between: promoted at 1060 s, not again before 1400 s. *)
Example ouTicks_promotions :
  (runUpdates defaultConfig emptyService ouTicks).1
    = [("M1:over_2.5"%string, 1060000); ("M1:over_2.5"%string, 1400000)].
Proof. vm_compute. reflexivity. Qed.

Example ouTicks_observed :
  observed defaultConfig "M1:over_2.5" emptyService ouTicks
    = [Some CANDIDATE; Some ACTIVE; None; Some CANDIDATE; Some CANDIDATE; None;
       Some CANDIDATE; Some CANDIDATE; None].
Proof. vm_compute. reflexivity. Qed.

(** C2 as stated fails for an identity: the states observed for
    ["M1:over_2.5"] over the ticks, in the order of the calls, go from
    ACTIVE back to CANDIDATE once the first entity has expired and the
    identity is submitted again. *)
Lemma identity_returns_to_candidate :
  statesSeen (observed defaultConfig "M1:over_2.5" emptyService ouTicks)
    = [CANDIDATE; ACTIVE; CANDIDATE; CANDIDATE; CANDIDATE; CANDIDATE] ∧
  ¬ inLifecycleOrder
      (statesSeen (observed defaultConfig "M1:over_2.5" emptyService ouTicks)).
Proof.
  assert (H : statesSeen (observed defaultConfig "M1:over_2.5" emptyService ouTicks)
              = [CANDIDATE; ACTIVE; CANDIDATE; CANDIDATE; CANDIDATE; CANDIDATE])
    by (vm_compute; reflexivity).
  split; [exact H |]. rewrite H. unfold inLifecycleOrder. intros Hs.
  apply StronglySorted_inv in Hs as [Hs _].
  apply StronglySorted_inv in Hs as [_ Hall].
  apply Forall_cons in Hall as [Hr _]. simpl in Hr. lia.
Qed.

(** The spec's capacity example: of five ACTIVE over/under signals of one
    match the two with confidence 90 are shown, the older one first. *)
Example sevenActive_shown :
  map sum_id (update defaultConfig 3000 sevenActive emptyService).1
    = ["g"; "b"; "d"; "f"]%string.
Proof. vm_compute. reflexivity. Qed.

Lemma lifecycle_forward_only_witness :
  match mapGet "M1:over_2.5" (signals afterSecondTick) with
  | Some s' => (rank (state heldAfterFirstTick) ≤ rank (state s'))%nat
  | None => True
  end.
Proof.
  apply (proj1 (proj2 (lifecycle_forward_only defaultConfig))
           1060000 [ou 1060000] afterFirstTick "M1:over_2.5"%string
           heldAfterFirstTick).
  vm_compute. reflexivity.
Defined.

Lemma cooldown_suppresses_reactivation_witness :
  StronglySorted (spacedBy (cooldownSeconds defaultConfig * 1000))
    (runUpdates defaultConfig emptyService ouTicks).1.
Proof.
  apply (proj1 (cooldown_suppresses_reactivation defaultConfig)
           emptyService ouTicks).
  - sorted_by_lia.
  - sorted_by_lia.
Defined.





End SignalsProps.

(** * Properties of the team names *)

Module TeamsProps.
Import Teams.

Lemma orElse_nonempty a b : b ≠ ""%string → orElse a b ≠ ""%string.
Proof.
  intros Hb. unfold orElse.
  destruct (String.eqb a "") eqn:E; [done |].
  by apply String.eqb_neq in E.
Qed.

(** X1.  The team names are never blank: whatever the payload holds, each name
    is a non-empty string (at worst ["Unknown"]). *)
Theorem extractTeams_never_blank m :
  (extractTeams m).1 ≠ ""%string ∧ (extractTeams m).2 ≠ ""%string.
Proof.
  unfold extractTeams.
  destruct (parts m) as [[|p0 [|p1 ps]]|]; simpl;
    split; by apply orElse_nonempty.
Qed.

Lemma find_unique {A} (f : A → bool) (l : list A) (h : A) :
  In h l → f h = true → (∀ p, In p l → f p = true → p = h) →
  List.find f l = Some h.
Proof.
  induction l as [|x l IH]; simpl; [done |].
  intros Hin Hf Huniq.
  destruct (f x) eqn:E.
  - f_equal. apply Huniq; auto.
  - destruct Hin as [-> | Hin]; [congruence |].
    apply IH; auto.
Qed.

(** X2.  Location markers take precedence over position: when a participant
    array of at least two entries has exactly one entry marked home, the
    home name is read from that entry wherever it stands in the array
    (and likewise for away). *)
Theorem extractTeams_by_marker m ps h a :
  parts m = Some ps → (2 ≤ length ps)%nat →
  In h ps → marked "home" h = true →
  (∀ p, In p ps → marked "home" p = true → p = h) →
  In a ps → marked "away" a = true →
  (∀ p, In p ps → marked "away" p = true → p = a) →
  extractTeams m =
    (orElse (nameOf h (localteam_name m)) "Unknown",
     orElse (nameOf a (visitorteam_name m)) "Unknown").
Proof.
  intros Hp Hlen Hh Hmh Huh Ha Hma Hua.
  unfold extractTeams. rewrite Hp.
  destruct ps as [|p0 [|p1 ps']]; simpl in Hlen; [lia | lia |].
  cbv beta iota zeta.
  by rewrite (find_unique _ _ h Hh Hmh Huh), (find_unique _ _ a Ha Hma Hua).
Qed.

Lemma extractTeams_by_marker_witness :
  extractTeams awayFirst =
    (orElse (nameOf homeSide (localteam_name awayFirst)) "Unknown",
     orElse (nameOf awaySide (visitorteam_name awayFirst)) "Unknown").
Proof.
  apply (extractTeams_by_marker awayFirst [awaySide; homeSide] homeSide awaySide).
  - reflexivity.
  - simpl. lia.
  - right. left. reflexivity.
  - reflexivity.
  - intros p [<- | [<- | []]]; [discriminate | reflexivity].
  - left. reflexivity.
  - reflexivity.
  - intros p [<- | [<- | []]]; [reflexivity | discriminate].
Defined.

End TeamsProps.

(** * Properties of polling histories *)

Module PollsProps.
Import Adapter Polls AdapterProps.

(** ** One match at a time *)

Lemma run_cons cfg σ now raw rest :
  run cfg σ ((now, raw) :: rest) =
    ((normalizeSmMatch cfg now raw σ).1
       :: (run cfg (normalizeSmMatch cfg now raw σ).2 rest).1,
     (run cfg (normalizeSmMatch cfg now raw σ).2 rest).2).
Proof.
  cbn [run]. destruct (normalizeSmMatch cfg now raw σ) as [o σ1].
  cbn [fst snd]. by destruct (run cfg σ1 rest) as [os σ2].
Qed.

Lemma normalizeSmMatch_chg cfg now raw σ :
  lastRawMinuteChange (normalizeSmMatch cfg now raw σ).2 =
    (trackRawChange now (raw_id raw) (extractMinute cfg now raw)
       (lastRawMinuteChange σ)).2.
Proof.
  unfold normalizeSmMatch.
  destruct (trackRawChange _ _ _ _) as [st chg].
  destruct (applyLastMinuteCache _ _ _ _ _) as [cm cache]. done.
Qed.

Lemma normalizeSmMatch_raw cfg now raw σ :
  raw_minute (normalizeSmMatch cfg now raw σ).1 = extractMinute cfg now raw.
Proof.
  unfold normalizeSmMatch.
  destruct (trackRawChange _ _ _ _) as [st chg].
  destruct (applyLastMinuteCache _ _ _ _ _) as [cm cache]. done.
Qed.

Lemma trackRawChange_other now m m' r chg :
  m ≠ m' → (trackRawChange now m r chg).2 !! m' = chg !! m'.
Proof.
  intros Hne. unfold trackRawChange.
  destruct (chg !! m) as [c|]; simpl; [| by rewrite lookup_insert_ne].
  destruct (negb _); simpl; [by rewrite lookup_insert_ne |].
  by destruct (_ && _).
Qed.

Lemma applyLastMinuteCache_local cfg now m mn c1 c2 :
  c1 !! m = c2 !! m →
  (applyLastMinuteCache cfg now m mn c1).1 = (applyLastMinuteCache cfg now m mn c2).1 ∧
  (applyLastMinuteCache cfg now m mn c1).2 !! m
    = (applyLastMinuteCache cfg now m mn c2).2 !! m.
Proof.
  intros H. unfold applyLastMinuteCache. rewrite H.
  destruct (mn >? 0); simpl.
  - destruct (c2 !! m) as [c|] eqn:E.
    + destruct (mn >? minute c); rewrite ?lookup_insert_eq; [done |].
      by rewrite E.
    + by rewrite !lookup_insert_eq.
  - rewrite <- H. destruct (c1 !! m) as [c|] eqn:E; [destruct (_ <? _) |];
      simpl; by rewrite E.
Qed.

Lemma trackRawChange_local now m r c1 c2 :
  c1 !! m = c2 !! m →
  (trackRawChange now m r c1).1 = (trackRawChange now m r c2).1 ∧
  (trackRawChange now m r c1).2 !! m = (trackRawChange now m r c2).2 !! m.
Proof.
  intros H. unfold trackRawChange. rewrite H.
  destruct (c2 !! m) as [c|] eqn:E; simpl; [| by rewrite !lookup_insert_eq].
  destruct (negb _); simpl; [by rewrite !lookup_insert_eq |].
  destruct (_ && _); simpl; by rewrite H.
Qed.

Lemma trackNormalized_local now m n c1 c2 :
  c1 !! m = c2 !! m →
  trackNormalized now m n c1 !! m = trackNormalized now m n c2 !! m.
Proof.
  intros H. unfold trackNormalized. rewrite H.
  destruct (n >? 0); [| by rewrite <- H].
  destruct (c2 !! m) as [c|] eqn:E; [| by rewrite !lookup_insert_eq].
  destruct (n >? minute c); rewrite ?lookup_insert_eq; [done |].
  by rewrite E.
Qed.

Lemma normalizeSmMatch_view_other cfg now raw σ m :
  raw_id raw ≠ m → viewOf m (normalizeSmMatch cfg now raw σ).2 = viewOf m σ.
Proof.
  intros Hne. unfold viewOf.
  rewrite normalizeSmMatch_cache, normalizeSmMatch_norm, normalizeSmMatch_chg.
  by rewrite applyLastMinuteCache_other, trackNormalized_other,
    trackRawChange_other.
Qed.

Lemma normalizeSmMatch_view_same cfg now raw σ1 σ2 :
  viewOf (raw_id raw) σ1 = viewOf (raw_id raw) σ2 →
  (normalizeSmMatch cfg now raw σ1).1 = (normalizeSmMatch cfg now raw σ2).1 ∧
  viewOf (raw_id raw) (normalizeSmMatch cfg now raw σ1).2
    = viewOf (raw_id raw) (normalizeSmMatch cfg now raw σ2).2.
Proof.
  unfold viewOf. intros [= Hc Hn Hr].
  set (r := extractMinute cfg now raw).
  destruct (applyLastMinuteCache_local cfg now (raw_id raw) r _ _ Hc) as [Hc1 Hc2].
  destruct (trackRawChange_local now (raw_id raw) r _ _ Hr) as [Hr1 Hr2].
  assert (Hm : minute_out (normalizeSmMatch cfg now raw σ1).1
               = minute_out (normalizeSmMatch cfg now raw σ2).1).
  { rewrite !normalizeSmMatch_minute. cbv zeta. fold r. by rewrite Hc1, Hr1, Hn. }
  split.
  - pose proof (normalizeSmMatch_id cfg now raw σ1) as I1.
    pose proof (normalizeSmMatch_id cfg now raw σ2) as I2.
    pose proof (normalizeSmMatch_raw cfg now raw σ1) as R1.
    pose proof (normalizeSmMatch_raw cfg now raw σ2) as R2.
    destruct (normalizeSmMatch cfg now raw σ1).1, (normalizeSmMatch cfg now raw σ2).1.
    simpl in *. congruence.
  - rewrite !normalizeSmMatch_cache, !normalizeSmMatch_norm, !normalizeSmMatch_chg.
    fold r. rewrite Hc2, Hr2, Hm.
    by rewrite (trackNormalized_local now (raw_id raw) _ _ _ Hn).
Qed.

Lemma run_per_match cfg m polls : ∀ σ1 σ2,
  viewOf m σ1 = viewOf m σ2 →
  minutesOf m (run cfg σ1 polls).1 = minute_out <$> (run cfg σ2 (pollsOf m polls)).1.
Proof.
  unfold minutesOf, pollsOf.
  induction polls as [|[now raw] rest IH]; intros σ1 σ2 Hv; [done |].
  rewrite run_cons. cbn [fst].
  rewrite !filter_cons. cbn [snd].
  rewrite normalizeSmMatch_id.
  destruct (decide (raw_id raw = m)) as [<- | Hne].
  - destruct (normalizeSmMatch_view_same cfg now raw σ1 σ2 Hv) as [Ho Hv'].
    rewrite run_cons. cbn [fst]. rewrite !fmap_cons. f_equal.
    + by rewrite Ho.
    + by apply IH.
  - apply IH. by rewrite normalizeSmMatch_view_other.
Qed.

(** X3.  Matches do not interfere: the minutes returned for one match over
    any polling history are the minutes the adapter returns when it is
    fed the polls of that match alone. *)
Theorem minutes_depend_on_own_polls cfg σ m polls :
  minutesOf m (run cfg σ polls).1
    = minute_out <$> (run cfg σ (pollsOf m polls)).1.
Proof. by apply run_per_match. Qed.

(** ** Caches only move forward *)

Lemma continues_refl o : continues o o.
Proof. destruct o as [e|]; simpl; auto. split; [lia | done]. Qed.

Lemma continues_trans o1 o2 o3 :
  continues o1 o2 → continues o2 o3 → continues o1 o3.
Proof.
  destruct o1 as [e1|], o2 as [e2|], o3 as [e3|]; simpl; try tauto.
  intros [H1 H1'] [H2 H2']. split; [lia |].
  intros E. assert (minute e2 = minute e1) as E1 by lia.
  rewrite <- (H1' E1). apply H2'. lia.
Qed.

Lemma applyLastMinuteCache_continues cfg now m mn cache m' :
  continues (cache !! m') ((applyLastMinuteCache cfg now m mn cache).2 !! m').
Proof.
  destruct (decide (m = m')) as [<- | Hne];
    [| rewrite applyLastMinuteCache_other by done; apply continues_refl].
  rewrite applyLastMinuteCache_written.
  destruct (mn >? 0); simpl; [| apply continues_refl].
  destruct (cache !! m) as [c|] eqn:E; [| done].
  destruct (mn >? minute c) eqn:G; [| rewrite E; apply (continues_refl (Some c))].
  rewrite lookup_insert_eq. simpl. zbool. split; simpl; lia.
Qed.

Lemma trackNormalized_continues now m n norm m' :
  continues (norm !! m') (trackNormalized now m n norm !! m').
Proof.
  destruct (decide (m = m')) as [<- | Hne];
    [| rewrite trackNormalized_other by done; apply continues_refl].
  unfold trackNormalized.
  destruct (n >? 0); [| apply continues_refl].
  destruct (norm !! m) as [c|] eqn:E; [| done].
  destruct (n >? minute c) eqn:G; [| rewrite E; apply (continues_refl (Some c))].
  rewrite lookup_insert_eq. simpl. zbool. split; simpl; lia.
Qed.

(** X4.  Over any polling history the cache entry and the guard anchor of
    every match only move forward: an entry is never removed, its minute
    never goes down, and its time stamp changes only when its minute goes
    up. *)
Theorem caches_only_move_forward cfg polls : ∀ σ m,
  continues (lastMinuteCache σ !! m) (lastMinuteCache (run cfg σ polls).2 !! m) ∧
  continues (lastNormalizedMinute σ !! m)
            (lastNormalizedMinute (run cfg σ polls).2 !! m).
Proof.
  induction polls as [|[now raw] rest IH]; intros σ m.
  - split; apply continues_refl.
  - rewrite run_cons. cbn [snd].
    destruct (IH (normalizeSmMatch cfg now raw σ).2 m) as [IH1 IH2].
    split.
    + eapply continues_trans; [| exact IH1].
      rewrite normalizeSmMatch_cache. apply applyLastMinuteCache_continues.
    + eapply continues_trans; [| exact IH2].
      rewrite normalizeSmMatch_norm. apply trackNormalized_continues.
Qed.

(** ** Fresh positive minutes *)

(** X5.  A positive raw minute is never lowered: the normalised minute is at
    least the raw minute, and equals it unless the raw minute is flagged
    stale (whatever was returned for the match before). *)
Theorem positive_raw_minute_kept cfg now raw σ :
  0 < extractMinute cfg now raw →
  extractMinute cfg now raw ≤ minute_out (normalizeSmMatch cfg now raw σ).1 ∧
  (staleAt cfg now raw σ = false →
   minute_out (normalizeSmMatch cfg now raw σ).1 = extractMinute cfg now raw).
Proof.
  intros Hpos. rewrite normalizeSmMatch_minute. cbv zeta.
  rewrite applyLastMinuteCache_positive by done.
  unfold staleAt.
  set (r := extractMinute cfg now raw) in *.
  destruct (trackRawChange _ _ _ _).1; unfold guardMinute;
    destruct (r =? 0) eqn:E0; zbool; try lia;
    destruct (r >? 0) eqn:E1; zbool; try lia; simpl;
    destruct (lastNormalizedMinute σ !! raw_id raw) as [p|];
    try destruct (minute p >? 0); split; (lia || done).
Qed.

Lemma positive_raw_minute_kept_witness :
  let raw := feed "m1" 27 in
  let σ := (normalizeSmMatch defaultConfig 0 (feed "m1" 40) initial).2 in
  0 < extractMinute defaultConfig 1000 raw ∧
  minute_out (normalizeSmMatch defaultConfig 1000 raw σ).1 = 27.
Proof.
  cbv zeta. split; [reflexivity |].
  apply (proj2 (positive_raw_minute_kept defaultConfig 1000 (feed "m1" 27) _
                  ltac:(reflexivity))).
  reflexivity.
Defined.

(** ** Staleness *)

Lemma trackRawChange_records now m r chg :
  rawMinute <$> (trackRawChange now m r chg).2 !! m = Some r.
Proof.
  unfold trackRawChange.
  destruct (chg !! m) as [c|] eqn:E; simpl; [| by rewrite lookup_insert_eq].
  destruct (rawMinute c =? r) eqn:G; simpl; [| by rewrite lookup_insert_eq].
  zbool. destruct (_ && _); simpl; rewrite E; simpl; congruence.
Qed.

Lemma trackRawChange_stale now m r chg :
  (trackRawChange now m r chg).1 = true →
  0 < r ∧ ∃ c, chg !! m = Some c ∧ rawMinute c = r
               ∧ STALE_MINUTE_THRESHOLD_MS < now - changedAt c.
Proof.
  unfold trackRawChange.
  destruct (chg !! m) as [c|]; [| done].
  destruct (rawMinute c =? r) eqn:G; simpl; [| done].
  destruct (r >? 0) eqn:G1; simpl; [| done].
  destruct (_ >? STALE_MINUTE_THRESHOLD_MS) eqn:G2; simpl; [| done].
  intros _. zbool. split; [done |]. by exists c.
Qed.

Lemma run_view_others cfg m others : ∀ σ,
  Forall (λ p, raw_id p.2 ≠ m) others →
  viewOf m (run cfg σ others).2 = viewOf m σ.
Proof.
  induction others as [|[now raw] rest IH]; intros σ Hall; [done |].
  apply Forall_cons_1 in Hall as [Hne Hall]. simpl in Hne.
  rewrite run_cons. cbn [snd]. rewrite IH by done.
  by apply normalizeSmMatch_view_other.
Qed.

(** X6.  A raw minute is flagged stale only when it is positive and equal
    to the raw minute of the previous poll of the same match: a change of
    the raw minute, in either direction, is never stale, whatever the
    polls of other matches in between. *)
Theorem stale_only_when_unchanged cfg σ t1 raw1 others t2 raw2 :
  raw_id raw2 = raw_id raw1 →
  Forall (λ p, raw_id p.2 ≠ raw_id raw1) others →
  staleAt cfg t2 raw2 (run cfg (normalizeSmMatch cfg t1 raw1 σ).2 others).2 = true →
  extractMinute cfg t2 raw2 = extractMinute cfg t1 raw1 ∧
  0 < extractMinute cfg t2 raw2.
Proof.
  intros Hid Hothers Hstale. unfold staleAt in Hstale.
  apply trackRawChange_stale in Hstale as (Hpos & c & Hc & Hr & _).
  split; [| done].
  pose proof (run_view_others cfg (raw_id raw1) others
                (normalizeSmMatch cfg t1 raw1 σ).2 Hothers) as Hv.
  unfold viewOf in Hv. injection Hv as _ _ Hv.
  rewrite Hid, Hv, normalizeSmMatch_chg in Hc.
  pose proof (trackRawChange_records t1 (raw_id raw1) (extractMinute cfg t1 raw1)
                (lastRawMinuteChange σ)) as Hrec.
  rewrite Hc in Hrec. simpl in Hrec. congruence.
Qed.

Lemma stale_only_when_unchanged_witness :
  extractMinute defaultConfig 31001 (feed "m1" 27)
    = extractMinute defaultConfig 0 (feed "m1" 27) ∧
  0 < extractMinute defaultConfig 31001 (feed "m1" 27).
Proof.
  apply (stale_only_when_unchanged defaultConfig initial 0 (feed "m1" 27)
           [(10000, feed "m2" 5)] 31001 (feed "m1" 27)).
  - reflexivity.
  - apply List.Forall_cons; [| apply List.Forall_nil]. simpl. discriminate.
  - vm_compute. reflexivity.
Defined.

End PollsProps.

(** * Properties of the client's minute extraction *)

Module ClientMinuteProps.
Import Client ClientMinute.

Ltac zb :=
  repeat match goal with
  | H : (_ >? _) = true |- _ => apply Z.gtb_lt in H
  | H : (_ >? _) = false |- _ => rewrite Z.gtb_ltb in H; apply Z.ltb_ge in H
  | H : (_ <? _) = true |- _ => apply Z.ltb_lt in H
  | H : (_ <? _) = false |- _ => apply Z.ltb_ge in H
  | H : (_ =? _) = true |- _ => apply Z.eqb_eq in H
  | H : (_ =? _) = false |- _ => apply Z.eqb_neq in H
  end.



Lemma foldl_max_ge (l : list (option Z)) : ∀ a,
  a ≤ foldl (λ mx ev, match ev with
                      | Some mn => if mn >? mx then mn else mx
                      | None => mx
                      end) a l.
Proof.
  induction l as [|[v|] l IH]; intros a; simpl; [lia | | apply IH].
  destruct (v >? a) eqn:E; zb; [| apply IH].
  specialize (IH v). lia.
Qed.

Lemma foldl_max_elem (l : list (option Z)) : ∀ a v,
  Some v ∈ l →
  v ≤ foldl (λ mx ev, match ev with
                      | Some mn => if mn >? mx then mn else mx
                      | None => mx
                      end) a l.
Proof.
  induction l as [|x l IH]; intros a v Hin; [by apply elem_of_nil in Hin |].
  apply elem_of_cons in Hin as [<- | Hin]; simpl.
  - destruct (v >? a) eqn:E; zb.
    + apply foldl_max_ge.
    + pose proof (foldl_max_ge l a). lia.
  - by apply IH.
Qed.

Lemma foldl_max_in (l : list (option Z)) : ∀ a,
  let r := foldl (λ mx ev, match ev with
                           | Some mn => if mn >? mx then mn else mx
                           | None => mx
                           end) a l in
  r = a ∨ Some r ∈ l.
Proof.
  induction l as [|[v|] l IH]; intros a; simpl; [by left | |].
  - destruct (v >? a).
    + destruct (IH v) as [-> | H]; right; [left | by right].
    + destruct (IH a) as [-> | H]; [by left | right; by right].
  - destruct (IH a) as [-> | H]; [by left | right; by right].
Qed.



(** X8.  When no explicit field carries a positive number and the minute
    of the first period does not compare above 0 (it is absent, a number
    that is not positive, or a value of another type for which [> 0]
    fails), the client reads the largest minute among the first ten
    events: the result is one of those minutes and no event among the ten
    has a larger one.  (A period minute of another type that does compare
    above 0, such as the string ["45"], is taken instead of the events and
    then discarded for not being a number: see
    [string_period_minute_hides_events].) *)
Theorem extractMinuteStrong_events_max cfg now raw v :
  USE_PERIODS_EVENTS_FALLBACK cfg = true →
  positiveNumber (time_minute raw) = None →
  positiveNumber (time_minutes raw) = None →
  positiveNumber (time_current_minute raw) = None →
  positiveNumber (live_minute raw) = None →
  from_option looseGt0 false (periods0_minute raw) = false →
  Some v ∈ take 10 (events raw) → 0 < v →
  v ≤ extractMinuteStrong cfg now raw ∧
  Some (extractMinuteStrong cfg now raw) ∈ take 10 (events raw).
Proof.
  intros Hflag H1 H2 H3 H4 Hp Hin Hpos.
  unfold extractMinuteStrong. rewrite H1, H2, H3, H4, Hflag.
  assert (Hm : minuteFromPeriodsOrEvents raw
                 = Some (looseNumber (maxEventMinute (events raw)))
               ∧ 0 < maxEventMinute (events raw)).
  { pose proof (foldl_max_elem (take 10 (events raw)) 0 v Hin) as Hge.
    fold (maxEventMinute (events raw)) in Hge.
    unfold minuteFromPeriodsOrEvents. cbv zeta.
    destruct (maxEventMinute (events raw) >? 0) eqn:E; zb; [| lia].
    split; [| done].
    destruct (periods0_minute raw) as [w|]; [| done].
    simpl in Hp. by rewrite Hp. }
  destruct Hm as [-> Hmax]. simpl.
  destruct (maxEventMinute (events raw) >? 0) eqn:E; zb; [| lia].
  split.
  - apply (foldl_max_elem (take 10 (events raw)) 0 v Hin).
  - destruct (foldl_max_in (take 10 (events raw)) 0) as [H0 | H]; [| exact H].
    unfold maxEventMinute in Hmax. lia.
Qed.

Lemma extractMinuteStrong_events_max_witness :
  31 ≤ extractMinuteStrong defaultConfig 0
         (eventsOnly [Some 12; None; Some 31; Some 7]).
Proof.
  apply (proj1 (extractMinuteStrong_events_max defaultConfig 0
                  (eventsOnly [Some 12; None; Some 31; Some 7]) 31
                  eq_refl eq_refl eq_refl eq_refl eq_refl eq_refl
                  ltac:(cbn; repeat constructor) ltac:(lia))).
Defined.

(** The same events behind a period minute given as the string ["45"]: the
    string passes [> 0], is returned by [minuteFromPeriodsOrEvents], fails
    the [typeof] test of [extractMinuteStrong], and the events are never
    read; without a kick-off time the result is 0. *)
Example string_period_minute_hides_events :
  minuteFromPeriodsOrEvents (stringPeriod [Some 12; None; Some 31; Some 7])
    = Some (looseOther true) ∧
  extractMinuteStrong defaultConfig 0
    (stringPeriod [Some 12; None; Some 31; Some 7]) = 0 ∧
  extractMinuteStrong defaultConfig 0
    (eventsOnly [Some 12; None; Some 31; Some 7]) = 31.
Proof. vm_compute. done. Qed.

(** ** The two caches *)

(** X9.  The client's change tracker moves exactly when a positive minute
    differs from the recorded one: a repeated minute, and a minute that is
    not positive, leave the tracker as it was; a changed minute (higher or
    lower) is recorded with the current time. *)
Theorem change_cache_moves_on_change sec now m mn σ :
  let chg' := lastChangeCache (applyLastMinuteCache sec now m mn σ).2 in
  (mn ≤ 0 ∨ (minute <$> lastChangeCache σ !! m) = Some mn →
   chg' = lastChangeCache σ) ∧
  (0 < mn → (minute <$> lastChangeCache σ !! m) ≠ Some mn →
   chg' = <[m := {| minute := mn; timestamp := now |}]> (lastChangeCache σ)).
Proof.
  cbv zeta. unfold applyLastMinuteCache. split.
  - intros H. destruct (mn >? 0) eqn:E; simpl.
    + zb. destruct H as [H | H]; [lia |].
      destruct (lastChangeCache σ !! m) as [pc|]; [| done].
      simpl in H. injection H as ->. by rewrite Z.eqb_refl.
    + destruct (lastMinuteCache σ !! m) as [c|]; [destruct (_ <? _) |]; done.
  - intros Hpos Hne. destruct (mn >? 0) eqn:E; [| zb; lia]. simpl.
    destruct (lastChangeCache σ !! m) as [pc|]; [| done].
    destruct (mn =? minute pc) eqn:G; [| done].
    zb. simpl in Hne. congruence.
Qed.

Lemma change_cache_moves_on_change_witness :
  let σ := (applyLastMinuteCache 90 1000 "m1" 27 initial).2 in
  lastChangeCache (applyLastMinuteCache 90 5000 "m1" 27 σ).2 = lastChangeCache σ ∧
  lastChangeCache (applyLastMinuteCache 90 5000 "m1" 26 σ).2
    = <["m1" := {| minute := 26; timestamp := 5000 |}]> (lastChangeCache σ).
Proof.
  cbv zeta. split.
  - apply (proj1 (change_cache_moves_on_change 90 5000 "m1" 27 _)).
    right. reflexivity.
  - apply (proj2 (change_cache_moves_on_change 90 5000 "m1" 26 _)); [lia |].
    vm_compute. discriminate.
Defined.

(** X10.  Store and read back: after a positive minute [v] is seen at time
    [t], a poll without a minute at a later time [t'] returns [v] plus the
    whole minutes elapsed (at most 130) as long as less than
    [LAST_MINUTE_CACHE_SEC] seconds have passed, and 0 from then on; the
    read changes neither cache. *)
Theorem client_cache_round_trip sec t t' m v σ :
  0 < v → t ≤ t' →
  let σ1 := (applyLastMinuteCache sec t m v σ).2 in
  let r := applyLastMinuteCache sec t' m 0 σ1 in
  r.2 = σ1 ∧
  (t' - t < 1000 * sec →
   cr_minute r.1 = Z.min 130 (v + (t' - t) / 60000) ∧ usedCache r.1 = true) ∧
  (1000 * sec ≤ t' - t → cr_minute r.1 = 0 ∧ usedCache r.1 = false).
Proof.
  intros Hv Ht. cbv zeta.
  pose proof (ClientProps.client_cache_always_rewritten sec t m v σ Hv) as Hc.
  set (σ1 := (applyLastMinuteCache sec t m v σ).2) in *.
  unfold applyLastMinuteCache. simpl. rewrite Hc. simpl.
  assert (Hdiv : (t' - t) / 1000 / 60 = (t' - t) / 60000)
    by (rewrite Z.div_div by lia; done).
  assert (0 ≤ (t' - t) / 60000) by (apply Z.div_pos; lia).
  destruct (t' - t <? 1000 * sec) eqn:G; zb; simpl;
    (split; [done |]); split; intros Hlt.
  - rewrite Hdiv. split; [lia | done].
  - exfalso. lia.
  - exfalso. lia.
  - done.
Qed.

Lemma client_cache_round_trip_witness :
  let σ1 := (applyLastMinuteCache 90 1000 "m1" 27 initial).2 in
  cr_minute (applyLastMinuteCache 90 62000 "m1" 0 σ1).1 = Z.min 130 (27 + 61000 / 60000).
Proof.
  cbv zeta.
  apply (proj1 (proj2 (client_cache_round_trip 90 1000 62000 "m1" 27 initial
                         ltac:(lia) ltac:(lia)))).
  lia.
Defined.

(** ** The minute of a processed match *)

Lemma applyLastMinuteCache_positiveCache sec now m mn σ :
  positiveCache σ → positiveCache (applyLastMinuteCache sec now m mn σ).2.
Proof.
  intros Hσ. unfold applyLastMinuteCache.
  destruct (mn >? 0) eqn:E.
  - intros m' e. simpl. destruct (decide (m = m')) as [<- | Hne].
    + rewrite lookup_insert_eq. intros [= <-]. simpl. zb. done.
    + rewrite lookup_insert_ne by done. apply Hσ.
  - destruct (lastMinuteCache σ !! m) as [c|]; [destruct (_ <? _) |]; done.
Qed.

Lemma applyLastMinuteCache_nonneg sec now m mn σ :
  positiveCache σ → 0 ≤ cr_minute (applyLastMinuteCache sec now m mn σ).1.
Proof.
  intros Hσ. unfold applyLastMinuteCache.
  destruct (mn >? 0) eqn:E; [simpl; zb; lia |].
  destruct (lastMinuteCache σ !! m) as [c|] eqn:Hc; [| simpl; lia].
  apply Hσ in Hc. destruct (_ <? _); simpl; lia.
Qed.

Lemma fetchFixtureFallback_nonneg cfg now2 fixture :
  0 ≤ fetchFixtureFallback cfg now2 fixture.
Proof.
  unfold fetchFixtureFallback.
  destruct (USE_FIXTURE_FALLBACK cfg); [| lia].
  destruct fixture as [f|]; [| lia]. cbv zeta.
  destruct (_ >? 0) eqn:E; zb; lia.
Qed.

(** X11.  Starting from caches that hold only positive minutes (as the empty
    caches do), processing a match yields a minute that is never negative
    and leaves caches that again hold only positive minutes. *)
Theorem processMatchData_minute_nonneg cfg now now2 m raw fixture σ :
  positiveCache σ →
  0 ≤ (processMatchData cfg now now2 m raw fixture σ).1 ∧
  positiveCache (processMatchData cfg now now2 m raw fixture σ).2.
Proof.
  intros Hσ. unfold processMatchData.
  pose proof (applyLastMinuteCache_nonneg (LAST_MINUTE_CACHE_SEC cfg) now m
                (extractMinuteStrong cfg now raw) σ Hσ) as H1.
  pose proof (applyLastMinuteCache_positiveCache (LAST_MINUTE_CACHE_SEC cfg) now m
                (extractMinuteStrong cfg now raw) σ Hσ) as H2.
  destruct (applyLastMinuteCache _ now m _ σ) as [cr σ1]. simpl in H1, H2.
  destruct (_ && _); [| done]. cbv zeta.
  destruct (_ >? 0) eqn:E; [| done]. zb. simpl. split; [lia |].
  by apply applyLastMinuteCache_positiveCache.
Qed.

Lemma processMatchData_minute_nonneg_witness :
  0 ≤ (processMatchData defaultConfig 5000 5200 "m1" (feed 0) None initial).1.
Proof.
  apply (proj1 (processMatchData_minute_nonneg defaultConfig 5000 5200 "m1"
                  (feed 0) None initial
                  ltac:(intros m e; simpl; rewrite lookup_empty; discriminate))).
Defined.



End ClientMinuteProps.

(** * Properties of the learning rules *)

Module LearningProps.
Import RLAgent Learning RLAgentProps.
Local Open Scope Q_scope.

(** ** The greedy choice *)

Lemma mathMax_spec row :
  row ≠ [] → ∃ m, mathMax row = Some m ∧ In m row ∧ ∀ x, In x row → x <= m.
Proof.
  induction row as [|x rest IH]; [done | intros _].
  destruct rest as [|y rest'].
  - exists x. simpl. split; [done |]. split; [by left |].
    intros z [<- | []]. lra.
  - destruct IH as (m & Hm & Hin & Hmax); [done |].
    change (mathMax (x :: y :: rest')) with
      (match mathMax (y :: rest') with
       | None => Some x
       | Some m => Some (if Qltb x m then m else x)
       end).
    rewrite Hm. destruct (Qltb x m) eqn:E.
    + exists m. split; [done |]. split; [by right |].
      apply Qltb_true in E. intros z [<- | Hz]; [lra | by apply Hmax].
    + exists x. split; [done |]. split; [by left |].
      apply Qltb_false in E. intros z [<- | Hz]; [lra |].
      specialize (Hmax z Hz). lra.
Qed.

Lemma indexOfFrom_spec v row : ∀ k,
  (∃ x, In x row ∧ x == v) →
  ∃ i x, indexOfFrom k v row = (k + Z.of_nat i)%Z ∧ row !! i = Some x ∧ x == v ∧
         ∀ j y, (j < i)%nat → row !! j = Some y → ¬ y == v.
Proof.
  induction row as [|a rest IH]; intros k (x & Hin & Hx); [done |].
  simpl. destruct (Qeq_bool a v) eqn:E.
  - exists 0%nat, a. apply Qeq_bool_iff in E.
    repeat split; [f_equal; lia | done |]. intros j y Hj. lia.
  - destruct Hin as [-> | Hin].
    { apply Qeq_bool_iff in Hx. congruence. }
    destruct (IH (k + 1)%Z) as (i & z & Hi & Hz & Hzv & Hfirst); [by exists x |].
    exists (S i), z. repeat split; [rewrite Hi; lia | done | done |].
    intros [|j] y Hj; simpl.
    + intros [= <-] Hav. apply Qeq_bool_iff in Hav. congruence.
    + apply Hfirst. lia.
Qed.

Lemma argmax_spec row :
  row ≠ [] →
  ∃ i v, argmax row = Z.of_nat i ∧ row !! i = Some v ∧
         (∀ x, In x row → x <= v) ∧
         (∀ j y, (j < i)%nat → row !! j = Some y → y < v).
Proof.
  intros Hne. destruct (mathMax_spec row Hne) as (m & Hm & Hin & Hmax).
  unfold argmax, indexOf. rewrite Hm.
  destruct (indexOfFrom_spec m row 0%Z) as (i & v & Hi & Hv & Hvm & Hfirst).
  { exists m. split; [done | reflexivity]. }
  exists i, v. split; [by rewrite Hi |]. split; [done |]. split.
  - intros x Hx. specialize (Hmax x Hx). lra.
  - intros j y Hj Hy.
    assert (y <= m) by (apply Hmax, list_elem_of_In; by eapply list_elem_of_lookup_2).
    specialize (Hfirst j y Hj Hy).
    destruct (Qlt_le_dec y m) as [Hlt | Hge]; [lra |].
    exfalso. apply Hfirst. lra.
Qed.

(** X13.  The greedy choice is the first maximum of the row: on a non-empty
    row [argmax] is an index of the row, no entry of the row is larger
    than the entry it points to, and every earlier entry is strictly
    smaller. *)
Theorem argmax_first_maximum row :
  row ≠ [] →
  ∃ i v, argmax row = Z.of_nat i ∧ row !! i = Some v ∧
         (∀ x, In x row → x <= v) ∧
         (∀ j y, (j < i)%nat → row !! j = Some y → y < v).
Proof. apply argmax_spec. Qed.

Lemma argmax_first_maximum_witness :
  ∃ i v, argmax [0; 1 # 2; 1 # 2; 0; 0] = Z.of_nat i ∧
         [0; 1 # 2; 1 # 2; 0; 0] !! i = Some v ∧
         (∀ x, In x [0; 1 # 2; 1 # 2; 0; 0] → x <= v) ∧
         (∀ j y, (j < i)%nat → [0; 1 # 2; 1 # 2; 0; 0] !! j = Some y → y < v).
Proof. apply (argmax_first_maximum [0; 1 # 2; 1 # 2; 0; 0]). discriminate. Defined.

(** ** Rewards and priorities *)

Lemma Qmin_cases x y : (Qmin x y == x ∧ x <= y) ∨ (Qmin x y == y ∧ y <= x).
Proof.
  destruct (Q.min_spec x y) as [[H1 H2] | [H1 H2]]; [left | right]; split;
    (done || lra).
Qed.

Lemma Qmax_cases x y : (Qmax x y == y ∧ x <= y) ∨ (Qmax x y == x ∧ y <= x).
Proof.
  destruct (Q.max_spec x y) as [[H1 H2] | [H1 H2]]; [left | right]; split;
    (done || lra).
Qed.

Lemma baseReward_won (profit : option Q) :
  let b := match profit with
           | Some p => if Qltb 0 p then 1 + Qmin (p / 100) (1 # 2) else 1
           | None => 1
           end in
  1 <= b <= 15 # 10.
Proof.
  cbv zeta. destruct profit as [p|]; [| lra].
  destruct (Qltb 0 p) eqn:E; [| lra].
  apply Qltb_true in E.
  assert (0 <= p / 100) by (apply Qle_shift_div_l; [reflexivity | lra]).
  destruct (Qmin_cases (p / 100) (1 # 2)) as [[-> ?] | [-> ?]]; lra.
Qed.

Lemma baseReward_lost (profit : option Q) :
  let b := match profit with
           | Some p => if Qltb p 0 then -1 + Qmax (p / 100) (- (1 # 2)) else -1
           | None => -1
           end in
  - (15 # 10) <= b <= -1.
Proof.
  cbv zeta. destruct profit as [p|]; [| lra].
  destruct (Qltb p 0) eqn:E; [| lra].
  apply Qltb_true in E.
  assert (p / 100 <= 0) by (apply Qle_shift_div_r; [reflexivity | lra]).
  destruct (Qmax_cases (p / 100) (- (1 # 2))) as [[-> ?] | [-> ?]]; lra.
Qed.

Section Rewards.

Context {Features : Type}.

Lemma calculateAdvancedReward_range result profit (sa : option (@Pending Features)) :
  match result with
  | won => 1 <= calculateAdvancedReward result profit sa <= 17 # 10
  | lost => - (18 # 10) <= calculateAdvancedReward result profit sa <= -1
  | expired => calculateAdvancedReward result profit sa == - (2 # 10)
  end.
Proof.
  pose proof (baseReward_won profit) as Hw.
  pose proof (baseReward_lost profit) as Hl.
  cbv zeta in Hw, Hl.
  unfold calculateAdvancedReward.
  destruct result.
  - destruct sa as [sa|]; [| lra].
    destruct (originalConfidence sa) as [oc|]; [| lra].
    destruct (Qeq_bool oc 0); [lra |].
    destruct (Qltb (oc / 100) (6 # 10)); lra.
  - destruct sa as [sa|]; [| lra].
    destruct (originalConfidence sa) as [oc|]; [| lra].
    destruct (Qeq_bool oc 0); [lra |].
    destruct (Qltb (8 # 10) (oc / 100)); lra.
  - destruct sa as [sa|]; [| reflexivity].
    destruct (originalConfidence sa) as [oc|]; [| reflexivity].
    destruct (Qeq_bool oc 0); reflexivity.
Qed.

(** X14.  The reward carries the outcome in its sign and stays in a fixed
    band: a win is rewarded between 1 and 1.7, a loss between -1.8 and
    -1, an expiry exactly -0.2, whatever the profit and the recorded
    confidence. *)
Theorem reward_sign_and_range result profit (sa : option (@Pending Features)) :
  match result with
  | won => 1 <= calculateAdvancedReward result profit sa <= 17 # 10
  | lost => - (18 # 10) <= calculateAdvancedReward result profit sa <= -1
  | expired => calculateAdvancedReward result profit sa == - (2 # 10)
  end.
Proof. apply calculateAdvancedReward_range. Qed.

(** X15.  Every experience that [updateFromResult] stores has a priority of
    at least 0.1, so the prioritised sampler, which only keeps
    experiences of positive priority, never discards a fresh one. *)
Theorem stored_priority_positive result profit (sa : option (@Pending Features)) oc :
  1 # 10 <= calculatePriority (calculateAdvancedReward result profit sa) oc.
Proof.
  pose proof (calculateAdvancedReward_range result profit sa) as Hr.
  set (r := calculateAdvancedReward result profit sa) in *.
  assert (Habs : 1 # 10 <= Qabs r).
  { destruct result.
    - rewrite Qabs_pos; lra.
    - rewrite Qabs_neg; lra.
    - rewrite Qabs_neg; lra. }
  unfold calculatePriority.
  destruct oc as [c|]; [| done].
  destruct (Qeq_bool c 0); [done |]. cbv zeta.
  pose proof (Qabs_nonneg (r - (c / 100 * 2 - 1))). lra.
Qed.

End Rewards.

(** ** Bounded histories *)

Lemma sliceLast_length {A} n (l : list A) : length (sliceLast n l) = Nat.min n (length l).
Proof. unfold sliceLast. rewrite length_drop. lia. Qed.

Lemma pushCapped_sliceLast {A} (cap : nat) (x : A) (l : list A) :
  (length l ≤ cap)%nat →
  pushCapped (Z.of_nat cap) x l = sliceLast cap (l ++ [x]).
Proof.
  intros Hlen. unfold pushCapped, sliceLast. cbv zeta.
  rewrite length_app. simpl.
  destruct (Z.of_nat cap <? Z.of_nat (length l + 1))%Z eqn:E.
  - apply Z.ltb_lt in E. f_equal. lia.
  - apply Z.ltb_ge in E. replace (length l + 1 - cap)%nat with 0%nat by lia. done.
Qed.

Lemma sliceLast_snoc {A} n (x : A) (l : list A) :
  sliceLast n (sliceLast n l ++ [x]) = sliceLast n (l ++ [x]).
Proof.
  unfold sliceLast. rewrite !length_app, length_drop. simpl.
  destruct (decide (length l ≤ n)%nat) as [Hle | Hgt].
  - replace (length l - n)%nat with 0%nat by lia. simpl.
    by rewrite Nat.sub_0_r.
  - replace (length l - (length l - n) + 1 - n)%nat with 1%nat by lia.
    replace (length l + 1 - n)%nat with ((length l - n) + 1)%nat by lia.
    rewrite <- drop_drop. f_equal.
    rewrite drop_app_le by lia. done.
Qed.

Lemma foldl_pushCapped {A} (cap : nat) (xs : list A) : ∀ l,
  (length l ≤ cap)%nat →
  foldl (λ b x, pushCapped (Z.of_nat cap) x b) l xs = sliceLast cap (l ++ xs).
Proof.
  induction xs as [|x xs IH] using rev_ind; intros l Hlen.
  - rewrite app_nil_r. simpl. unfold sliceLast.
    replace (length l - cap)%nat with 0%nat by lia. done.
  - rewrite foldl_app. simpl. rewrite IH by done.
    rewrite pushCapped_sliceLast by (rewrite sliceLast_length; lia).
    by rewrite sliceLast_snoc, app_assoc.
Qed.

Section Buffer.

Context {Features : Type}.

(** X16.  The experience buffer is a sliding window: after any number of
    additions to an empty buffer it holds exactly the most recent
    [bufferSize] experiences, oldest first. *)
Theorem experience_buffer_window (cfg : Config) (es : list (@Experience Features)) :
  (0 <= bufferSize cfg)%Z →
  foldl (λ buf e, addExperience cfg e buf) [] es
    = sliceLast (Z.to_nat (bufferSize cfg)) es.
Proof.
  intros Hcap. unfold addExperience.
  pose proof (foldl_pushCapped (Z.to_nat (bufferSize cfg)) es []
                ltac:(simpl; lia)) as H.
  rewrite Z2Nat.id in H by done. exact H.
Qed.

End Buffer.

Lemma experience_buffer_window_witness :
  foldl (λ buf e, addExperience
                    {| learningRate := 1 # 1000; epsilonDecay := 9995 # 10000;
                       minEpsilon := 5 # 100; discountFactor := 95 # 100;
                       bufferSize := 2; targetUpdateFrequency := 1000;
                       doubleQLearning := true |} e buf) []
        [sample 1; sample 2; sample 3]
    = [sample 2; sample 3].
Proof.
  apply (experience_buffer_window
           {| learningRate := 1 # 1000; epsilonDecay := 9995 # 10000;
              minEpsilon := 5 # 100; discountFactor := 95 # 100;
              bufferSize := 2; targetUpdateFrequency := 1000;
              doubleQLearning := true |} [sample 1; sample 2; sample 3]).
  simpl. lia.
Defined.


(** ** Exploration rate *)

Lemma getRecentPerformance_range hist :
  0 <= getRecentPerformance hist <= 1.
Proof.
  unfold getRecentPerformance.
  destruct (length hist <? 10)%nat eqn:E; [lra |].
  apply Nat.ltb_ge in E. cbv zeta.
  set (recent := sliceLast 20 hist).
  assert (Hlen : (0 < length recent)%nat)
    by (unfold recent; rewrite sliceLast_length; lia).
  assert (Hcount : (length (List.filter (Qltb 0) recent) ≤ length recent)%nat)
    by apply List.filter_length_le.
  assert (Hd : 0 < inject_Z (Z.of_nat (length recent))).
  { change 0 with (inject_Z 0). rewrite <- Zlt_Qlt. lia. }
  split.
  - apply Qle_shift_div_l; [done |]. rewrite Qmult_0_l.
    change 0 with (inject_Z 0). rewrite <- Zle_Qle. lia.
  - apply Qle_shift_div_r; [done |]. rewrite Qmult_1_l.
    rewrite <- Zle_Qle. lia.
Qed.

(** X17.  The recent win rate is a fraction between 0 and 1, and it is the
    neutral 0.5 as long as fewer than ten results are recorded. *)
Theorem recent_performance_is_a_rate hist :
  0 <= getRecentPerformance hist <= 1 ∧
  ((length hist < 10)%nat → getRecentPerformance hist = 1 # 2).
Proof.
  split; [apply getRecentPerformance_range |].
  intros H. unfold getRecentPerformance.
  by destruct (Nat.ltb_spec (length hist) 10); [| lia].
Qed.

(** X18.  The exploration rate never leaves its band: with
    [0 <= minEpsilon <= 0.3] and a decay factor between 0 and 1, an
    [epsilon] between [minEpsilon] and 0.3 stays between them after
    [updateEpsilon], whatever the performance history. *)
Theorem epsilon_stays_in_band cfg eps hist :
  0 <= minEpsilon cfg <= 3 # 10 →
  0 <= epsilonDecay cfg <= 1 →
  minEpsilon cfg <= eps <= 3 # 10 →
  minEpsilon cfg <= updateEpsilon cfg eps hist <= 3 # 10.
Proof.
  intros Hmin Hdec Heps. unfold updateEpsilon. cbv zeta.
  assert (eps * epsilonDecay cfg <= eps).
  { nra. }
  destruct (Qltb (6 # 10) _).
  - destruct (Qmax_cases (minEpsilon cfg) (eps * (999 # 1000))) as [[-> ?] | [-> ?]]; lra.
  - destruct (Qltb _ (4 # 10)).
    + destruct (Qmin_cases (3 # 10) (eps * (101 # 100))) as [[-> ?] | [-> ?]]; lra.
    + destruct (Qmax_cases (minEpsilon cfg) (eps * epsilonDecay cfg)) as [[-> ?] | [-> ?]]; lra.
Qed.

Lemma epsilon_stays_in_band_witness :
  minEpsilon defaultConfig <= updateEpsilon defaultConfig (3 # 10) [1; -1] <= 3 # 10.
Proof.
  apply (epsilon_stays_in_band defaultConfig (3 # 10) [1; -1]);
    unfold defaultConfig; cbn; lra.
Defined.

(** ** Evaluation and learning *)

Lemma applyAction_cap action analysis :
  (applyAction action analysis).1.1 = true →
  (applyAction action analysis).1.2 <= 95 ∧
  (0 <= confidence analysis →
   (applyAction action analysis).1.2 <= confidence analysis * (115 # 100)).
Proof.
  unfold applyAction. cbv zeta.
  set (c := confidence analysis).
  destruct (action =? 0)%Z; [done |].
  destruct (action =? 1)%Z; [| destruct (action =? 2)%Z;
    [| destruct (action =? 3)%Z; [| destruct (action =? 4)%Z; [| done]]]];
    intros _; cbn [fst snd];
    match goal with
    | |- context [Qmin ?x ?y] =>
        pose proof (Q.le_min_l x y); pose proof (Q.le_min_r x y)
    end; split; intros; lra.
Qed.

Lemma applyAction_reject action analysis :
  (applyAction action analysis).1.1 = false →
  (applyAction action analysis).1.2 = confidence analysis.
Proof.
  unfold applyAction. cbv zeta.
  destruct (action =? 0)%Z; [done |].
  destruct (action =? 1)%Z; [done |].
  destruct (action =? 2)%Z; [done |].
  destruct (action =? 3)%Z; [done |].
  destruct (action =? 4)%Z; done.
Qed.

Lemma writeQ_Some lr targetQ (a : nat) row q :
  row !! a = Some q →
  writeQ lr targetQ (Z.of_nat a) row = Some (<[a := q + lr * (targetQ - q)]> row).
Proof.
  intros Hq. unfold writeQ.
  destruct (Z.of_nat a <? 0)%Z eqn:E; [apply Z.ltb_lt in E; lia |].
  by rewrite Nat2Z.id, Hq.
Qed.

Section Agent.

Context {Features MatchInfo FootyStats : Type}.
Variable stateToKey : Features → string.
Variable extractFeatures :
  Analysis → MatchInfo → option FootyStats → list Q → option Features.
Variable matchInfoId : MatchInfo → option string.

Abbreviation getQValues := (getQValues stateToKey).
Abbreviation selectAction := (selectAction stateToKey).
Abbreviation storeStateAction := (storeStateAction matchInfoId).
Abbreviation trackDecisionQuality := (trackDecisionQuality stateToKey).
Abbreviation evaluateSignal := (evaluateSignal stateToKey extractFeatures matchInfoId).
Abbreviation updateStandardQLearning := (updateStandardQLearning stateToKey).
Abbreviation updateDoubleQLearning := (updateDoubleQLearning stateToKey).
Abbreviation getTargetQValues := (getTargetQValues stateToKey).

(** X19.  The selected action is always one of the five actions: with a
    random draw in [0, 1) and a table whose row for the state, if present,
    has five entries, [selectAction] returns an integer from 0 to 4. *)
Theorem selected_action_is_valid eps d state tbl :
  0 <= actionDraw d → actionDraw d < 1 →
  (∀ row, tbl !! stateToKey state = Some row → length row = actionCount) →
  (0 ≤ (selectAction eps d state tbl).1 < 5)%Z.
Proof.
  intros Hlo Hhi Hrows. unfold RLAgent.selectAction.
  destruct (Qltb (exploreDraw d) eps).
  - cbn [fst].
    change (inject_Z (Z.of_nat actionCount)) with (inject_Z 5).
    set (x := actionDraw d * inject_Z 5).
    assert (0 <= x) by (unfold x; change (inject_Z 5) with 5; lra).
    assert (x < 5) by (unfold x; change (inject_Z 5) with 5; lra).
    split.
    + change 0%Z with (Qfloor 0). by apply Qfloor_resp_le.
    + pose proof (Qfloor_le x) as Hf.
      change (Qfloor x < 5)%Z. rewrite Zlt_Qlt.
      change (inject_Z 5) with 5. lra.
  - pose proof (getQValues_row stateToKey state tbl) as Hrow.
    destruct (getQValues state tbl) as [row tbl']. cbn [fst] in *. subst row.
    assert (Hlen : length (readRow tbl (stateToKey state)) = actionCount).
    { unfold readRow. destruct (tbl !! stateToKey state) as [row|] eqn:E; simpl.
      - by apply Hrows.
      - done. }
    destruct (argmax_spec (readRow tbl (stateToKey state))) as (i & v & -> & Hi & _).
    { intros E. rewrite E in Hlen. done. }
    apply lookup_lt_Some in Hi. rewrite Hlen in Hi. unfold actionCount in Hi. lia.
Qed.

(** X20.  A signal that the agent lets through never carries a confidence
    above 95, and never more than 1.15 times the analysis confidence;
    a signal it rejects keeps the analysis confidence. *)
Theorem generated_confidence_is_capped now d analysis mi fs ag state :
  extractFeatures analysis mi fs (performanceHistory ag) = Some state →
  let ev := (evaluateSignal now d analysis mi fs ag).1 in
  (shouldGenerate ev = true →
   adjustedConfidence ev <= 95 ∧
   (0 <= confidence analysis →
    adjustedConfidence ev <= confidence analysis * (115 # 100))) ∧
  (shouldGenerate ev = false → adjustedConfidence ev = confidence analysis).
Proof.
  intros Hf. cbv zeta. unfold RLAgent.evaluateSignal. rewrite Hf.
  destruct (selectAction _ _ _ _) as [action tbl1].
  pose proof (applyAction_cap action analysis) as Hcap.
  pose proof (applyAction_reject action analysis) as Hrej.
  destruct (applyAction action analysis) as [[gen adj] rsn].
  destruct (RLAgent.storeStateAction _ _ _ _ _ _ _ _) as [sid pend'].
  destruct (trackDecisionQuality _ _ _ _) as [tbl2 hist'].
  cbn [fst snd shouldGenerate adjustedConfidence] in *. by split.
Qed.

(** X21.  Every evaluation is tracked under its id: the pending entry holds
    the state, the selected action, the analysis confidence and the clock
    reading, so that the later result finds it; of the entries tracked
    before, exactly those older than 24 hours are dropped. *)
Theorem evaluation_is_tracked now d analysis mi fs ag state :
  extractFeatures analysis mi fs (performanceHistory ag) = Some state →
  let r := evaluateSignal now d analysis mi fs ag in
  ev_signalId r.1 = Some (signalId d) ∧
  pendingStateActions r.2 !! signalId d =
    Some {| p_state := state;
            p_action := (selectAction (epsilon ag) d state (qTable ag)).1;
            p_timestamp := now; p_matchId := matchInfoId mi;
            originalConfidence := Some (confidence analysis);
            p_market := market analysis |} ∧
  ∀ id p, id ≠ signalId d →
    (pendingStateActions r.2 !! id = Some p ↔
     pendingStateActions ag !! id = Some p ∧
     (now - 24 * 60 * 60 * 1000 ≤ p_timestamp p)%Z).
Proof.
  intros Hf. cbv zeta. unfold RLAgent.evaluateSignal. rewrite Hf.
  destruct (selectAction _ _ _ _) as [action tbl1].
  destruct (applyAction action analysis) as [[gen adj] rsn].
  unfold RLAgent.storeStateAction.
  destruct (trackDecisionQuality _ _ _ _) as [tbl2 hist'].
  cbn [fst snd ev_signalId pendingStateActions].
  split; [done |]. split.
  - apply map_lookup_filter_Some. split; [apply lookup_insert_eq |].
    cbn [snd p_timestamp]. lia.
  - intros id p Hne. rewrite map_lookup_filter_Some.
    rewrite lookup_insert_ne by done. cbn [snd]. split.
    + intros [H1 H2]. split; [done | lia].
    + intros [H1 H2]. split; [done | lia].
Qed.

(** X22.  One learning step moves one entry: [updateStandardQLearning]
    replaces the value [q] of the taken action by
    [q + learningRate * (reward - q)], which for a learning rate between
    0 and 1 lies between [q] and the reward; the other actions of the row
    and all other rows keep their values. *)
Theorem standard_update_moves_one_entry cfg state (a : nat) reward tbl q :
  readRow tbl (stateToKey state) !! a = Some q →
  let q' := q + learningRate cfg * (reward - q) in
  ∃ tbl',
    updateStandardQLearning cfg state (Z.of_nat a) reward tbl = Some tbl' ∧
    tbl' !! stateToKey state = Some (<[a := q']> (readRow tbl (stateToKey state))) ∧
    (∀ k, k ≠ stateToKey state → tbl' !! k = tbl !! k) ∧
    (0 <= learningRate cfg <= 1 → Qmin q reward <= q' <= Qmax q reward).
Proof.
  intros Hq. cbv zeta. unfold Learning.updateStandardQLearning.
  pose proof (getQValues_row stateToKey state tbl) as Hrow.
  assert (Hother : ∀ k, k ≠ stateToKey state →
            (getQValues state tbl).2 !! k = tbl !! k).
  { intros k Hk. unfold RLAgent.getQValues.
    destruct (tbl !! stateToKey state); simpl; [done |].
    by rewrite lookup_insert_ne. }
  destruct (getQValues state tbl) as [row tbl1]. cbn [fst snd] in *. subst row.
  rewrite (writeQ_Some _ _ _ _ _ Hq).
  eexists. split; [done |]. split; [apply lookup_insert_eq |]. split.
  - intros k Hk. rewrite lookup_insert_ne by done. by apply Hother.
  - intros Hlr.
    destruct (Qmin_cases q reward) as [[-> ?] | [-> ?]];
      destruct (Qmax_cases q reward) as [[-> ?] | [-> ?]]; split; nra.
Qed.

(** X23.  The double-Q path writes the same value into the main table as
    the standard path (the discount factor multiplies the zero value of
    the terminal state), and brings the target table up to date exactly
    when the update counter is a multiple of [targetUpdateFrequency]:
    then the target table becomes a copy of the main table, otherwise it
    only gains the zero row of a state it had not seen. *)
Theorem double_update_and_target_sync cfg n state (a : nat) reward tbl tgt q :
  readRow tbl (stateToKey state) !! a = Some q →
  ∃ tbl' tgt' v,
    updateDoubleQLearning cfg n state (Z.of_nat a) reward tbl tgt = Some (tbl', tgt') ∧
    tbl' !! stateToKey state = Some (<[a := v]> (readRow tbl (stateToKey state))) ∧
    v == q + learningRate cfg * (reward - q) ∧
    (∀ k, k ≠ stateToKey state → tbl' !! k = tbl !! k) ∧
    tgt' = if divides (targetUpdateFrequency cfg) n then tbl'
           else (getTargetQValues state tgt).2.
Proof.
  intros Hq. unfold Learning.updateDoubleQLearning.
  pose proof (getQValues_row stateToKey state tbl) as Hrow.
  assert (Hother : ∀ k, k ≠ stateToKey state →
            (getQValues state tbl).2 !! k = tbl !! k).
  { intros k Hk. unfold RLAgent.getQValues.
    destruct (tbl !! stateToKey state); simpl; [done |].
    by rewrite lookup_insert_ne. }
  destruct (getQValues state tbl) as [row tbl1]. cbn [fst snd] in *. subst row.
  destruct (getTargetQValues state tgt) as [trow tgt1]. cbv zeta.
  rewrite (writeQ_Some _ _ _ _ _ Hq).
  eexists _, _, _. split; [done |]. split; [apply lookup_insert_eq |]. split.
  - ring.
  - split; [| done].
    intros k Hk. rewrite lookup_insert_ne by done. by apply Hother.
Qed.

End Agent.

Import Scenarios.

Lemma selected_action_is_valid_witness :
  (0 ≤ (RLAgent.selectAction (λ s : string, s) (3 # 10) (toyDraws (1 # 10)) "s"
          (qTable trainedAgent)).1 < 5)%Z.
Proof.
  apply (selected_action_is_valid (λ s : string, s) (3 # 10) (toyDraws (1 # 10))
           "s"%string (qTable trainedAgent)).
  - cbn. lra.
  - cbn. lra.
  - intros row. vm_compute. by intros [= <-].
Defined.

Lemma generated_confidence_is_capped_witness :
  let ev := (RLAgent.evaluateSignal (λ s : string, s) toyFeatures (λ _ : unit, None)
               1000%Z (toyDraws (1 # 10)) toyAnalysis tt None toyAgent).1 in
  shouldGenerate ev = true ∧ adjustedConfidence ev <= 95.
Proof.
  cbv zeta. split; [reflexivity |].
  apply (proj1 (proj1 (generated_confidence_is_capped (λ s : string, s) toyFeatures
                         (λ _ : unit, None) 1000%Z (toyDraws (1 # 10)) toyAnalysis
                         tt None toyAgent "s"%string eq_refl) eq_refl)).
Defined.

Lemma evaluation_is_tracked_witness :
  ev_signalId (RLAgent.evaluateSignal (λ s : string, s) toyFeatures (λ _ : unit, None)
                 1000%Z (toyDraws (1 # 10)) toyAnalysis tt None toyAgent).1
    = Some "signal_1"%string.
Proof.
  apply (proj1 (evaluation_is_tracked (λ s : string, s) toyFeatures
                  (λ _ : unit, None) 1000%Z (toyDraws (1 # 10)) toyAnalysis tt None
                  toyAgent "s"%string eq_refl)).
Defined.

Lemma standard_update_moves_one_entry_witness :
  ∃ tbl',
    Learning.updateStandardQLearning (λ s : string, s) defaultConfig "s"%string 1 1
      (qTable trainedAgent) = Some tbl' ∧
    tbl' !! "s"%string
      = Some (<[1%nat := (1 # 2) + (1 # 1000) * (1 - (1 # 2))]> [0; 1 # 2; 0; 0; 0]).
Proof.
  destruct (standard_update_moves_one_entry (λ s : string, s) defaultConfig
              "s"%string 1 1 (qTable trainedAgent) (1 # 2) eq_refl)
    as (tbl' & H1 & H2 & _).
  exists tbl'. split; [exact H1 | exact H2].
Defined.

Lemma double_update_and_target_sync_witness :
  ∃ tbl' tgt',
    Learning.updateDoubleQLearning (λ s : string, s) defaultConfig 2000 "s"%string 1 1
      (qTable trainedAgent) (targetQTable trainedAgent) = Some (tbl', tgt') ∧
    tgt' = tbl'.
Proof.
  destruct (double_update_and_target_sync (λ s : string, s) defaultConfig 2000
              "s"%string 1 1 (qTable trainedAgent) (targetQTable trainedAgent)
              (1 # 2) eq_refl)
    as (tbl' & tgt' & v & H1 & _ & _ & _ & H2).
  exists tbl', tgt'. split; [exact H1 | exact H2].
Defined.

End LearningProps.

(** * Further properties of the signal lifecycle *)

Module LifecycleProps.
Import Signals SignalsProps.

(** ** What a promotion requires *)

Lemma promoteSignal_requirements cfg now cd s :
  (state (promoteSignal cfg now cd s).1.1 ≠ state s →
   liquidityOk s = true ∧
   (getMarketThreshold cfg (market s) - 15 <= confidence s)%Q) ∧
  ((promoteSignal cfg now cd s).2 = true →
   liquidityOk s = true ∧
   (getMarketThreshold cfg (market s) <= confidence s)%Q ∧
   (inject_Z (maturationWindow cfg) <= getAge now s)%Q).
Proof.
  unfold promoteSignal. cbv zeta. cbn [fst snd].
  destruct (meetsCandidate cfg s) eqn:Hc.
  - unfold meetsCandidate in Hc.
    apply andb_prop in Hc as [Hc Hl]. apply andb_prop in Hc as [_ Hc].
    apply Qle_bool_iff in Hc. split; [done |].
    unfold meetsActive. cbn. intros Ha.
    repeat (apply andb_prop in Ha as [Ha ?]).
    repeat split; [done | by apply Qle_bool_iff | by apply Qle_bool_iff].
  - destruct (meetsActive cfg now cd s) eqn:Ha.
    + unfold meetsActive in Ha.
      apply andb_prop in Ha as [Ha _]. apply andb_prop in Ha as [Ha Hl].
      apply andb_prop in Ha as [Ha Hage]. apply andb_prop in Ha as [_ Hconf].
      apply Qle_bool_iff in Hconf, Hage.
      split; [intros _; split; [done | lra] | done].
    + split; [| done]. intros Hne. exfalso. apply Hne.
      by destruct (negb _).
Qed.

Lemma processCandidate_requirements cfg now σ c i :
  (processCandidate cfg now σ c).2 = Some i →
  i = id c ∧ liquidityOk c = true ∧
  (getMarketThreshold cfg (market c) <= confidence c)%Q ∧
  (inject_Z (maturationWindow cfg)
     <= getAge now (carryForward now (signals σ) c))%Q.
Proof.
  unfold processCandidate. cbv zeta.
  pose proof (carryForward_fields now (signals σ) c) as Hf. cbv zeta in Hf.
  destruct Hf as (Hconf & _ & Hliq & _ & _ & _ & _ & Hmk).
  pose proof (carryForward_id now (signals σ) c) as Hid.
  set (c2 := carryForward now (signals σ) c) in *.
  destruct (_ || _); [| done].
  pose proof (proj2 (promoteSignal_requirements cfg now (cooldown σ) c2)) as Hreq.
  destruct (promoteSignal cfg now (cooldown σ) c2) as [[c3 cd'] act].
  cbn [fst snd] in *. destruct act; [| done].
  intros [= <-]. destruct (Hreq eq_refl) as (H1 & H2 & H3).
  rewrite <- Hliq, <- Hconf, <- Hmk. done.
Qed.

(** X24.  Nothing becomes ACTIVE unchecked.  An iteration of the candidate
    loop promotes a candidate to ACTIVE only if the candidate is liquid,
    its confidence reaches the threshold of its market, and its age,
    counted from the creation time carried over from the live set, has
    reached the maturation window; hence every identity that an [update]
    call promotes belongs to a liquid candidate of that call whose
    confidence reaches its market threshold. *)
Theorem activation_requirements cfg now :
  (∀ σ c i,
     (processCandidate cfg now σ c).2 = Some i →
     i = id c ∧ liquidityOk c = true ∧
     (getMarketThreshold cfg (market c) <= confidence c)%Q ∧
     (inject_Z (maturationWindow cfg)
        <= getAge now (carryForward now (signals σ) c))%Q) ∧
  (∀ cs σ i,
     i ∈ activations cfg now cs σ →
     ∃ c, c ∈ cs ∧ id c = i ∧ liquidityOk c = true ∧
          (getMarketThreshold cfg (market c) <= confidence c)%Q).
Proof.
  split; [apply processCandidate_requirements |].
  unfold activations.
  induction cs as [|c cs IH]; intros σ i Hi; simpl in Hi;
    [by apply elem_of_nil in Hi |].
  pose proof (processCandidate_requirements cfg now σ c) as Hreq.
  destruct (processCandidate cfg now σ c) as [σ1 ev].
  specialize (IH σ1 i).
  destruct (processCandidates cfg now σ1 cs) as [σ2 evs].
  cbn [fst snd] in *.
  assert (Hrest : i ∈ evs → ∃ c0, c0 ∈ c :: cs ∧ id c0 = i ∧ liquidityOk c0 = true ∧
            (getMarketThreshold cfg (market c0) <= confidence c0)%Q).
  { intros H. destruct (IH H) as (c0 & Hc0 & Hrest). exists c0.
    split; [by right | done]. }
  destruct ev as [j|]; [| by apply Hrest].
  apply elem_of_cons in Hi as [-> | Hi]; [| by apply Hrest].
  destruct (Hreq j eq_refl) as (-> & Hl & Hc & _).
  exists c. split; [by left | done].
Qed.

(** ** Remaining time to live *)

Lemma mathRound_nonneg x : (0 <= x)%Q → 0 ≤ mathRound x.
Proof.
  intros Hx. unfold mathRound. change 0 with (Qfloor 0).
  apply Qfloor_resp_le. lra.
Qed.

Lemma mathRound_le x n : (x <= inject_Z n)%Q → mathRound x ≤ n.
Proof.
  intros Hx. unfold mathRound.
  pose proof (Qfloor_le (x + (1 # 2))) as Hf.
  cut (Qfloor (x + (1 # 2)) < n + 1); [lia |].
  rewrite Zlt_Qlt, inject_Z_plus. change (inject_Z 1) with 1%Q. lra.
Qed.

Lemma getTimeLeft_nonneg now s : (0 <= getTimeLeft now s)%Q.
Proof. unfold getTimeLeft. apply Q.le_max_l. Qed.

(** X25.  Both public views report the same remaining time to live: the
    [ttl_left] of the snapshot equals the [ttlLeft] of the summary, it is
    never negative, and for a signal created no later than the clock
    reading it is at most the signal's [ttlSeconds]. *)
Theorem remaining_ttl_views now s :
  ttl_left (toUISignal now s) = ttlLeft (toSummary now s) ∧
  0 ≤ ttlLeft (toSummary now s) ∧
  (createdTs s ≤ now → ttlLeft (toSummary now s) ≤ Z.max 0 (ttlSeconds s)).
Proof.
  pose proof (mathRound_nonneg _ (getTimeLeft_nonneg now s)) as Hnn.
  cbn [ttl_left toUISignal ttlLeft toSummary].
  split; [lia |]. split; [done |].
  intros Hage. apply mathRound_le.
  unfold getTimeLeft, getAge.
  assert (0 <= inject_Z (now - createdTs s) / 1000)%Q.
  { apply Qle_shift_div_l; [reflexivity |]. rewrite Qmult_0_l.
    change 0%Q with (inject_Z 0). rewrite <- Zle_Qle. lia. }
  assert (inject_Z (ttlSeconds s) <= inject_Z (Z.max 0 (ttlSeconds s)))%Q
    by (rewrite <- Zle_Qle; lia).
  assert (0 <= inject_Z (Z.max 0 (ttlSeconds s)))%Q
    by (change 0%Q with (inject_Z 0); rewrite <- Zle_Qle; lia).
  apply Q.max_lub; lra.
Qed.

(** ** Signals that are not resubmitted *)

Lemma keys_mapSet {V} k (v : V) m :
  map fst (mapSet k v m) =
    if bool_decide (k ∈ map fst m) then map fst m else map fst m ++ [k].
Proof.
  induction m as [|[k' v'] m IH]; cbn [mapSet map fst].
  - done.
  - destruct (String.eqb k' k) eqn:E; cbn [map fst].
    + apply String.eqb_eq in E. subst k'.
      by rewrite bool_decide_eq_true_2 by (left).
    + apply String.eqb_neq in E. rewrite IH.
      destruct (bool_decide (k ∈ map fst m)) eqn:B.
      * apply bool_decide_eq_true in B.
        by rewrite bool_decide_eq_true_2 by (by right).
      * apply bool_decide_eq_false in B.
        rewrite bool_decide_eq_false_2; [done |].
        intros H. apply elem_of_cons in H as [-> | H]; done.
Qed.

Lemma NoDup_mapSet {V} k (v : V) m :
  NoDup (map fst m) → NoDup (map fst (mapSet k v m)).
Proof.
  intros H. rewrite keys_mapSet.
  destruct (bool_decide (k ∈ map fst m)) eqn:B; [done |].
  apply bool_decide_eq_false in B.
  apply NoDup_app. split; [done |]. split; [| apply NoDup_singleton].
  intros x Hx Hx'. apply list_elem_of_singleton in Hx'. by subst x.
Qed.

Lemma NoDup_processCandidate cfg now σ c :
  NoDup (map fst (signals σ)) →
  NoDup (map fst (signals (processCandidate cfg now σ c).1)).
Proof.
  intros H. unfold processCandidate. cbv zeta.
  destruct (_ || _).
  - destruct (promoteSignal _ _ _ _) as [[c3 cd'] act]. cbn [fst signals].
    by do 2 apply NoDup_mapSet.
  - cbn [fst signals]. by apply NoDup_mapSet.
Qed.

Lemma NoDup_processCandidates cfg now cs : ∀ σ,
  NoDup (map fst (signals σ)) →
  NoDup (map fst (signals (processCandidates cfg now σ cs).1)).
Proof.
  induction cs as [|c cs IH]; intros σ H; simpl; [done |].
  pose proof (NoDup_processCandidate cfg now σ c H) as H1.
  destruct (processCandidate cfg now σ c) as [σ1 ev].
  specialize (IH σ1 H1).
  by destruct (processCandidates cfg now σ1 cs) as [σ2 evs].
Qed.

Lemma NoDup_filter_keys {V} (p : string * V → bool) (m : list (string * V)) :
  NoDup (map fst m) → NoDup (map fst (List.filter p m)).
Proof.
  induction m as [|[k v] m IH]; simpl; [done |].
  intros H. apply NoDup_cons in H as [Hk H].
  destruct (p (k, v)); simpl; [| by apply IH].
  apply NoDup_cons. split; [| by apply IH].
  intros Hin. apply Hk.
  apply list_elem_of_In, in_map_iff in Hin as ([k' v'] & Hk' & Hin).
  simpl in Hk'. subst k'.
  apply List.filter_In in Hin as [Hin _].
  apply list_elem_of_In, in_map_iff. by exists (k, v').
Qed.

Lemma NoDup_sweep now m : NoDup (map fst m) → NoDup (map fst (sweep now m)).
Proof.
  unfold sweep. generalize (expiredIds now m) as ks.
  intros ks. revert m. induction ks as [|k ks IH]; intros m H; simpl; [done |].
  apply IH. unfold mapDelete. by apply NoDup_filter_keys.
Qed.

Lemma mapGet_unique {V} k (v : V) m :
  NoDup (map fst m) → (k, v) ∈ m → mapGet k m = Some v.
Proof.
  induction m as [|[k' v'] m IH]; simpl; intros Hnd Hin;
    [by apply elem_of_nil in Hin |].
  apply NoDup_cons in Hnd as [Hk Hnd].
  apply elem_of_cons in Hin as [[= <- <-] | Hin].
  - by rewrite String.eqb_refl.
  - destruct (String.eqb k' k) eqn:E; [| by apply IH].
    apply String.eqb_eq in E. subst k'. exfalso. apply Hk.
    apply list_elem_of_In, in_map_iff. exists (k, v).
    split; [done | by apply list_elem_of_In].
Qed.

Lemma expiredIds_inv now m i :
  NoDup (map fst m) → i ∈ expiredIds now m →
  ∃ s, mapGet i m = Some s ∧ (expireSignal now s).1 = true.
Proof.
  intros Hnd Hi. unfold expiredIds in Hi.
  apply list_elem_of_In, in_map_iff in Hi as ([k s] & Hk & Hin).
  simpl in Hk. subst k.
  apply List.filter_In in Hin as [Hin Hexp]. simpl in Hexp.
  exists s. split; [| done].
  apply mapGet_unique; [done | by apply list_elem_of_In].
Qed.

(** X26.  A live signal [s] that an [update] call at time [now] does not
    resubmit is kept exactly as it is when less than its time to live has
    passed since its creation ([now - createdTs s < ttlSeconds s * 1000],
    in milliseconds), and is removed by the call when its time to live has
    run out ([ttlSeconds s * 1000 ≤ now - createdTs s]); this is the verdict
    of [expireSignal]; the keys of the live set stay distinct. *)
Theorem untouched_signal_persists cfg now cs σ i s :
  NoDup (map fst (signals σ)) →
  mapGet i (signals σ) = Some s →
  Forall (λ c, id c ≠ i) cs →
  (now - createdTs s < ttlSeconds s * 1000 →
   mapGet i (signals (update cfg now cs σ).2) = Some s) ∧
  (ttlSeconds s * 1000 ≤ now - createdTs s →
   mapGet i (signals (update cfg now cs σ).2) = None) ∧
  mapGet i (signals (update cfg now cs σ).2)
    = (if (expireSignal now s).1 then None else Some s) ∧
  NoDup (map fst (signals (update cfg now cs σ).2)).
Proof.
  intros Hnd Hs Hcs. rewrite update_signals.
  pose proof (NoDup_processCandidates cfg now cs σ Hnd) as Hnd1.
  pose proof (processCandidates_get_other cfg now cs i σ Hcs) as Hget.
  rewrite Hs in Hget.
  assert (Hsweep : mapGet i (sweep now (signals (processCandidates cfg now σ cs).1))
                   = (if (expireSignal now s).1 then None else Some s)).
  { rewrite sweep_get, Hget.
    destruct (expireSignal now s).1 eqn:E.
    - rewrite bool_decide_eq_true_2; [done |]. by eapply expired_listed.
    - rewrite bool_decide_eq_false_2; [done |].
      intros Hin. apply expiredIds_inv in Hin as (s' & Hs' & Hexp); [| done].
      congruence. }
  pose proof (SignalsProps.expireSignal_ttl now s) as Httl. unfold unexpiredAt in Httl.
  split; [| split; [| split; [exact Hsweep | by apply NoDup_sweep]]].
  - intros Hlive. rewrite Hsweep. by rewrite (proj2 Httl Hlive).
  - intros Hout. rewrite Hsweep.
    destruct (expireSignal now s).1; [done |].
    pose proof (proj1 Httl eq_refl). lia.
Qed.

Import Scenarios.

Lemma untouched_signal_persists_witness :
  mapGet "M1:over_2.5" (signals (update defaultConfig 1030000 [] afterFirstTick).2)
    = Some heldAfterFirstTick ∧
  mapGet "M1:over_2.5" (signals (update defaultConfig 1100000 [] afterFirstTick).2)
    = None.
Proof.
  split.
  - apply (proj1 (untouched_signal_persists defaultConfig 1030000 [] afterFirstTick
                    "M1:over_2.5" heldAfterFirstTick
                    ltac:(vm_compute; apply NoDup_singleton)
                    ltac:(reflexivity) ltac:(constructor))).
    vm_compute. reflexivity.
  - apply (proj1 (proj2 (untouched_signal_persists defaultConfig 1100000 []
                    afterFirstTick "M1:over_2.5" heldAfterFirstTick
                    ltac:(vm_compute; apply NoDup_singleton)
                    ltac:(reflexivity) ltac:(constructor)))).
    vm_compute. discriminate.
Defined.

End LifecycleProps.

(** * Properties of the broadcast guard *)

Module EngineProps.
Import Signals Engine.

Lemma broadcastStep_mono acc c m :
  broadcastMinute m acc.1 ≤ broadcastMinute m (broadcastStep acc c).1.
Proof.
  destruct acc as [lbm f]. unfold broadcastStep, broadcastMinute. cbn [fst].
  destruct (minute c >? default 0 (lbm !! matchId c)) eqn:E; cbn [fst]; [| lia].
  apply Z.gtb_lt in E.
  destruct (decide (matchId c = m)) as [<- | Hne].
  - rewrite lookup_insert_eq. simpl. lia.
  - rewrite lookup_insert_ne by done. lia.
Qed.

Lemma broadcastStep_covers acc c :
  minute c ≤ broadcastMinute (matchId c) (broadcastStep acc c).1.
Proof.
  destruct acc as [lbm f]. unfold broadcastStep, broadcastMinute. cbn [fst].
  destruct (minute c >? default 0 (lbm !! matchId c)) eqn:E; cbn [fst].
  - rewrite lookup_insert_eq. simpl. lia.
  - rewrite Z.gtb_ltb in E. apply Z.ltb_ge in E. lia.
Qed.

Lemma foldl_broadcastStep_mono cs : ∀ acc m,
  broadcastMinute m acc.1 ≤ broadcastMinute m (foldl broadcastStep acc cs).1.
Proof.
  induction cs as [|c cs IH]; intros acc m; simpl; [lia |].
  pose proof (broadcastStep_mono acc c m). specialize (IH (broadcastStep acc c) m).
  lia.
Qed.

Lemma foldl_broadcastStep_flag cs : ∀ acc,
  acc.2 = true → (foldl broadcastStep acc cs).2 = true.
Proof.
  induction cs as [|c cs IH]; intros [lbm f] Hf; simpl in *; [done |].
  apply IH. subst f. by destruct (_ >? _).
Qed.

Lemma foldl_broadcastStep_quiet cs : ∀ acc,
  (foldl broadcastStep acc cs).2 = false →
  (foldl broadcastStep acc cs).1 = acc.1 ∧
  ∀ c, c ∈ cs → minute c ≤ broadcastMinute (matchId c) acc.1.
Proof.
  induction cs as [|c cs IH]; intros [lbm f] Hq; simpl in *.
  - split; [done |]. intros c Hc. by apply elem_of_nil in Hc.
  - destruct (minute c >? default 0 (lbm !! matchId c)) eqn:E.
    + rewrite foldl_broadcastStep_flag in Hq by done. done.
    + destruct (IH _ Hq) as [IH1 IH2]. cbn [fst] in *. split; [done |].
      intros c' Hc'. apply elem_of_cons in Hc' as [-> | Hc']; [| by apply IH2].
      rewrite Z.gtb_ltb in E. apply Z.ltb_ge in E. unfold broadcastMinute. lia.
Qed.

Lemma foldl_broadcastStep_flag_inv cs : ∀ acc,
  (foldl broadcastStep acc cs).2 = true →
  acc.2 = true ∨ ∃ c, c ∈ cs ∧ broadcastMinute (matchId c) acc.1 < minute c.
Proof.
  induction cs as [|c cs IH]; intros [lbm f] Hf; simpl in *; [by left |].
  destruct (minute c >? default 0 (lbm !! matchId c)) eqn:E.
  - right. exists c. split; [by left |]. by apply Z.gtb_lt in E.
  - destruct (IH _ Hf) as [H | (c' & Hc' & H)]; [by left |].
    right. exists c'. split; [by right | done].
Qed.

(** X27.  The broadcast guard of the main loop.  A broadcast is forced
    exactly when some candidate carries a minute above the one last
    broadcast for its match (0 when none was); afterwards the recorded
    minute of every match is at least what it was and at least the minute
    of every candidate of that match; and without a forced broadcast the
    record is left as it was. *)
Theorem broadcast_forced_on_progress lbm cs :
  let r := broadcastCheck lbm cs in
  (r.2 = true ↔ ∃ c, c ∈ cs ∧ broadcastMinute (matchId c) lbm < minute c) ∧
  (∀ m, broadcastMinute m lbm ≤ broadcastMinute m r.1) ∧
  (∀ c, c ∈ cs → minute c ≤ broadcastMinute (matchId c) r.1) ∧
  (r.2 = false → r.1 = lbm).
Proof.
  cbv zeta. unfold broadcastCheck.
  assert (Hcov : ∀ cs acc c, c ∈ cs →
            minute c ≤ broadcastMinute (matchId c) (foldl broadcastStep acc cs).1).
  { clear. induction cs as [|c0 cs IH]; intros acc c Hc;
      [by apply elem_of_nil in Hc |].
    simpl. apply elem_of_cons in Hc as [-> | Hc]; [| by apply IH].
    pose proof (broadcastStep_covers acc c0).
    pose proof (foldl_broadcastStep_mono cs (broadcastStep acc c0) (matchId c0)).
    lia. }
  split; [| split; [| split]].
  - split.
    + intros Hf. apply foldl_broadcastStep_flag_inv in Hf as [Hf | Hf]; done.
    + intros (c & Hc & Hlt).
      destruct (foldl broadcastStep (lbm, false) cs).2 eqn:E; [done |].
      apply foldl_broadcastStep_quiet in E as [_ E].
      specialize (E c Hc). cbn [fst] in E. lia.
  - intros m. apply (foldl_broadcastStep_mono cs (lbm, false) m).
  - intros c Hc. by apply Hcov.
  - intros Hq. by apply foldl_broadcastStep_quiet in Hq as [-> _].
Qed.

End EngineProps.

(** * Properties of the odds selection *)

Module OddsProps.
Import RLAgent Odds RLAgentProps TeamsProps.
Local Open Scope Q_scope.

Lemma considered_inv key wl item b o :
  considered key wl item = Some (b, o) →
  0 < o ∧ b ≠ ""%string ∧ parsed item = Some o ∧
  strIncludes (toLowerCase (orElse (item_market item) (orElse (item_label item) "")))
              (toLowerCase key) = true ∧
  (wl ≠ [] → includes wl b = true).
Proof.
  unfold considered. cbv zeta.
  destruct (strIncludes _ _); [| done]. simpl.
  set (bk := orElse (item_bookmaker_name item) _).
  destruct (negb (Nat.eqb (length wl) 0) && negb (includes wl bk)) eqn:Hw; [done |].
  destruct (parsed item) as [p|]; [| done].
  destruct (Qle_bool p 0) eqn:Hp; [done |].
  intros [= <- <-].
  assert (0 < p).
  { apply Qnot_le_lt. intros H. apply Qle_bool_iff in H. congruence. }
  split; [done |]. split.
  { unfold bk. apply orElse_nonempty, orElse_nonempty. done. }
  split; [done |]. split; [done |].
  intros Hne. apply andb_false_iff in Hw as [Hw | Hw].
  - apply negb_false_iff, Nat.eqb_eq in Hw. by destruct wl.
  - by apply negb_false_iff in Hw.
Qed.

(** What the loop has established after a prefix of the items. *)
Definition bestOf (key : string) (wl : list string) (seen : list OddsItem)
    (acc : option string * Q) : Prop :=
  (∀ item b o, In item seen → considered key wl item = Some (b, o) → o <= acc.2) ∧
  match acc.1 with
  | Some b => ∃ item, In item seen ∧ considered key wl item = Some (b, acc.2)
  | None => acc.2 = 0 ∧ ∀ item, In item seen → considered key wl item = None
  end.

Lemma bestStep_bestOf key wl seen acc item :
  bestOf key wl seen acc → bestOf key wl (seen ++ [item]) (bestStep key wl acc item).
Proof.
  intros [Hmax Hbest]. unfold bestStep.
  destruct (considered key wl item) as [[b o]|] eqn:Hc.
  - destruct (Qltb acc.2 o) eqn:E.
    + apply Qltb_true in E. split; cbn [fst snd].
      * intros it b' o' Hin Hc'. apply in_app_or in Hin as [Hin | [<- | []]].
        -- specialize (Hmax it b' o' Hin Hc'). lra.
        -- rewrite Hc in Hc'. injection Hc' as _ <-. lra.
      * exists item. split; [apply in_or_app; right; by left | done].
    + apply Qltb_false in E. split.
      * intros it b' o' Hin Hc'. apply in_app_or in Hin as [Hin | [<- | []]].
        -- by apply (Hmax it b' o').
        -- rewrite Hc in Hc'. by injection Hc' as _ <-.
      * destruct acc.1 as [b0|].
        -- destruct Hbest as (it & Hin & Hit). exists it.
           split; [apply in_or_app; by left | done].
        -- destruct Hbest as [H0 _].
           destruct (considered_inv _ _ _ _ _ Hc) as [Hpos _].
           rewrite H0 in E. lra.
  - split.
    + intros it b' o' Hin Hc'. apply in_app_or in Hin as [Hin | [<- | []]].
      * by apply (Hmax it b' o').
      * congruence.
    + destruct acc.1 as [b0|].
      * destruct Hbest as (it & Hin & Hit). exists it.
        split; [apply in_or_app; by left | done].
      * destruct Hbest as [H0 Hnone]. split; [done |].
        intros it Hin. apply in_app_or in Hin as [Hin | [<- | []]]; auto.
Qed.

Lemma foldl_bestOf key wl items : ∀ seen acc,
  bestOf key wl seen acc →
  bestOf key wl (seen ++ items) (foldl (bestStep key wl) acc items).
Proof.
  induction items as [|item items IH]; intros seen acc H; simpl.
  - by rewrite app_nil_r.
  - replace (seen ++ item :: items) with ((seen ++ [item]) ++ items)
      by (by rewrite <- app_assoc).
    apply IH. by apply bestStep_bestOf.
Qed.

Lemma selectBestOdds_spec items key wl :
  match selectBestOdds (Some items) key wl with
  | Some r =>
      0 < odds r ∧
      (∃ item, In item items ∧ considered key wl item = Some (bookmaker r, odds r)) ∧
      (wl ≠ [] → includes wl (bookmaker r) = true) ∧
      (∀ item b o, In item items → considered key wl item = Some (b, o) →
                   o <= odds r)
  | None => ∀ item, In item items → considered key wl item = None
  end.
Proof.
  unfold selectBestOdds.
  pose proof (foldl_bestOf key wl items [] (None, 0)) as H.
  destruct H as [Hmax Hbest].
  { split; [intros ? ? ? [] | split; [done | intros ? []]]. }
  rewrite app_nil_l in Hmax, Hbest.
  destruct (foldl (bestStep key wl) (None, 0) items) as [[b|] bo]; cbn [fst snd] in *.
  - destruct Hbest as (item & Hin & Hc).
    destruct (considered_inv _ _ _ _ _ Hc) as (Hpos & Hb & _ & _ & Hwl).
    apply String.eqb_neq in Hb. rewrite Hb.
    apply Qltb_true in Hpos. rewrite Hpos. cbn [negb andb bookmaker odds].
    apply Qltb_true in Hpos.
    split; [done |]. split; [by exists item |]. split; done.
  - by destruct Hbest as [_ Hnone].
Qed.

Lemma selectBestOdds_pos items key wl r :
  selectBestOdds (Some items) key wl = Some r → 0 < odds r.
Proof.
  intros H. pose proof (selectBestOdds_spec items key wl) as Hs.
  rewrite H in Hs. tauto.
Qed.


(** X29.  A value bet always has a positive edge: with a margin that is not
    negative, [isValueBet] implies that the value score (model probability
    minus implied probability) is positive; and the implied probability is
    never negative, being 0 for odds that are not positive. *)
Theorem value_bet_has_positive_edge p o margin :
  0 <= margin →
  0 <= impliedProbability (calculateValueBet p o margin) ∧
  (isValueBet (calculateValueBet p o margin) = true →
   0 < valueScore (calculateValueBet p o margin)).
Proof.
  intros Hm. unfold calculateValueBet. cbn [isValueBet valueScore impliedProbability].
  assert (Hi : 0 <= impliedProbabilityFromOdds o).
  { unfold impliedProbabilityFromOdds.
    destruct (Qle_bool o 0) eqn:E; [lra |].
    assert (0 < o).
    { apply Qnot_le_lt. intros H. apply Qle_bool_iff in H. congruence. }
    apply Qle_shift_div_l; [done | lra]. }
  split; [done |].
  intros Hv. apply Qltb_true in Hv. nra.
Qed.

Lemma value_bet_has_positive_edge_witness :
  0 < valueScore (calculateValueBet (6 # 10) 2 (1 # 10)).
Proof.
  apply (proj2 (value_bet_has_positive_edge (6 # 10) 2 (1 # 10) ltac:(lra))).
  reflexivity.
Defined.

(** X30.  The minimum-odds filter on a selected price: what
    [selectBestOdds] returns is positive, so [meetsMinimumOdds] accepts it
    exactly when it reaches the minimum of its market, where a market
    without its own non-zero minimum uses the default. *)
Theorem selected_odds_filter items key wl config mk r :
  selectBestOdds (Some items) key wl = Some r →
  meetsMinimumOdds (Some (odds r)) config mk
    = Qle_bool (getMinOddsForMarket config mk) (odds r).
Proof.
  intros Hsel.
  pose proof (selectBestOdds_pos items key wl r Hsel) as Hpos.
  unfold meetsMinimumOdds.
  destruct (Qle_bool (odds r) 0) eqn:E; [| done].
  apply Qle_bool_iff in E. lra.
Qed.

Lemma selected_odds_filter_witness :
  meetsMinimumOdds (Some (odds {| bookmaker := "bet365"; odds := 21 # 10 |}))
    {| minOddsDefault := 15 # 10; minOddsPerMarket := ∅ |} "btts"
  = Qle_bool (getMinOddsForMarket
                {| minOddsDefault := 15 # 10; minOddsPerMarket := ∅ |} "btts")
             (odds {| bookmaker := "bet365"; odds := 21 # 10 |}).
Proof.
  apply (selected_odds_filter
           [quote "BTTS" "bet365" (21 # 10); quote "BTTS" "other" (19 # 10)]
           "btts" ["bet365"%string]
           {| minOddsDefault := 15 # 10; minOddsPerMarket := ∅ |} "btts"
           {| bookmaker := "bet365"; odds := 21 # 10 |}).
  reflexivity.
Defined.

End OddsProps.
